(** * 9fans-go: the fid-recycle proxy, the fid lifecycle, framing and acme.Mount

    A shallow embedding of
    - [plan9/client/conn_test.go]: the simulated 9P proxy [proxyServer] and
      the regression test [TestFidRecycle];
    - [acme/acme_p9p.go] and [acme/acme_plan9.go]: the two builds of
      [acme.Mount];
    together with the parts of the client and of the message codec that the
    repository keeps outside these files. *)

From Stdlib Require Import ZArith NArith List Lia.
From stdpp Require Import gmap strings list.

(** ** Package plan9: the declarations the proxy uses *)

Module plan9.

(** The message discriminant.  [Fcall.Type] is a [uint8] whose legal values
    are the named constants of package plan9; [ReadFcall] hands out only
    messages that carry one of them, so the embedding is the enumeration. *)
Inductive msgtype : Set :=
  | Tversion | Rversion | Tauth | Rauth | Tattach | Rattach | Rerror
  | Tflush | Rflush | Twalk | Rwalk | Topen | Ropen | Tcreate | Rcreate
  | Tread | Rread | Twrite | Rwrite | Tclunk | Rclunk | Tremove | Rremove
  | Tstat | Rstat | Twstat | Rwstat.

#[global] Instance msgtype_eq_dec : EqDecision msgtype.
Proof. solve_decision. Defined.

(** Modelled from the spec: the reserved tag that means no correlation is
    expected (section 6); [plan9.NOTAG] is declared outside the files at
    hand, a [uint16] with every bit set. *)
Definition NOTAG : N := 65535.

(** Modelled from the spec: the fid that means no fid (section 6);
    [plan9.NOFID], a [uint32] with every bit set. *)
Definition NOFID : N := 4294967295.

(** Modelled from the spec: the qid type bits [plan9.QTDIR] and
    [plan9.QTFILE] of an object identifier. *)
Definition QTDIR : N := 128.
Definition QTFILE : N := 0.

(** [plan9.Qid]: the fields are [Path uint64], [Vers uint32], [Type uint8]. *)
Record Qid : Set := { Path : N; Vers : N; QTyp : N }.

#[global] Instance Qid_eq_dec : EqDecision Qid.
Proof. solve_decision. Defined.

(** [plan9.Fcall], restricted to the fields that some message of the
    version, attach, walk, open, clunk and error families carries. *)
Record Fcall : Set := {
  Typ : msgtype;
  Tag : N;
  Fid : N;
  Newfid : N;
  Afid : N;
  Msize : N;
  Version : string;
  Uname : string;
  Aname : string;
  Mode : N;
  Qid_ : Qid;
  Wname : list string;
  Wqid : list Qid;
  Ename : string }.

#[global] Instance Fcall_eq_dec : EqDecision Fcall.
Proof. solve_decision. Defined.

(** The zero [Qid] and a composite literal that sets [Type] and [Tag] and
    leaves every other field at its zero value. *)
Definition Qid0 : Qid := {| Path := 0; Vers := 0; QTyp := 0 |}.

Definition new (ty : msgtype) (tag : N) : Fcall :=
  {| Typ := ty; Tag := tag; Fid := 0; Newfid := 0; Afid := 0; Msize := 0;
     Version := ""; Uname := ""; Aname := ""; Mode := 0; Qid_ := Qid0;
     Wname := []; Wqid := []; Ename := "" |}.

Definition set_Fid (x : N) (f : Fcall) : Fcall :=
  {| Typ := Typ f; Tag := Tag f; Fid := x; Newfid := Newfid f;
     Afid := Afid f; Msize := Msize f; Version := Version f;
     Uname := Uname f; Aname := Aname f; Mode := Mode f; Qid_ := Qid_ f;
     Wname := Wname f; Wqid := Wqid f; Ename := Ename f |}.

Definition set_Newfid (x : N) (f : Fcall) : Fcall :=
  {| Typ := Typ f; Tag := Tag f; Fid := Fid f; Newfid := x;
     Afid := Afid f; Msize := Msize f; Version := Version f;
     Uname := Uname f; Aname := Aname f; Mode := Mode f; Qid_ := Qid_ f;
     Wname := Wname f; Wqid := Wqid f; Ename := Ename f |}.

Definition set_Afid (x : N) (f : Fcall) : Fcall :=
  {| Typ := Typ f; Tag := Tag f; Fid := Fid f; Newfid := Newfid f;
     Afid := x; Msize := Msize f; Version := Version f;
     Uname := Uname f; Aname := Aname f; Mode := Mode f; Qid_ := Qid_ f;
     Wname := Wname f; Wqid := Wqid f; Ename := Ename f |}.

Definition set_Msize (x : N) (f : Fcall) : Fcall :=
  {| Typ := Typ f; Tag := Tag f; Fid := Fid f; Newfid := Newfid f;
     Afid := Afid f; Msize := x; Version := Version f;
     Uname := Uname f; Aname := Aname f; Mode := Mode f; Qid_ := Qid_ f;
     Wname := Wname f; Wqid := Wqid f; Ename := Ename f |}.

Definition set_Version (x : string) (f : Fcall) : Fcall :=
  {| Typ := Typ f; Tag := Tag f; Fid := Fid f; Newfid := Newfid f;
     Afid := Afid f; Msize := Msize f; Version := x;
     Uname := Uname f; Aname := Aname f; Mode := Mode f; Qid_ := Qid_ f;
     Wname := Wname f; Wqid := Wqid f; Ename := Ename f |}.

Definition set_Uname (x : string) (f : Fcall) : Fcall :=
  {| Typ := Typ f; Tag := Tag f; Fid := Fid f; Newfid := Newfid f;
     Afid := Afid f; Msize := Msize f; Version := Version f;
     Uname := x; Aname := Aname f; Mode := Mode f; Qid_ := Qid_ f;
     Wname := Wname f; Wqid := Wqid f; Ename := Ename f |}.

Definition set_Aname (x : string) (f : Fcall) : Fcall :=
  {| Typ := Typ f; Tag := Tag f; Fid := Fid f; Newfid := Newfid f;
     Afid := Afid f; Msize := Msize f; Version := Version f;
     Uname := Uname f; Aname := x; Mode := Mode f; Qid_ := Qid_ f;
     Wname := Wname f; Wqid := Wqid f; Ename := Ename f |}.

Definition set_Mode (x : N) (f : Fcall) : Fcall :=
  {| Typ := Typ f; Tag := Tag f; Fid := Fid f; Newfid := Newfid f;
     Afid := Afid f; Msize := Msize f; Version := Version f;
     Uname := Uname f; Aname := Aname f; Mode := x; Qid_ := Qid_ f;
     Wname := Wname f; Wqid := Wqid f; Ename := Ename f |}.

Definition set_Qid (x : Qid) (f : Fcall) : Fcall :=
  {| Typ := Typ f; Tag := Tag f; Fid := Fid f; Newfid := Newfid f;
     Afid := Afid f; Msize := Msize f; Version := Version f;
     Uname := Uname f; Aname := Aname f; Mode := Mode f; Qid_ := x;
     Wname := Wname f; Wqid := Wqid f; Ename := Ename f |}.

Definition set_Wname (x : list string) (f : Fcall) : Fcall :=
  {| Typ := Typ f; Tag := Tag f; Fid := Fid f; Newfid := Newfid f;
     Afid := Afid f; Msize := Msize f; Version := Version f;
     Uname := Uname f; Aname := Aname f; Mode := Mode f; Qid_ := Qid_ f;
     Wname := x; Wqid := Wqid f; Ename := Ename f |}.

Definition set_Wqid (x : list Qid) (f : Fcall) : Fcall :=
  {| Typ := Typ f; Tag := Tag f; Fid := Fid f; Newfid := Newfid f;
     Afid := Afid f; Msize := Msize f; Version := Version f;
     Uname := Uname f; Aname := Aname f; Mode := Mode f; Qid_ := Qid_ f;
     Wname := Wname f; Wqid := x; Ename := Ename f |}.

Definition set_Ename (x : string) (f : Fcall) : Fcall :=
  {| Typ := Typ f; Tag := Tag f; Fid := Fid f; Newfid := Newfid f;
     Afid := Afid f; Msize := Msize f; Version := Version f;
     Uname := Uname f; Aname := Aname f; Mode := Mode f; Qid_ := Qid_ f;
     Wname := Wname f; Wqid := Wqid f; Ename := x |}.

(** The requests a client sends, as composite literals. *)
Definition tversion (msize : N) : Fcall :=
  set_Version "9P2000" (set_Msize msize (new Tversion NOTAG)).

Definition tattach (tag fid : N) (uname aname : string) : Fcall :=
  set_Aname aname (set_Uname uname
    (set_Afid NOFID (set_Fid fid (new Tattach tag)))).

Definition twalk (tag fid newfid : N) (names : list string) : Fcall :=
  set_Wname names (set_Newfid newfid (set_Fid fid (new Twalk tag))).

Definition topen (tag fid mode : N) : Fcall :=
  set_Mode mode (set_Fid fid (new Topen tag)).

Definition tclunk (tag fid : N) : Fcall := set_Fid fid (new Tclunk tag).

End plan9.

Import plan9.

(** ** The proxy of conn_test.go *)

Module proxy.

(** Where [serve] stands: before the version handshake, before the attach,
    or in its [for] loop. *)
Inductive phase : Set := InVersion | InAttach | InLoop.

#[global] Instance phase_eq_dec : EqDecision phase.
Proof. solve_decision. Defined.

(** The main goroutine of [serve]: about to call [s.read()], about to call
    [s.send(r)] and then go on in phase [next], returned (a read failed), or
    stopped by a run-time panic. *)
Inductive pc : Set :=
  | AtRead (ph : phase)
  | AtSend (r : Fcall) (next : phase)
  | Returned
  | Panicked.

(** A goroutine started by the [Tclunk] case.  It captured [tag] and [fid];
    it sleeps until [until], then deletes [fid] under the lock, then sends
    [Rclunk] and exits. *)
Inductive clunker : Set :=
  | Sleeping (tag fid : N) (until : Z)
  | Woken (tag : N)
  | Exited.

(** The channel [clunkSeen]: nil until the test assigns one. *)
Inductive chan : Set := ChanNil | ChanOpen | ChanClosed.

(** [proxyServer] and the goroutines that work on it.  [out] is the content
    of the buffered channel, oldest first.  [sender] tells whether the
    goroutine of [s.sender()] is still in its loop, and [hand] is the frame
    it has received from [out] and is writing: [WriteFcall] blocks on the
    pipe while the frame is no longer in the channel.  [conn] is left to
    the labels: what [read] returns and what [sender] writes are
    observations. *)
Record proxyServer : Type := {
  main : pc;
  out : list Fcall;
  hand : option Fcall;
  fids : gmap N bool;
  clunkDelay : Z;
  clunkSeen : chan;
  clunkers : list clunker;
  sender : bool;
  now : Z }.

(** [make(chan *plan9.Fcall, 64)] *)
Definition out_cap : nat := 64.

Definition set_main (x : pc) (s : proxyServer) : proxyServer :=
  {| main := x; out := out s; hand := hand s; fids := fids s;
     clunkDelay := clunkDelay s; clunkSeen := clunkSeen s;
     clunkers := clunkers s; sender := sender s; now := now s |}.

Definition set_out (x : list Fcall) (s : proxyServer) : proxyServer :=
  {| main := main s; out := x; hand := hand s; fids := fids s;
     clunkDelay := clunkDelay s; clunkSeen := clunkSeen s;
     clunkers := clunkers s; sender := sender s; now := now s |}.

Definition set_hand (x : option Fcall) (s : proxyServer) : proxyServer :=
  {| main := main s; out := out s; hand := x; fids := fids s;
     clunkDelay := clunkDelay s; clunkSeen := clunkSeen s;
     clunkers := clunkers s; sender := sender s; now := now s |}.

Definition set_fids (x : gmap N bool) (s : proxyServer) : proxyServer :=
  {| main := main s; out := out s; hand := hand s; fids := x;
     clunkDelay := clunkDelay s; clunkSeen := clunkSeen s;
     clunkers := clunkers s; sender := sender s; now := now s |}.

Definition set_clunkSeen (x : chan) (s : proxyServer) : proxyServer :=
  {| main := main s; out := out s; hand := hand s; fids := fids s;
     clunkDelay := clunkDelay s; clunkSeen := x; clunkers := clunkers s;
     sender := sender s; now := now s |}.

Definition set_clunkers (x : list clunker) (s : proxyServer) : proxyServer :=
  {| main := main s; out := out s; hand := hand s; fids := fids s;
     clunkDelay := clunkDelay s; clunkSeen := clunkSeen s; clunkers := x;
     sender := sender s; now := now s |}.

Definition set_sender (x : bool) (s : proxyServer) : proxyServer :=
  {| main := main s; out := out s; hand := hand s; fids := fids s;
     clunkDelay := clunkDelay s; clunkSeen := clunkSeen s;
     clunkers := clunkers s; sender := x; now := now s |}.

Definition set_now (x : Z) (s : proxyServer) : proxyServer :=
  {| main := main s; out := out s; hand := hand s; fids := fids s;
     clunkDelay := clunkDelay s; clunkSeen := clunkSeen s;
     clunkers := clunkers s; sender := sender s; now := x |}.

(** [s.fids[k]]: a Go map read yields the zero value for an absent key. *)
Definition live (m : gmap N bool) (k : N) : bool := default false (m !! k).

(** The responses [serve] builds. *)
Definition rversion (f : Fcall) : Fcall :=
  set_Version "9P2000" (set_Msize (Msize f) (new Rversion NOTAG)).

Definition rattach (f : Fcall) : Fcall :=
  set_Qid {| Path := 0; Vers := 0; QTyp := QTDIR |} (new Rattach (Tag f)).

Definition rerror (f : Fcall) (msg : string) : Fcall :=
  set_Ename msg (new Rerror (Tag f)).

Definition ropen (f : Fcall) : Fcall :=
  set_Qid {| Path := 1; Vers := 0; QTyp := QTFILE |} (new Ropen (Tag f)).

Definition rclunk (tag : N) : Fcall := new Rclunk tag.

(** [wqid := make([]plan9.Qid, len(f.Wname))] followed by the loop that
    assigns every index. *)
Definition make_wqid (f : Fcall) : list Qid :=
  let n := length (Wname f) in
  foldl (fun w i => <[i := {| Path := 1; Vers := 0; QTyp := QTFILE |}]> w)
        (replicate n Qid0) (seq 0 n).

Definition rwalk (f : Fcall) : Fcall :=
  set_Wqid (make_wqid f) (new Rwalk (Tag f)).

(** The [Twalk] case: the locked section decides [dup] and enters the new
    fid; the reply follows from [dup]. *)
Definition walk_dup (m : gmap N bool) (f : Fcall) : bool :=
  live m (Newfid f) && negb (Newfid f =? Fid f)%N.

Definition serve_walk (m : gmap N bool) (f : Fcall) : gmap N bool * Fcall :=
  let dup := walk_dup m f in
  let m' := if dup then m else <[Newfid f := true]> m in
  (m', if dup then rerror f "duplicate fid" else rwalk f).

(** [serve] from the return of a call of [s.read()], made in phase [ph],
    up to its next [s.send] or [s.read()]. *)
Definition serve (ph : phase) (r : option Fcall) (s : proxyServer)
  : proxyServer :=
  match r with
  | None => set_main Returned s
  | Some f =>
    match ph with
    | InVersion => set_main (AtSend (rversion f) InAttach) s
    | InAttach =>
        set_main (AtSend (rattach f) InLoop)
                 (set_fids (<[Fid f := true]> (fids s)) s)
    | InLoop =>
      match Typ f with
      | Twalk =>
          let '(m', r) := serve_walk (fids s) f in
          set_main (AtSend r InLoop) (set_fids m' s)
      | Topen => set_main (AtSend (ropen f) InLoop) s
      | Tclunk =>
          match clunkSeen s with
          | ChanNil => set_main Panicked s
          | _ =>
              set_main (AtRead InLoop)
                (set_clunkers
                   (clunkers s ++
                      [Sleeping (Tag f) (Fid f) (now s + clunkDelay s)%Z])
                   (set_clunkSeen ChanClosed s))
          end
      | _ => set_main (AtSend (rerror f "not supported") InLoop) s
      end
    end
  end.

(** What can happen next.  The labels are the observations of a run. *)
Inductive label : Type :=
  | Read (r : option Fcall)
  | Send (r : Fcall)
  | SetClunkSeen
  | Wake (i : nat)
  | Reply (i : nat) (r : Fcall)
  | Write (r : Fcall) (ok : bool)
  | Tick (d : N)
  | Take (r : Fcall).

#[global] Instance label_eq_dec : EqDecision label.
Proof. solve_decision. Defined.

(** [s.out <- r]: possible while the buffer of the channel has room. *)
Definition send (r : Fcall) (s : proxyServer) : option proxyServer :=
  if decide (length (out s) < out_cap)
  then Some (set_out (out s ++ [r]) s) else None.

(** One step of a goroutine of the proxy, or of what is around it.  In
    [sender], [Take] is the receive of [for f := range s.out] and [Write]
    the return of [plan9.WriteFcall], with [ok] telling whether [err] is
    nil; when it is not, [sender] returns and the frame is lost. *)
Definition step (l : label) (s : proxyServer) : option proxyServer :=
  match main s with
  | Panicked => None
  | _ =>
    match l with
    | Read r =>
        match main s with
        | AtRead ph => Some (serve ph r s)
        | _ => None
        end
    | Send r =>
        match main s with
        | AtSend r' ph =>
            if decide (r = r')
            then set_main (AtRead ph) <$> send r s
            else None
        | _ => None
        end
    | SetClunkSeen => Some (set_clunkSeen ChanOpen s)
    | Wake i =>
        match clunkers s !! i with
        | Some (Sleeping tag fid until) =>
            if decide (until ≤ now s)%Z
            then Some (set_clunkers (<[i := Woken tag]> (clunkers s))
                         (set_fids (delete fid (fids s)) s))
            else None
        | _ => None
        end
    | Reply i r =>
        match clunkers s !! i with
        | Some (Woken tag) =>
            if decide (r = rclunk tag)
            then set_clunkers (<[i := Exited]> (clunkers s))
                   <$> send r s
            else None
        | _ => None
        end
    | Take r =>
        match out s, hand s with
        | r' :: rest, None =>
            if bool_decide (r = r') && sender s
            then Some (set_hand (Some r) (set_out rest s))
            else None
        | _, _ => None
        end
    | Write r ok =>
        match hand s with
        | Some r' =>
            if bool_decide (r = r') && sender s
            then Some (set_sender ok (set_hand None s))
            else None
        | None => None
        end
    | Tick d => Some (set_now (now s + Z.of_N d)%Z s)
    end
  end.

Fixpoint run (ls : list label) (s : proxyServer) : option proxyServer :=
  match ls with
  | [] => Some s
  | l :: ls' =>
      match step l s with
      | Some s' => run ls' s'
      | None => None
      end
  end.

(** The server of [TestFidRecycle] at [go srv.serve()]. *)
Definition init (delay : Z) : proxyServer :=
  {| main := AtRead InVersion; out := []; hand := None; fids := ∅;
     clunkDelay := delay; clunkSeen := ChanNil; clunkers := [];
     sender := true; now := 0 |}.

(** The same server once the client has attached with root fid 0 and the
    test has made the first [clunkSeen]. *)
Definition attached (delay : Z) : proxyServer :=
  {| main := AtRead InLoop; out := []; hand := None;
     fids := {[ 0%N := true ]};
     clunkDelay := delay; clunkSeen := ChanOpen; clunkers := [];
     sender := true; now := 0 |}.

(** What a run shows from outside: the requests read, the responses handed
    to [s.send], and the frames [sender] wrote to the connection. *)
Definition reads (ls : list label) : list Fcall :=
  omap (fun l => match l with Read (Some f) => Some f | _ => None end) ls.

Definition sends (ls : list label) : list Fcall :=
  omap (fun l => match l with
                 | Send r | Reply _ r => Some r
                 | _ => None
                 end) ls.

Definition writes (ls : list label) : list Fcall :=
  omap (fun l => match l with Write r true => Some r | _ => None end) ls.

(** The tags of the requests read whose response is still to be sent. *)
Definition clunker_tag (c : clunker) : option N :=
  match c with
  | Sleeping tag _ _ | Woken tag => Some tag
  | Exited => None
  end.

Definition owed (s : proxyServer) : list N :=
  match main s with
  | AtSend r InLoop => [Tag r]
  | _ => []
  end ++ omap clunker_tag (clunkers s).

(** The types of the responses to tagged requests. *)
Definition reply_types : list msgtype :=
  [Rattach; Rwalk; Ropen; Rclunk; Rerror].

(** How goroutine [i] of [clunkers] moves on an event: only its own
    [Wake] and [Reply] change it. *)
Definition advance (i : nat) (c : clunker) (l : label) : clunker :=
  match l, c with
  | Wake j, Sleeping tag _ _ => if decide (j = i) then Woken tag else c
  | Reply j _, Woken _ => if decide (j = i) then Exited else c
  | _, _ => c
  end.

(** The start of a connection: the client's [Tversion] is read and its
    answer sent and written. *)
Definition hello : list label :=
  let f := tversion 8192 in
  [Read (Some f); Send (rversion f); Take (rversion f);
   Write (rversion f) true].

(** A millisecond in the unit of [time.Duration]. *)
Definition ms : Z := 1000000.

(** A run in which fid 1 is walked to and then clunked twice, the second
    time 3ms after the first; 2ms later the goroutine of the first clunk
    wakes up. *)
Definition answered (f r : Fcall) : list label :=
  [Read (Some f); Send r; Take r; Write r true].

Definition clunk_twice_before : list label :=
  [SetClunkSeen] ++ hello
    ++ answered (tattach 0 0 "nobody" "") (rattach (tattach 0 0 "nobody" ""))
    ++ answered (twalk 1 0 1 ["file"]) (rwalk (twalk 1 0 1 ["file"]))
    ++ [Read (Some (tclunk 1 1)); Tick 3000000].

Definition clunk_twice_after : list label := [Tick 2000000; Wake 0].

Definition clunked_3ms_ago : proxyServer :=
  default (init 0) (run clunk_twice_before (init (5 * ms))).

(** The attached server with fid 1 walked to, the same after it read a
    [Tclunk] of fid 1, and 4ms later after it read a second one. *)
Definition walked : proxyServer :=
  set_fids {[ 0%N := true; 1%N := true ]} (attached (5 * ms)).

Definition clunked : proxyServer :=
  serve InLoop (Some (tclunk 1 1)) walked.

Definition clunked_again : proxyServer :=
  serve InLoop (Some (tclunk 2 1)) (set_now 4000000 clunked).

(** While the delay of a clunk of [F] runs, no goroutine can delete [F]. *)
Record waiting (F : N) (due : Z) (s : proxyServer) : Prop := {
  w_sleepers :
    ∀ tag until, Sleeping tag F until ∈ clunkers s → (due ≤ until)%Z;
  w_next : (due ≤ now s + clunkDelay s)%Z;
  w_live : (now s < due)%Z → live (fids s) F = true }.

(** [serve] is past the version handshake: the version reply has been
    handed to [s.send]. *)
Definition past_handshake (m : pc) : Prop :=
  match m with
  | AtRead InVersion | AtSend _ InVersion | AtSend _ InAttach => False
  | _ => True
  end.

(** The handshake in a run [ls] that ends in [s]: nothing is sent before
    the first request is read, and the first message sent answers it. *)
Definition hs_inv (ls : list label) (s : proxyServer) : Prop :=
  match reads ls with
  | [] =>
      sends ls = [] ∧ clunkers s = []
      ∧ (main s = AtRead InVersion ∨ main s = Returned)
  | f :: fs =>
      (sends ls = [] ∧ clunkers s = [] ∧ fs = []
       ∧ main s = AtSend (rversion f) InAttach)
      ∨ (head (sends ls) = Some (rversion f) ∧ past_handshake (main s))
  end.

(** The responses handed to [s.send] and not written yet: the frame in
    the hand of [sender] and the content of the channel, oldest first. *)
Definition unwritten (s : proxyServer) : list Fcall :=
  option_list (hand s) ++ out s.

(** What a run [ls] that ends in [s] maintains. *)
Record trace_inv (ls : list label) (s : proxyServer) : Prop := {
  ti_prefix : writes ls `prefix_of` sends ls;
  ti_out : sender s = true → sends ls = writes ls ++ unwritten s;
  ti_hs : hs_inv ls s;
  ti_tags : map Tag (tail (sends ls)) ++ owed s ⊆+ map Tag (tail (reads ls));
  ti_types : Forall (fun r => Typ r ∈ reply_types) (tail (sends ls));
  ti_main : ∀ r, main s = AtSend r InLoop → Typ r ∈ reply_types }.

(** The fids the requests read can have entered in the table: the [Fid] of
    the second request, whatever its type, and the [Newfid] of every later
    [Twalk]. *)
Definition entered (rs : list Fcall) : list N :=
  match rs with
  | _ :: a :: rest =>
      Fid a :: map Newfid (filter (fun f => Typ f = Twalk) rest)
  | _ => []
  end.

(** [serve] is in its loop, or was when it stopped: two requests were read
    and the second response handed to [s.send] answers the second. *)
Definition looping (ls : list label) : Prop :=
  ∃ f1 f2 rest,
    reads ls = f1 :: f2 :: rest ∧ sends ls !! 1 = Some (rattach f2).

(** How far [serve] is, against what a run [ls] that ends in [s] shows. *)
Definition boot_inv (ls : list label) (s : proxyServer) : Prop :=
  (∀ k b, fids s !! k = Some b → b = true ∧ k ∈ entered (reads ls))
  ∧ match main s with
    | AtRead InVersion => reads ls = [] ∧ sends ls = [] ∧ clunkers s = []
    | AtSend _ InAttach =>
        ∃ f, reads ls = [f] ∧ sends ls = [] ∧ clunkers s = []
    | AtRead InAttach =>
        ∃ f, reads ls = [f] ∧ length (sends ls) = 1 ∧ clunkers s = []
    | AtSend r InLoop =>
        (∃ f1 f2, reads ls = [f1; f2] ∧ length (sends ls) = 1
                  ∧ r = rattach f2 ∧ clunkers s = [])
        ∨ looping ls
    | AtRead InLoop | Panicked => looping ls
    | Returned =>
        (length (reads ls) ≤ 1 ∧ length (sends ls) ≤ 1 ∧ clunkers s = [])
        ∨ looping ls
    | AtSend _ InVersion => False
    end.

(** The responses [serve] and its goroutines can give to a request [f]:
    the two of the start of the connection, which do not look at the type
    of the request, and those of the [switch] of the loop. *)
Definition replies (f : Fcall) : list Fcall :=
  [rversion f; rattach f]
  ++ match Typ f with
     | Twalk => [rwalk f; rerror f "duplicate fid"]
     | Topen => [ropen f]
     | Tclunk => [rclunk (Tag f)]
     | _ => [rerror f "not supported"]
     end.

(** [r] answers a request read in the run [ls]. *)
Definition answered_in (ls : list label) (r : Fcall) : Prop :=
  ∃ f, f ∈ reads ls ∧ r ∈ replies f.

(** What a run [ls] that ends in [s] maintains about the responses: those
    sent, the one [serve] is about to send, and the [Rclunk] each goroutine
    is still to send. *)
Record shape_inv (ls : list label) (s : proxyServer) : Prop := {
  sh_sent : Forall (answered_in ls) (sends ls);
  sh_main : ∀ r ph, main s = AtSend r ph → answered_in ls r;
  sh_clunkers :
    ∀ c tag, c ∈ clunkers s → clunker_tag c = Some tag →
      ∃ f, f ∈ reads ls ∧ Typ f = Tclunk ∧ Tag f = tag }.

(** A [Twalk] from fid 0 to newfid 1 along two names, for a client that
    sends it before it has attached. *)
Definition early_walk : Fcall := twalk 1 0 1 ["usr"; "glenda"].

(** A connection on which the second request is a [Topen] of fid 7. *)
Definition open_first : list label :=
  hello ++ answered (topen 3 7 0) (rattach (topen 3 7 0)).

(** The start of a connection up to the moment [sender] has received the
    answer to [Tversion] from the channel and is writing it, and the
    server at that moment. *)
Definition greeting : list label :=
  [Read (Some (tversion 8192)); Send (rversion (tversion 8192));
   Take (rversion (tversion 8192))].

Definition greeted : proxyServer :=
  default (init 0) (run greeting (init (5 * ms))).

(** A client that opens fid 7 again and again and reads no answer: the
    first [Ropen] is received by [sender], which blocks in its write, and
    [n] more are handed to [s.send]. *)
Definition backlog (n : nat) : list label :=
  open_first
    ++ [Read (Some (topen 1 7 0)); Send (ropen (topen 1 7 0));
        Take (ropen (topen 1 7 0))]
    ++ concat (replicate n [Read (Some (topen 1 7 0));
                            Send (ropen (topen 1 7 0))]).

End proxy.


(** ** The client side of the connection

    Modelled from the spec: package [client] ([NewConn], [Attach], [Open],
    [Close] and the fid and tag tables behind them) is outside the files at
    hand; what follows renders sections 3, 4.2, 4.3 and 4.4. *)

Module client.

(** Modelled from the spec: the liveness states of a fid (section 3). *)
Inductive liveness : Set := allocated | active | retiring | free.

#[global] Instance liveness_eq_dec : EqDecision liveness.
Proof. solve_decision. Defined.

(** Modelled from the spec: the Fid Lifecycle Manager (section 4.3).  The
    free list is populated by [confirmRetire] and, for a fid the server
    never had, by [release]; numbers from [nextfid] on were never used. *)
Record fidmgr : Type := {
  fidstate : gmap N liveness;
  nextfid : N;
  freefid : list N }.

Definition mark (n : N) (l : liveness) (m : fidmgr) : fidmgr :=
  {| fidstate := <[n := l]> (fidstate m); nextfid := nextfid m;
     freefid := freefid m |}.

(** Modelled from the spec: [allocate] reuses a freed number when there is
    one, otherwise takes the next unused number; the number that means no
    fid is never handed out. *)
Definition allocate (m : fidmgr) : option (N * fidmgr) :=
  match freefid m with
  | n :: rest =>
      Some (n, {| fidstate := <[n := allocated]> (fidstate m);
                  nextfid := nextfid m; freefid := rest |})
  | [] =>
      if decide (nextfid m < NOFID)%N
      then Some (nextfid m,
                 {| fidstate := <[nextfid m := allocated]> (fidstate m);
                    nextfid := (nextfid m + 1)%N; freefid := [] |})
      else None
  end.

Definition is_in (l : liveness) (n : N) (m : fidmgr) : bool :=
  bool_decide (fidstate m !! n = Some l).

(** Modelled from the spec: [markActive], [beginRetire], [confirmRetire]
    and the release of a fid whose establishment the server refused.  Each
    is defined on the state the spec names as its source. *)
Definition markActive (n : N) (m : fidmgr) : option fidmgr :=
  if is_in allocated n m then Some (mark n active m) else None.

Definition beginRetire (n : N) (m : fidmgr) : option fidmgr :=
  if is_in active n m then Some (mark n retiring m) else None.

Definition put_free (n : N) (m : fidmgr) : fidmgr :=
  {| fidstate := <[n := free]> (fidstate m); nextfid := nextfid m;
     freefid := n :: freefid m |}.

Definition confirmRetire (n : N) (m : fidmgr) : option fidmgr :=
  if is_in retiring n m then Some (put_free n m) else None.

Definition release (n : N) (m : fidmgr) : option fidmgr :=
  if is_in allocated n m then Some (put_free n m) else None.

Definition abortOnDisconnect (m : fidmgr) : fidmgr :=
  {| fidstate := (fun _ => free) <$> fidstate m; nextfid := nextfid m;
     freefid := (map_to_list (fidstate m)).*1 |}.

(** Modelled from the spec: the pending slot of a tag (section 3), with what
    its caller asked for. *)
Inductive slot : Set :=
  | PAttach (fid : N)
  | PWalk (newfid : N) (names : nat)
  | POpen (fid : N)
  | PClunk (fid : N).

#[global] Instance slot_eq_dec : EqDecision slot.
Proof. solve_decision. Defined.

Inductive handshake : Set := HsStart | HsSent | HsDone.

#[global] Instance handshake_eq_dec : EqDecision handshake.
Proof. solve_decision. Defined.

(** Modelled from the spec: a connection.  [outbox] holds the stamped
    requests whose callers wait for the write lock. *)
Record Conn : Type := {
  mgr : fidmgr;
  pending : gmap N slot;
  outbox : list Fcall;
  hs : handshake;
  closed : bool }.

Definition init : Conn :=
  {| mgr := {| fidstate := ∅; nextfid := 0; freefid := [] |};
     pending := ∅; outbox := []; hs := HsStart; closed := false |}.

(** Modelled from the spec: a request enters the connection (section
    4.2): its slot is registered under its tag and the stamped message
    waits to be written. *)
Definition issue (m : fidmgr) (tag : N) (sl : slot) (f : Fcall) (k : Conn)
  : Conn :=
  {| mgr := m; pending := <[tag := sl]> (pending k);
     outbox := outbox k ++ [f]; hs := hs k; closed := closed k |}.

(** Modelled from the spec: a tag is fresh when no outstanding request
    holds it (section 3); the reserved tag is never allocated. *)
Definition fresh (tag : N) (k : Conn) : bool :=
  bool_decide (pending k !! tag = None) && bool_decide (tag < NOTAG)%N.

(** Modelled from the spec: what a caller does through the Session API
    (section 4.4), with the fid number it was handed where the call
    allocates one.  [NewConn] is the version handshake. *)
Inductive call : Type :=
  | NewConn (msize : N)
  | Attach (tag : N) (uname aname : string) (fid : N)
  | Walk (tag src : N) (names : list string) (newfid : N)
  | Open (tag fid mode : N)
  | Close (tag fid : N).

(** Modelled from the spec: the calls of the Session API (section 4.4).
    A call fails locally on a closed connection, on a tag in use, on a
    handle that is not active, and before the handshake is over. *)
Definition do_call (c : call) (k : Conn) : option Conn :=
  if closed k then None else
  match c with
  | NewConn msize =>
      match hs k with
      | HsStart =>
          Some {| mgr := mgr k; pending := pending k;
                  outbox := outbox k ++ [tversion msize]; hs := HsSent;
                  closed := false |}
      | _ => None
      end
  | Attach tag uname aname fid =>
      match hs k, allocate (mgr k) with
      | HsDone, Some (n, m) =>
          if fresh tag k && bool_decide (n = fid)
          then Some (issue m tag (PAttach n) (tattach tag n uname aname) k)
          else None
      | _, _ => None
      end
  | Walk tag src names newfid =>
      match allocate (mgr k) with
      | Some (n, m) =>
          if fresh tag k && is_in active src (mgr k)
             && bool_decide (n = newfid)
          then Some (issue m tag (PWalk n (length names))
                       (twalk tag src n names) k)
          else None
      | None => None
      end
  | Open tag fid mode =>
      if fresh tag k && is_in active fid (mgr k)
      then Some (issue (mgr k) tag (POpen fid) (topen tag fid mode) k)
      else None
  | Close tag fid =>
      match beginRetire fid (mgr k) with
      | Some m =>
          if fresh tag k
          then Some (issue m tag (PClunk fid) (tclunk tag fid) k)
          else None
      | None => None
      end
  end.

(** Modelled from the spec: teardown fails every pending slot and frees
    every fid; nothing is sent afterwards. *)
Definition teardown (k : Conn) : Conn :=
  {| mgr := abortOnDisconnect (mgr k); pending := ∅; outbox := [];
     hs := hs k; closed := true |}.

Definition settle (tag : N) (m : option fidmgr) (k : Conn) : Conn :=
  match m with
  | Some m' =>
      {| mgr := m'; pending := delete tag (pending k); outbox := outbox k;
         hs := hs k; closed := closed k |}
  | None => teardown k
  end.

(** Modelled from the spec: the read loop hands a response to the slot of
    its tag and frees the tag.  An error response releases a fid that was
    being established; a clunk acknowledgment, and nothing else, confirms a
    retirement.  A response with no slot, of the wrong kind, or with a qid
    count that disagrees with the walk tears the connection down. *)
Definition deliver (r : Fcall) (k : Conn) : Conn :=
  match hs k with
  | HsStart => teardown k
  | HsSent =>
      if bool_decide (Typ r = Rversion)
      then {| mgr := mgr k; pending := pending k; outbox := outbox k;
              hs := HsDone; closed := closed k |}
      else teardown k
  | HsDone =>
      match pending k !! Tag r with
      | None => teardown k
      | Some sl =>
          match Typ r, sl with
          | Rerror, PAttach n => settle (Tag r) (release n (mgr k)) k
          | Rerror, PWalk n _ => settle (Tag r) (release n (mgr k)) k
          | Rerror, _ => settle (Tag r) (Some (mgr k)) k
          | Rattach, PAttach n => settle (Tag r) (markActive n (mgr k)) k
          | Rwalk, PWalk n cnt =>
              if bool_decide (length (Wqid r) = cnt)
              then settle (Tag r) (markActive n (mgr k)) k
              else teardown k
          | Ropen, POpen _ => settle (Tag r) (Some (mgr k)) k
          | Rclunk, PClunk n => settle (Tag r) (confirmRetire n (mgr k)) k
          | _, _ => teardown k
          end
      end
  end.

End client.

(** ** The client and the proxy on the two ends of [net.Pipe] *)

Module system.

Import proxy client.

Record state : Type := { cl : Conn; px : proxyServer }.

(** A pipe has no buffer: a write on one end and the read that takes it on
    the other end are one event. *)
Inductive label : Type :=
  | Call (c : call)
  | Xmit (i : nat)
  | Srv (l : proxy.label)
  | Recv (r : Fcall)
  | Hangup
  | ReadErr
  | WriteErr (r : Fcall).

Definition internal (l : proxy.label) : bool :=
  match l with
  | Read _ | Write _ _ => false
  | _ => true
  end.

Definition set_outbox (x : list Fcall) (k : Conn) : Conn :=
  {| mgr := mgr k; pending := pending k; outbox := x; hs := hs k;
     closed := closed k |}.

Definition step (l : label) (s : state) : option state :=
  match l with
  | Call c => (fun k => {| cl := k; px := px s |}) <$> do_call c (cl s)
  | Xmit i =>
      if closed (cl s) then None else
      match outbox (cl s) !! i with
      | Some f =>
          (fun p => {| cl := set_outbox (delete i (outbox (cl s))) (cl s);
                       px := p |})
            <$> proxy.step (Read (Some f)) (px s)
      | None => None
      end
  | Srv l' =>
      if internal l'
      then (fun p => {| cl := cl s; px := p |}) <$> proxy.step l' (px s)
      else None
  | Recv r =>
      if closed (cl s) then None else
      (fun p => {| cl := deliver r (cl s); px := p |})
        <$> proxy.step (Write r true) (px s)
  | Hangup =>
      if closed (cl s) then None
      else Some {| cl := teardown (cl s); px := px s |}
  | ReadErr =>
      if closed (cl s)
      then (fun p => {| cl := cl s; px := p |})
             <$> proxy.step (Read None) (px s)
      else None
  | WriteErr r =>
      if closed (cl s)
      then (fun p => {| cl := cl s; px := p |})
             <$> proxy.step (Write r false) (px s)
      else None
  end.

Fixpoint run (ls : list label) (s : state) : option state :=
  match ls with
  | [] => Some s
  | l :: ls' =>
      match step l s with
      | Some s' => run ls' s'
      | None => None
      end
  end.

Definition init (delay : Z) : state :=
  {| cl := client.init; px := proxy.init delay |}.

(** The observations the claims speak of: a call that is handed fid [n], a
    clunk acknowledgment for tag [t] reaching the client, a response that
    rejects a walk as a duplicate. *)
Definition allocates (n : N) (l : label) : Prop :=
  match l with
  | Call (Attach _ _ _ fid) => fid = n
  | Call (Walk _ _ _ newfid) => newfid = n
  | _ => False
  end.

Definition acks (t : N) (l : label) : Prop :=
  match l with
  | Recv r => Typ r = Rclunk ∧ Tag r = t
  | _ => False
  end.

#[global] Instance acks_dec (t : N) (l : label) : Decision (acks t l).
Proof.
  destruct l; try (right; by intros []). cbn.
  destruct (decide (Typ r = Rclunk)), (decide (Tag r = t)); try (by left);
    right; tauto.
Defined.

Definition is_dup (r : Fcall) : bool :=
  bool_decide (Typ r = Rerror) && bool_decide (Ename r = "duplicate fid").

(** What a step hands over is no message that rejects a walk as a
    duplicate. *)
Definition clean (l : label) : Prop :=
  match l with
  | Recv r | Srv (Send r) | Srv (Reply _ r) | WriteErr r => is_dup r = false
  | _ => True
  end.

(** [dupFids] of the test: the rejections of that kind the client got. *)
Definition dupFids (ls : list label) : nat :=
  sum_list (map (fun l => match l with
                          | Recv r => if is_dup r then 1 else 0
                          | _ => 0
                          end) ls).

(** *** What the two ends maintain *)

(** A fid number the client holds: it is in one of the live states. *)
Definition held (m : fidmgr) (n : N) : Prop :=
  fidstate m !! n = Some allocated ∨ fidstate m !! n = Some active
  ∨ fidstate m !! n = Some retiring.

(** The free list holds free numbers, each once, and the numbers from
    [nextfid] on are unused. *)
Record mgr_wf (m : fidmgr) : Prop := {
  wf_free : ∀ n, n ∈ freefid m → fidstate m !! n = Some free;
  wf_nodup : NoDup (freefid m);
  wf_next : ∀ n, (nextfid m ≤ n)%N → fidstate m !! n = None }.

(** The fid a slot establishes or retires, and the state that fid is in
    while the slot is pending. *)
Definition slot_fid (sl : slot) : option N :=
  match sl with
  | PAttach n | PWalk n _ | PClunk n => Some n
  | POpen _ => None
  end.

Definition slot_ok (m : fidmgr) (sl : slot) : Prop :=
  match sl with
  | PAttach n | PWalk n _ => fidstate m !! n = Some allocated
  | PClunk n => fidstate m !! n = Some retiring
  | POpen _ => True
  end.

Record conn_wf (k : Conn) : Prop := {
  cw_mgr : mgr_wf (mgr k);
  cw_slots : ∀ t sl, pending k !! t = Some sl →
                     slot_ok (mgr k) sl ∧ (t < NOTAG)%N;
  cw_inj : ∀ t1 t2 sl1 sl2 n,
      pending k !! t1 = Some sl1 → pending k !! t2 = Some sl2 →
      slot_fid sl1 = Some n → slot_fid sl2 = Some n → t1 = t2 }.

(** The slot of tag [t] establishes fid [n]. *)
Definition establishes (pd : gmap N slot) (t n : N) : Prop :=
  pd !! t = Some (PAttach n) ∨ ∃ c, pd !! t = Some (PWalk n c).

(** A request that waits to be written: its slot is registered, and a fid
    it is to establish is not in the proxy's table. *)
Definition req_ok (k : Conn) (p : proxyServer) (f : Fcall) : Prop :=
  match Typ f with
  | Tversion => hs k = HsSent ∧ main p = AtRead InVersion
  | Tattach =>
      pending k !! Tag f = Some (PAttach (Fid f))
      ∧ live (fids p) (Fid f) = false
  | Twalk =>
      pending k !! Tag f = Some (PWalk (Newfid f) (length (Wname f)))
      ∧ live (fids p) (Newfid f) = false
  | Topen => ∃ n, pending k !! Tag f = Some (POpen n)
  | Tclunk => pending k !! Tag f = Some (PClunk (Fid f))
  | _ => False
  end.

(** A response on its way to the client: an error leaves the fid that was
    to be established out of the proxy's table, and a clunk
    acknowledgment comes after the fid was deleted from it. *)
Definition resp_ok (pd : gmap N slot) (fd : gmap N bool) (r : Fcall)
  : Prop :=
  match Typ r with
  | Rerror => ∀ n, establishes pd (Tag r) n → live fd n = false
  | Rclunk => ∀ n, pd !! Tag r = Some (PClunk n) → live fd n = false
  | _ => True
  end.

Definition clunker_ok (pd : gmap N slot) (fd : gmap N bool) (c : clunker)
  : Prop :=
  match c with
  | Sleeping t n _ => pd !! t = Some (PClunk n)
  | Woken t => ∀ n, pd !! t = Some (PClunk n) → live fd n = false
  | Exited => True
  end.

(** The responses the proxy holds, oldest first: the frame [sender] is
    writing, the content of [out] and the one the main goroutine is about
    to send. *)
Definition sending (p : proxyServer) : list Fcall :=
  match main p with
  | AtSend r _ => [r]
  | _ => []
  end.

Definition responses (p : proxyServer) : list Fcall :=
  unwritten p ++ sending p.

(** The tags in flight between the two ends. *)
Definition inflight (s : state) : list N :=
  map Tag (outbox (cl s)) ++ map Tag (responses (px s))
    ++ omap clunker_tag (clunkers (px s)).

(** How far the two ends are into the handshake and the attach. *)
Definition phase_ok (s : state) : Prop :=
  match hs (cl s) with
  | HsStart =>
      cl s = client.init ∧ main (px s) = AtRead InVersion
      ∧ unwritten (px s) = [] ∧ clunkers (px s) = []
  | HsSent =>
      pending (cl s) = ∅ ∧ mgr (cl s) = mgr client.init
      ∧ clunkers (px s) = []
      ∧ (((∃ m, outbox (cl s) = [tversion m])
          ∧ main (px s) = AtRead InVersion ∧ unwritten (px s) = [])
         ∨ (outbox (cl s) = []
            ∧ (∃ r, main (px s) = AtSend r InAttach ∧ Typ r = Rversion)
            ∧ unwritten (px s) = [])
         ∨ (outbox (cl s) = [] ∧ main (px s) = AtRead InAttach
            ∧ ∃ r, unwritten (px s) = [r] ∧ Typ r = Rversion))
  | HsDone =>
      match main (px s) with
      | AtRead InVersion | AtSend _ InVersion | AtSend _ InAttach => False
      | AtRead InAttach =>
          unwritten (px s) = [] ∧ clunkers (px s) = []
          ∧ Forall (fun f => Typ f = Tattach) (outbox (cl s))
          ∧ ∀ n, fidstate (mgr (cl s)) !! n ≠ Some active
      | _ => True
      end
  end.

Record open_inv (s : state) : Prop := {
  oi_conn : conn_wf (cl s);
  oi_held : ∀ n, live (fids (px s)) n = true → held (mgr (cl s)) n;
  oi_tags : NoDup (inflight s);
  oi_pending : ∀ t, t ∈ inflight s →
                    t = NOTAG ∨ is_Some (pending (cl s) !! t);
  oi_reqs : Forall (req_ok (cl s) (px s)) (outbox (cl s));
  oi_resps :
    Forall (resp_ok (pending (cl s)) (fids (px s))) (responses (px s));
  oi_clunkers :
    Forall (clunker_ok (pending (cl s)) (fids (px s))) (clunkers (px s));
  oi_phase : phase_ok s }.

(** No response the proxy holds rejects a walk as a duplicate; while the
    connection is up, the two ends agree as above. *)
Record sys_inv (s : state) : Prop := {
  si_resps : Forall (fun r => is_dup r = false) (responses (px s));
  si_open : closed (cl s) = false → open_inv s }.

(** A retirement of fid [n] under tag [t] was begun in [ls] and is not
    acknowledged by the end of [ls]. *)
Definition unacked (ls : list label) (t n : N) : Prop :=
  ∃ pre post, ls = pre ++ Call (Close t n) :: post
              ∧ Forall (fun l => ¬ acks t l) post.

(** While a retirement of [n] under [t] is not acknowledged, [n] is
    retiring and [t] is the one tag that retires it. *)
Definition retiring_under (k : Conn) (t n : N) : Prop :=
  fidstate (mgr k) !! n = Some retiring
  ∧ ∀ t', pending k !! t' = Some (PClunk n) → t' = t.

Record client_inv (ls : list label) (s : state) : Prop := {
  ci_wf : conn_wf (cl s);
  ci_ret : ∀ t n, unacked ls t n → retiring_under (cl s) t n }.

(** [TestFidRecycle]: the server it starts, and the events of its run in
    the order the test forces them.  [fs.Open] is a walk to a new fid
    followed by an open of it. *)
Definition srv : state := init (5 * ms).

Definition rpc (r : Fcall) : list label :=
  [Xmit 0; Srv (Send r); Srv (Take r); Recv r].

Definition fsOpen (tag newfid mode : N) : list label :=
  [Call (Walk tag 0 ["file"] newfid)]
    ++ rpc (rwalk (twalk tag 0 newfid ["file"]))
    ++ [Call (Open tag newfid mode)]
    ++ rpc (ropen (topen tag newfid mode)).

Definition setup : list label :=
  [Call (NewConn 8192)] ++ rpc (rversion (tversion 8192))
    ++ [Call (Attach 0 "nobody" "" 0)]
    ++ rpc (rattach (tattach 0 0 "nobody" "")).

Definition backend (i : nat) (tag : N) : list label :=
  [Srv (Wake i); Srv (Reply i (rclunk tag)); Srv (Take (rclunk tag));
   Recv (rclunk tag)].

(** The fid the first open of round [i] is handed, and the fid the second
    open is handed while the first is being retired. *)
Definition fidF (i : nat) : N := if Nat.even i then 1%N else 2%N.
Definition fidG (i : nat) : N := if Nat.even i then 2%N else 1%N.

(** A round up to the moment the proxy has seen the [Tclunk]. *)
Definition round_head (i : nat) : list label :=
  [Srv SetClunkSeen]
    ++ fsOpen 1 (fidF i) 1
    ++ [Call (Close 1 (fidF i)); Xmit 0].

Definition round (i : nat) : list label :=
  round_head i
    ++ fsOpen 2 (fidG i) 0
    ++ [Call (Close 2 (fidG i)); Xmit 0]
    ++ [Srv (Tick 5000000)]
    ++ backend (2 * i) 1 ++ backend (2 * i + 1) 2.

Definition rounds : nat := 20.

Definition TestFidRecycle : list label :=
  setup ++ concat (map round (seq 0 rounds)).

(** The first round and the second up to its re-open, which is handed
    fid 1 again: what precedes the close of fid 1, and what lies between
    that close and the re-open. *)
Definition reuse_pre : list label :=
  setup ++ [Srv SetClunkSeen] ++ fsOpen 1 1 1.

Definition reuse_mid : list label :=
  [Xmit 0] ++ fsOpen 2 2 0 ++ [Call (Close 2 2); Xmit 0]
    ++ [Srv (Tick 5000000)] ++ backend 0 1 ++ backend 1 2 ++ round_head 1.

Definition reuse : list label :=
  reuse_pre ++ Call (Close 1 1) :: reuse_mid
    ++ Call (Walk 2 0 ["file"] 1) :: [].

(** The run up to the second open of round [i], and whether the proxy
    then still lists the fid of the first open as live. *)
Definition before_reopen (i : nat) : list label :=
  setup ++ concat (map round (seq 0 i)) ++ round_head i.

Definition still_live (i : nat) : bool :=
  match run (before_reopen i) srv with
  | Some s => live (fids (px s)) (fidF i)
  | None => false
  end.

End system.

(** ** The message codec

    Modelled from the spec: the codec ([plan9.ReadFcall], [WriteFcall] and
    the marshalling behind them) is outside the files at hand.  Sections
    4.1 and 6 fix what a frame carries (total length, discriminant, tag,
    then the fields of the message) and that integers have a fixed width;
    they leave the widths and the discriminant numbers open, so these are
    the [layout] every definition takes. *)

Module codec.

Abbreviation byte := Byte.byte.

(** Modelled from the spec: the closed variant of wire messages (section 6,
    section 9).  An object identifier is opaque to the core: the bytes the
    server issued. *)
Inductive kind : Set :=
  | KTversion | KRversion | KTattach | KRattach | KTwalk | KRwalk
  | KTopen | KRopen | KTclunk | KRclunk | KRerror.

Inductive body : Set :=
  | version (response : bool) (maxSize : N) (versionString : list byte)
  | attach (newFid authFid : N) (user path : list byte)
  | attached (objectId : list byte)
  | walk (fid newFid : N) (names : list (list byte))
  | walked (objectIds : list (list byte))
  | open (fid mode : N)
  | opened (objectId : list byte)
  | clunk (fid : N)
  | clunked
  | error (msg : list byte).

Record message : Set := { tag : N; payload : body }.

Definition kind_of (b : body) : kind :=
  match b with
  | version false _ _ => KTversion
  | version true _ _ => KRversion
  | attach _ _ _ _ => KTattach
  | attached _ => KRattach
  | walk _ _ _ => KTwalk
  | walked _ => KRwalk
  | open _ _ => KTopen
  | opened _ => KRopen
  | clunk _ => KTclunk
  | clunked => KRclunk
  | error _ => KRerror
  end.

Definition kinds : list kind :=
  [KTversion; KRversion; KTattach; KRattach; KTwalk; KRwalk; KTopen;
   KRopen; KTclunk; KRclunk; KRerror].

(** Modelled from the spec: the widths in bytes of the integers of a
    frame, the width of an object identifier, and the number that stands
    for each kind. *)
Record layout : Type := {
  w_size : nat;
  w_type : nat;
  w_tag : nat;
  w_fid : nat;
  w_msize : nat;
  w_mode : nat;
  w_count : nat;
  w_qid : nat;
  code : kind → N }.

(** The layout of 9P2000, the version the proxy announces. *)
Definition layout_9P2000 : layout :=
  {| w_size := 4; w_type := 1; w_tag := 2; w_fid := 4; w_msize := 4;
     w_mode := 1; w_count := 2; w_qid := 13;
     code := fun k =>
       match k with
       | KTversion => 100 | KRversion => 101 | KTattach => 104
       | KRattach => 105 | KRerror => 107 | KTwalk => 110 | KRwalk => 111
       | KTopen => 112 | KRopen => 113 | KTclunk => 120 | KRclunk => 121
       end%N |}.

Inductive result (A : Type) : Type :=
  | Ok (a : A)
  | MalformedMessage.
Arguments Ok {A} a.
Arguments MalformedMessage {A}.

(** Little-endian integers of [w] bytes. *)
Definition byte_of (n : N) : byte := default Byte.x00 (Byte.of_N n).

Fixpoint put_uint (w : nat) (n : N) : list byte :=
  match w with
  | O => []
  | S w' => byte_of (n mod 256) :: put_uint w' (n / 256)
  end.

Fixpoint uint_of (bs : list byte) : N :=
  match bs with
  | [] => 0
  | b :: bs' => Byte.to_N b + 256 * uint_of bs'
  end.

(** A decoder consumes a prefix of the bytes or fails. *)
Definition decoder (A : Type) : Type := list byte → option (A * list byte).

Definition ret {A} (a : A) : decoder A := fun bs => Some (a, bs).

Definition bind {A B} (d : decoder A) (f : A → decoder B) : decoder B :=
  fun bs =>
    match d bs with
    | Some (a, rest) => f a rest
    | None => None
    end.

Notation "'get' x ':=' d 'in' e" := (bind d (fun x => e))
  (at level 10, x name, d at level 100, e at level 200).

Definition get_bytes (n : nat) : decoder (list byte) :=
  fun bs => if decide (n ≤ length bs) then Some (take n bs, drop n bs)
            else None.

Definition get_uint (w : nat) : decoder N :=
  get bs := get_bytes w in ret (uint_of bs).

Definition get_string (L : layout) : decoder (list byte) :=
  get n := get_uint (w_count L) in get_bytes (N.to_nat n).

Fixpoint get_many {A} (d : decoder A) (n : nat) : decoder (list A) :=
  match n with
  | O => ret []
  | S n' => get a := d in get l := get_many d n' in ret (a :: l)
  end.

Definition get_list {A} (L : layout) (d : decoder A) : decoder (list A) :=
  get n := get_uint (w_count L) in get_many d (N.to_nat n).

Definition put_string (L : layout) (s : list byte) : list byte :=
  put_uint (w_count L) (N.of_nat (length s)) ++ s.

Definition put_list {A} (L : layout) (put : A → list byte) (l : list A)
  : list byte :=
  put_uint (w_count L) (N.of_nat (length l)) ++ concat (map put l).

Definition get_body (L : layout) (k : kind) : decoder body :=
  match k with
  | KTversion => get m := get_uint (w_msize L) in get v := get_string L in
                 ret (version false m v)
  | KRversion => get m := get_uint (w_msize L) in get v := get_string L in
                 ret (version true m v)
  | KTattach => get f := get_uint (w_fid L) in get a := get_uint (w_fid L) in
                get u := get_string L in get p := get_string L in
                ret (attach f a u p)
  | KRattach => get q := get_bytes (w_qid L) in ret (attached q)
  | KTwalk => get f := get_uint (w_fid L) in get n := get_uint (w_fid L) in
              get ws := get_list L (get_string L) in ret (walk f n ws)
  | KRwalk => get qs := get_list L (get_bytes (w_qid L)) in ret (walked qs)
  | KTopen => get f := get_uint (w_fid L) in get m := get_uint (w_mode L) in
              ret (open f m)
  | KRopen => get q := get_bytes (w_qid L) in ret (opened q)
  | KTclunk => get f := get_uint (w_fid L) in ret (clunk f)
  | KRclunk => ret clunked
  | KRerror => get e := get_string L in ret (error e)
  end.

Definition put_body (L : layout) (b : body) : list byte :=
  match b with
  | version _ m v => put_uint (w_msize L) m ++ put_string L v
  | attach f a u p =>
      put_uint (w_fid L) f ++ put_uint (w_fid L) a ++ put_string L u
        ++ put_string L p
  | attached q => q
  | walk f n ws =>
      put_uint (w_fid L) f ++ put_uint (w_fid L) n
        ++ put_list L (put_string L) ws
  | walked qs => put_list L (fun q => q) qs
  | open f m => put_uint (w_fid L) f ++ put_uint (w_mode L) m
  | opened q => q
  | clunk f => put_uint (w_fid L) f
  | clunked => []
  | error e => put_string L e
  end.

(** The kind a discriminant number stands for, if any. *)
Definition kind_of_code (L : layout) (n : N) : option kind :=
  List.find (fun k => (code L k =? n)%N) kinds.

Definition get_kind (L : layout) : decoder kind :=
  fun bs =>
    match get_uint (w_type L) bs with
    | Some (n, rest) =>
        match kind_of_code L n with
        | Some k => Some (k, rest)
        | None => None
        end
    | None => None
    end.

Definition get_frame (L : layout) : decoder message :=
  get k := get_kind L in get t := get_uint (w_tag L) in get b := get_body L k in
  ret {| tag := t; payload := b |}.

(** Modelled from the spec: [decode] rejects a truncated length, a declared
    length that is not the length of the record, an unknown discriminant,
    truncated fields and bytes left over. *)
Definition decode (L : layout) (bs : list byte) : result message :=
  match get_uint (w_size L) bs with
  | Some (size, rest) =>
      if decide (N.to_nat size = length bs)
      then match get_frame L rest with
           | Some (m, []) => Ok m
           | _ => MalformedMessage
           end
      else MalformedMessage
  | None => MalformedMessage
  end.

(** Modelled from the spec: [encode] writes the total length, the
    discriminant, the tag and the fields (section 4.1). *)
Definition encode (L : layout) (m : message) : list byte :=
  let rest :=
    put_uint (w_type L) (code L (kind_of (payload m)))
      ++ put_uint (w_tag L) (tag m) ++ put_body L (payload m) in
  put_uint (w_size L) (N.of_nat (w_size L + length rest)) ++ rest.

(** A decoder and an encoder agree when the bytes a successful decoding
    consumed are the encoding of what it returned. *)
Definition agrees {A} (d : decoder A) (put : A → list byte) : Prop :=
  ∀ bs a rest, d bs = Some (a, rest) → bs = put a ++ rest.

(** A [Tclunk] of fid 1 under tag 2, as 9P2000 frames it. *)
Definition tclunk_frame : list byte :=
  map byte_of [11; 0; 0; 0; 120; 2; 0; 1; 0; 0; 0]%N.

End codec.

(** ** Package acme: [Mount] *)

Module acme.

(** A Go [error] value, and a pointer: nil or an address. *)
Definition error : Type := string.
Definition ptr : Type := option nat.

(** [client.Fsys] as far as these files show it, and [acme.Fsys]. *)
Record client_Fsys : Type := { Mtpt : string }.
Record Fsys : Type := { fs : ptr }.

(** The package variables [defaultFsys], [defaultErr] and [defaultOnce]
    (declared outside the files at hand), the objects allocated so far,
    and the services dialled so far through [client.MountService]. *)
Record World : Type := {
  defaultFsys : ptr;
  defaultErr : option error;
  defaultOnce : bool;
  heap : list Fsys;
  cheap : list client_Fsys;
  dials : list string }.

(** [client.MountService] is outside the files at hand: the environment
    decides what the [i]-th dial returns. *)
Definition MountService : Type := nat → string → ptr * option error.

Definition dial (env : MountService) (name : string) (w : World)
  : (ptr * option error) * World :=
  (env (length (dials w)) name,
   {| defaultFsys := defaultFsys w; defaultErr := defaultErr w;
      defaultOnce := defaultOnce w; heap := heap w; cheap := cheap w;
      dials := dials w ++ [name] |}).

(** [&Fsys{fs: p}] *)
Definition alloc (p : ptr) (w : World) : ptr * World :=
  (Some (length (heap w)),
   {| defaultFsys := defaultFsys w; defaultErr := defaultErr w;
      defaultOnce := defaultOnce w; heap := heap w ++ [{| fs := p |}];
      cheap := cheap w; dials := dials w |}).

(** [&client.Fsys{Mtpt: m}] *)
Definition calloc (m : string) (w : World) : ptr * World :=
  (Some (length (cheap w)),
   {| defaultFsys := defaultFsys w; defaultErr := defaultErr w;
      defaultOnce := defaultOnce w; heap := heap w;
      cheap := cheap w ++ [{| Mtpt := m |}]; dials := dials w |}).

Definition set_defaultFsys (p : ptr) (w : World) : World :=
  {| defaultFsys := p; defaultErr := defaultErr w;
     defaultOnce := defaultOnce w; heap := heap w; cheap := cheap w;
     dials := dials w |}.

Definition set_defaultErr (e : option error) (w : World) : World :=
  {| defaultFsys := defaultFsys w; defaultErr := e;
     defaultOnce := defaultOnce w; heap := heap w; cheap := cheap w;
     dials := dials w |}.

Definition set_defaultOnce (b : bool) (w : World) : World :=
  {| defaultFsys := defaultFsys w; defaultErr := defaultErr w;
     defaultOnce := b; heap := heap w; cheap := cheap w;
     dials := dials w |}.

(** [acme_p9p.go], the build for systems other than Plan 9. *)
Module p9p.

Definition mountAcme (env : MountService) (w : World) : World :=
  let '((fs, err), w1) := dial env "acme" w in
  match err with
  | Some e => set_defaultErr (Some e) w1
  | None => let '(p, w2) := alloc fs w1 in set_defaultFsys p w2
  end.

Definition Mount (env : MountService) (w : World)
  : (ptr * option error) * World :=
  let '((fs, err), w1) := dial env "acme" w in
  match err with
  | Some e => ((None, Some e), w1)
  | None => let '(p, w2) := alloc fs w1 in ((p, None), w2)
  end.

(** [n] calls of [Mount], one after the other. *)
Fixpoint Mounts (n : nat) (env : MountService) (w : World)
  : list (ptr * option error) * World :=
  match n with
  | O => ([], w)
  | S n' =>
      let '(r, w1) := Mount env w in
      let '(rs, w2) := Mounts n' env w1 in
      (r :: rs, w2)
  end.

End p9p.

(** [acme_plan9.go] *)
Module plan9os.

Definition mountAcme (w : World) : World :=
  let '(c, w1) := calloc "/mnt/acme" w in
  let '(p, w2) := alloc c w1 in
  set_defaultFsys p w2.

(** [defaultOnce.Do(f)]: [f] runs unless a call of [Do] ran it before. *)
Definition once_Do (f : World → World) (w : World) : World :=
  if defaultOnce w then w else set_defaultOnce true (f w).

Definition Mount (w : World) : (ptr * option error) * World :=
  let w1 := once_Do mountAcme w in
  ((defaultFsys w1, None), w1).

(** [n] calls of [Mount], one after the other. *)
Fixpoint Mounts (n : nat) (w : World)
  : list (ptr * option error) * World :=
  match n with
  | O => ([], w)
  | S n' =>
      let '(r, w1) := Mount w in
      let '(rs, w2) := Mounts n' w1 in
      (r :: rs, w2)
  end.

(** The mount point of the [Fsys] a pointer leads to. *)
Definition mtpt (w : World) (p : ptr) : option string :=
  a ← p; o ← heap w !! a; c ← fs o; Mtpt <$> cheap w !! c.

(** What every user of [defaultOnce] keeps: once the initialisation ran,
    [defaultFsys] is an [Fsys] on "/mnt/acme". *)
Definition initialised (w : World) : Prop :=
  defaultOnce w = true →
  is_Some (defaultFsys w) ∧ mtpt w (defaultFsys w) = Some "/mnt/acme".

(** The package at program start. *)
Definition start : World :=
  {| defaultFsys := None; defaultErr := None; defaultOnce := false;
     heap := []; cheap := []; dials := [] |}.

End plan9os.

End acme.

(** * Properties *)

Import proxy.

(** ** The proxy, request by request *)

Lemma make_wqid_replicate (f : Fcall) :
  make_wqid f
  = replicate (length (Wname f)) {| Path := 1; Vers := 0; QTyp := QTFILE |}.
Proof.
  unfold make_wqid. generalize (length (Wname f)) as n.
  set (q := {| Path := 1; Vers := 0; QTyp := QTFILE |}).
  assert (H : ∀ k n (pre : list Qid), length pre = k →
    foldl (fun w i => <[i := q]> w) (pre ++ replicate n Qid0) (seq k n)
    = pre ++ replicate n q).
  { intros k n. revert k. induction n as [|n IH]; intros k pre Hk; [done|].
    cbn [seq foldl replicate].
    replace (<[k:=q]> (pre ++ Qid0 :: replicate n Qid0))
      with ((pre ++ [q]) ++ replicate n Qid0).
    - rewrite IH; [by rewrite <- app_assoc|].
      rewrite length_app; simpl; lia.
    - rewrite <- app_assoc. simpl. subst k.
      by rewrite insert_app_r_alt, Nat.sub_diag by lia. }
  intros n. exact (H 0 n [] eq_refl).
Qed.

Lemma walk_dup_true (m : gmap N bool) (f : Fcall) :
  walk_dup m f = true ↔ live m (Newfid f) = true ∧ Newfid f ≠ Fid f.
Proof.
  unfold walk_dup.
  rewrite andb_true_iff, negb_true_iff, N.eqb_neq. tauto.
Qed.

Lemma step_read (ph : phase) (r : option Fcall) (s : proxyServer) :
  main s = AtRead ph → step (Read r) s = Some (serve ph r s).
Proof. intros Hm. unfold step. by rewrite Hm. Qed.

Lemma send_at (r : Fcall) (ph : phase) (s : proxyServer) :
  main s = AtSend r ph →
  ∀ r' s', step (Send r') s = Some s' →
    r' = r ∧ out s' = out s ++ [r] ∧ main s' = AtRead ph
    ∧ fids s' = fids s ∧ clunkers s' = clunkers s.
Proof.
  intros Hm r' s'. unfold step. rewrite Hm.
  destruct (decide (r' = r)) as [->|]; [|done].
  unfold send. case_decide; [|done]. simpl. by intros [= <-].
Qed.

Lemma step_send (r : Fcall) (ph : phase) (s : proxyServer) :
  main s = AtSend r ph → length (out s) < out_cap →
  step (Send r) s = Some (set_main (AtRead ph) (set_out (out s ++ [r]) s)).
Proof.
  intros Hm Hl. unfold step, send. rewrite Hm.
  by rewrite !decide_True by done.
Qed.

(** [s.send(r)] goes through as soon as the channel has room, and does no
    more than put [r] last in the channel. *)
Lemma send_enabled (r : Fcall) (ph : phase) (s : proxyServer) :
  main s = AtSend r ph → length (out s) < out_cap →
  ∃ s', step (Send r) s = Some s'
        ∧ out s' = out s ++ [r] ∧ main s' = AtRead ph
        ∧ fids s' = fids s ∧ clunkers s' = clunkers s.
Proof.
  intros Hm Hl. rewrite (step_send _ _ _ Hm Hl). eexists. by repeat split.
Qed.

(** C3.  A [Twalk] read in the loop of [serve], that is after the first
    two requests of the connection, is answered with the error "duplicate
    fid" exactly when its newfid is live in the table and differs from its
    fid (and the table is then left as it was); otherwise newfid is
    entered in the table and the answer is an [Rwalk].  The answer carries
    the tag of the request; it is the one message the main goroutine sends
    next, and [s.send] takes it as soon as the channel has room. *)
Theorem walk_duplicate_fid_rule (s : proxyServer) (f : Fcall) :
  main s = AtRead InLoop →
  Typ f = Twalk →
  ∃ s' r,
    step (Read (Some f)) s = Some s'
    ∧ main s' = AtSend r InLoop
    ∧ (∀ r' s'', step (Send r') s' = Some s'' →
         r' = r ∧ out s'' = out s ++ [r])
    ∧ (length (out s) < out_cap →
       ∃ s'', step (Send r) s' = Some s''
              ∧ out s'' = out s ++ [r] ∧ main s'' = AtRead InLoop
              ∧ fids s'' = fids s')
    ∧ Tag r = Tag f
    ∧ ((live (fids s) (Newfid f) = true ∧ Newfid f ≠ Fid f)
       ↔ (Typ r = Rerror ∧ Ename r = "duplicate fid"))
    ∧ (Typ r = Rerror → fids s' = fids s)
    ∧ (Typ r ≠ Rerror →
         Typ r = Rwalk ∧ fids s' = <[Newfid f := true]> (fids s)).
Proof.
  intros Hm Ht. rewrite (step_read _ _ _ Hm). cbn [serve]. rewrite Ht.
  unfold serve_walk. pose proof (walk_dup_true (fids s) f) as Hd.
  destruct (walk_dup (fids s) f).
  - eexists _, _. split; [reflexivity|]. split; [reflexivity|].
    split; [|split; [|split; [done|split; [|by split]]]].
    + intros r' s'' H. eapply send_at in H; [|reflexivity].
      by destruct H as (-> & ? & _).
    + intros Hl.
      destruct (send_enabled (rerror f "duplicate fid") InLoop
                  (set_main (AtSend (rerror f "duplicate fid") InLoop)
                     (set_fids (fids s) s)) eq_refl Hl)
        as (s'' & H1 & H2 & H3 & H4 & _).
      by exists s''.
    + split; [done|]. intros _. by apply Hd.
  - eexists _, _. split; [reflexivity|]. split; [reflexivity|].
    split; [|split; [|split; [done|split; [|by split]]]].
    + intros r' s'' H. eapply send_at in H; [|reflexivity].
      by destruct H as (-> & ? & _).
    + intros Hl.
      destruct (send_enabled (rwalk f) InLoop
                  (set_main (AtSend (rwalk f) InLoop)
                     (set_fids (<[Newfid f := true]> (fids s)) s))
                  eq_refl Hl)
        as (s'' & H1 & H2 & H3 & H4 & _).
      by exists s''.
    + split; [|by intros [? _]]. intros H. by apply Hd in H.
Qed.

Lemma walk_duplicate_fid_rule_witness :
  main (attached 5) = AtRead InLoop
  ∧ Typ (twalk 1 0 0 ["file"]) = Twalk
  ∧ ∃ s' r s'',
      step (Read (Some (twalk 1 0 0 ["file"]))) (attached 5) = Some s'
      ∧ main s' = AtSend r InLoop
      ∧ ¬ (Typ r = Rerror ∧ Ename r = "duplicate fid")
      ∧ step (Send r) s' = Some s''
      ∧ out s'' = [r].
Proof.
  split; [reflexivity|]. split; [reflexivity|].
  destruct (walk_duplicate_fid_rule (attached 5)
              (twalk 1 0 0 ["file"]) eq_refl eq_refl)
    as (s' & r & Hs & Hm & _ & Hsend & _ & Hiff & _).
  destruct Hsend as (s'' & Hs'' & Ho & _); [cbn; unfold out_cap; lia|].
  exists s', r, s''. split; [exact Hs|]. split; [exact Hm|].
  split; [|by split].
  intros Hr. apply Hiff in Hr as [_ Hne]. by apply Hne.
Defined.

(** C3 as stated fails for a [Twalk] that is not read in the loop: of the
    first two requests of a connection [serve] does not look at the type.
    The [Twalk] from fid 0 to newfid 1, read as the second request, is no
    duplicate, and yet the answer is no [Rwalk] but an [Rattach], newfid 1
    is not entered in the table, and fid 0 is.  Read as the first request,
    it is answered with an [Rversion] and nothing is entered. *)
Lemma walk_duplicate_fid_rule_counterexample :
  Typ early_walk = Twalk
  ∧ Fid early_walk = 0%N ∧ Newfid early_walk = 1%N
  ∧ (∃ s s' s'',
       run hello (init (5 * ms)) = Some s
       ∧ live (fids s) (Newfid early_walk) = false
       ∧ step (Read (Some early_walk)) s = Some s'
       ∧ step (Send (rattach early_walk)) s' = Some s''
       ∧ out s'' = [rattach early_walk]
       ∧ Typ (rattach early_walk) = Rattach
       ∧ live (fids s'') (Newfid early_walk) = false
       ∧ live (fids s'') (Fid early_walk) = true)
  ∧ (∃ s' s'',
       step (Read (Some early_walk)) (init (5 * ms)) = Some s'
       ∧ step (Send (rversion early_walk)) s' = Some s''
       ∧ out s'' = [rversion early_walk]
       ∧ Typ (rversion early_walk) = Rversion
       ∧ fids s'' = ∅).
Proof.
  split; [reflexivity|]. split; [reflexivity|]. split; [reflexivity|].
  split.
  - eexists. eexists. eexists.
    split; [vm_compute; reflexivity|].
    split; [vm_compute; reflexivity|].
    split; [vm_compute; reflexivity|].
    split; [vm_compute; reflexivity|].
    split; [vm_compute; reflexivity|].
    split; [reflexivity|].
    split; vm_compute; reflexivity.
  - eexists. eexists.
    split; [vm_compute; reflexivity|].
    split; [vm_compute; reflexivity|].
    split; [vm_compute; reflexivity|].
    split; [reflexivity|]. vm_compute. reflexivity.
Qed.

(** C5.  A [Twalk] read in the loop of [serve] that the proxy accepts is
    answered with an [Rwalk] whose qid sequence is as long as the
    request's name sequence: one object identifier per name, each the qid
    of a file with path 1.  [s.send] takes the [Rwalk] as soon as the
    channel has room. *)
Theorem walk_response_shape (s : proxyServer) (f : Fcall) :
  main s = AtRead InLoop →
  Typ f = Twalk →
  ¬ (live (fids s) (Newfid f) = true ∧ Newfid f ≠ Fid f) →
  ∃ s' r,
    step (Read (Some f)) s = Some s'
    ∧ main s' = AtSend r InLoop
    ∧ (length (out s) < out_cap →
       ∃ s'', step (Send r) s' = Some s'' ∧ out s'' = out s ++ [r])
    ∧ Typ r = Rwalk
    ∧ Tag r = Tag f
    ∧ length (Wqid r) = length (Wname f)
    ∧ ∀ i, i < length (Wname f) →
        Wqid r !! i = Some {| Path := 1; Vers := 0; QTyp := QTFILE |}.
Proof.
  intros Hm Ht Hnd. rewrite (step_read _ _ _ Hm). cbn [serve].
  rewrite Ht.
  unfold serve_walk. rewrite <- walk_dup_true in Hnd.
  destruct (walk_dup (fids s) f); [done|].
  eexists _, _. split; [reflexivity|]. split; [reflexivity|]. split.
  { intros Hl.
    destruct (send_enabled (rwalk f) InLoop
                (set_main (AtSend (rwalk f) InLoop)
                   (set_fids (<[Newfid f := true]> (fids s)) s))
                eq_refl Hl)
      as (s'' & H1 & H2 & _).
    by exists s''. }
  cbn. rewrite make_wqid_replicate, length_replicate.
  repeat split. intros i Hi. by apply lookup_replicate_2.
Qed.

Lemma walk_response_shape_witness :
  main (attached 5) = AtRead InLoop
  ∧ Typ (twalk 1 0 1 ["usr"; "glenda"]) = Twalk
  ∧ ∃ s' r s'',
      step (Read (Some (twalk 1 0 1 ["usr"; "glenda"]))) (attached 5)
      = Some s'
      ∧ main s' = AtSend r InLoop
      ∧ length (Wqid r) = 2
      ∧ step (Send r) s' = Some s''
      ∧ out s'' = [r].
Proof.
  split; [reflexivity|]. split; [reflexivity|].
  destruct (walk_response_shape (attached 5)
              (twalk 1 0 1 ["usr"; "glenda"]) eq_refl eq_refl)
    as (s' & r & Hs & Hm & Hsend & _ & _ & Hl & _).
  - intros [H _]. vm_compute in H. discriminate.
  - destruct Hsend as (s'' & Hs'' & Ho); [cbn; unfold out_cap; lia|].
    exists s', r, s''. auto.
Defined.

(** C5 as stated fails for a [Twalk] that is not read in the loop.  The
    [Twalk] along two names, read as the second request of a connection,
    is no duplicate, and yet it is answered with an [Rattach], which
    carries no qid at all. *)
Lemma walk_response_shape_counterexample :
  ∃ s s' s'',
    run hello (init (5 * ms)) = Some s
    ∧ Typ early_walk = Twalk ∧ length (Wname early_walk) = 2
    ∧ live (fids s) (Newfid early_walk) = false
    ∧ step (Read (Some early_walk)) s = Some s'
    ∧ step (Send (rattach early_walk)) s' = Some s''
    ∧ out s'' = [rattach early_walk]
    ∧ Typ (rattach early_walk) = Rattach
    ∧ Wqid (rattach early_walk) = [].
Proof.
  eexists. eexists. eexists.
  split; [vm_compute; reflexivity|].
  split; [reflexivity|]. split; [reflexivity|].
  split; [vm_compute; reflexivity|].
  split; [vm_compute; reflexivity|].
  split; [vm_compute; reflexivity|].
  split; [vm_compute; reflexivity|].
  split; reflexivity.
Qed.

(** C9.  A request read in the loop whose type is none of [Twalk],
    [Topen], [Tclunk] is answered with an [Rerror] that carries the tag of
    the request and the text "not supported"; the table of live fids is
    left as it was.  The [Rerror] is the one message the main goroutine
    sends next, and [s.send] takes it as soon as the channel has room. *)
Theorem unsupported_request_rejected (s : proxyServer) (f : Fcall) :
  main s = AtRead InLoop →
  Typ f ≠ Twalk → Typ f ≠ Topen → Typ f ≠ Tclunk →
  ∃ s' r,
    step (Read (Some f)) s = Some s'
    ∧ main s' = AtSend r InLoop
    ∧ (∀ r' s'', step (Send r') s' = Some s'' →
         r' = r ∧ out s'' = out s ++ [r])
    ∧ (length (out s) < out_cap →
       ∃ s'', step (Send r) s' = Some s''
              ∧ out s'' = out s ++ [r] ∧ main s'' = AtRead InLoop
              ∧ fids s'' = fids s ∧ clunkers s'' = clunkers s)
    ∧ Typ r = Rerror
    ∧ Tag r = Tag f
    ∧ Ename r = "not supported"
    ∧ fids s' = fids s
    ∧ clunkers s' = clunkers s.
Proof.
  intros Hm H1 H2 H3. rewrite (step_read _ _ _ Hm). cbn [serve].
  exists (set_main (AtSend (rerror f "not supported") InLoop) s),
         (rerror f "not supported").
  split; [by destruct (Typ f)|]. split; [reflexivity|].
  split; [|split; [|by repeat split]].
  - intros r' s'' H. eapply send_at in H; [|reflexivity].
    by destruct H as (-> & ? & _).
  - intros Hl.
    by apply (send_enabled (rerror f "not supported") InLoop
                (set_main (AtSend (rerror f "not supported") InLoop) s)).
Qed.

Lemma unsupported_request_rejected_witness :
  main (attached 5) = AtRead InLoop
  ∧ Typ (new Tread 7) ≠ Twalk ∧ Typ (new Tread 7) ≠ Topen
  ∧ Typ (new Tread 7) ≠ Tclunk
  ∧ ∃ s' r s'',
      step (Read (Some (new Tread 7))) (attached 5) = Some s'
      ∧ main s' = AtSend r InLoop ∧ Tag r = 7%N
      ∧ step (Send r) s' = Some s''
      ∧ out s'' = [r] ∧ fids s'' = fids (attached 5).
Proof.
  split; [reflexivity|]. do 3 (split; [discriminate|]).
  destruct (unsupported_request_rejected (attached 5) (new Tread 7) eq_refl)
    as (s' & r & Hs & Hm & _ & Hsend & _ & Ht & _); try discriminate.
  destruct Hsend as (s'' & Hs'' & Ho & _ & Hf & _);
    [cbn; unfold out_cap; lia|].
  exists s', r, s''. auto 10.
Defined.

(** ** Runs of the proxy *)

Lemma run_app (l1 l2 : list label) (s : proxyServer) :
  run (l1 ++ l2) s = run l1 s ≫= run l2.
Proof.
  revert s. induction l1 as [|l l1 IH]; intros s; [done|].
  simpl. destruct (step l s); [apply IH | done].
Qed.

Lemma step_panicked (l : label) (s : proxyServer) :
  main s = Panicked → step l s = None.
Proof. intros H. unfold step. by rewrite H. Qed.

(** The enabled steps, one clause per label. *)
Lemma step_inv (l : label) (s s' : proxyServer) :
  step l s = Some s' →
  main s ≠ Panicked ∧
  match l with
  | Read r => ∃ ph, main s = AtRead ph ∧ s' = serve ph r s
  | Send r =>
      ∃ ph, main s = AtSend r ph ∧ length (out s) < out_cap
            ∧ s' = set_main (AtRead ph) (set_out (out s ++ [r]) s)
  | SetClunkSeen => s' = set_clunkSeen ChanOpen s
  | Wake i =>
      ∃ tag fid until,
        clunkers s !! i = Some (Sleeping tag fid until)
        ∧ (until ≤ now s)%Z
        ∧ s' = set_clunkers (<[i := Woken tag]> (clunkers s))
                 (set_fids (delete fid (fids s)) s)
  | Reply i r =>
      ∃ tag,
        clunkers s !! i = Some (Woken tag) ∧ r = rclunk tag
        ∧ length (out s) < out_cap
        ∧ s' = set_clunkers (<[i := Exited]> (clunkers s))
                 (set_out (out s ++ [r]) s)
  | Write r ok =>
      hand s = Some r ∧ sender s = true
      ∧ s' = set_sender ok (set_hand None s)
  | Tick d => s' = set_now (now s + Z.of_N d)%Z s
  | Take r =>
      ∃ rest, out s = r :: rest ∧ hand s = None ∧ sender s = true
              ∧ s' = set_hand (Some r) (set_out rest s)
  end.
Proof.
  intros H. split; [intros Hp; by rewrite (step_panicked _ _ Hp) in H|].
  unfold step in H. unfold send in H.
  destruct l; simpl.
  - destruct (main s) eqn:Hm; try done. injection H as <-. eauto.
  - destruct (main s) eqn:Hm; try done.
    destruct (decide (r = r0)) as [->|]; [|done].
    case_decide; [|done]. injection H as <-. eauto.
  - destruct (main s); [| | |done]; by injection H as <-.
  - destruct (clunkers s !! i) as [[tag fid until| |]|] eqn:Hc;
      try (by destruct (main s)).
    destruct (decide (until ≤ now s)%Z);
      destruct (main s); try done; injection H as <-; eauto 6.
  - destruct (clunkers s !! i) as [[| tag |]|] eqn:Hc;
      try (by destruct (main s)).
    destruct (decide (r = rclunk tag)) as [->|]; [|by destruct (main s)].
    case_decide; destruct (main s); try done; injection H as <-; eauto 6.
  - destruct (hand s) as [r'|] eqn:Ho; [|by destruct (main s)].
    destruct (bool_decide (r = r')) eqn:Hr; [|by destruct (main s)].
    apply bool_decide_eq_true in Hr as ->.
    destruct (sender s) eqn:Hs; [|by destruct (main s)].
    destruct (main s); try done; injection H as <-; eauto.
  - destruct (main s); [| | |done]; by injection H as <-.
  - destruct (out s) as [|r' rest] eqn:Ho; [by destruct (main s)|].
    destruct (hand s) eqn:Hh; [by destruct (main s)|].
    destruct (bool_decide (r = r')) eqn:Hr; [|by destruct (main s)].
    apply bool_decide_eq_true in Hr as ->.
    destruct (sender s) eqn:Hs; [|by destruct (main s)].
    destruct (main s); try done; injection H as <-; eauto.
Qed.

Lemma reads_snoc (ls : list label) (l : label) :
  reads (ls ++ [l])
  = reads ls ++ match l with Read (Some f) => [f] | _ => [] end.
Proof.
  unfold reads. rewrite omap_app. f_equal.
  by destruct l as [[?|]| | | | | | |].
Qed.

Lemma sends_snoc (ls : list label) (l : label) :
  sends (ls ++ [l])
  = sends ls ++ match l with Send r | Reply _ r => [r] | _ => [] end.
Proof. unfold sends. rewrite omap_app. f_equal. by destruct l. Qed.

Lemma writes_snoc (ls : list label) (l : label) :
  writes (ls ++ [l])
  = writes ls ++ match l with Write r true => [r] | _ => [] end.
Proof.
  unfold writes. rewrite omap_app. f_equal.
  by destruct l as [| | | | |? []| |].
Qed.

Lemma clunker_tags_wake (cs : list clunker) (i : nat) (tag fid : N)
    (until : Z) :
  cs !! i = Some (Sleeping tag fid until) →
  omap clunker_tag (<[i := Woken tag]> cs) = omap clunker_tag cs.
Proof.
  revert i. induction cs as [|c cs IH]; intros [|i] H; try done.
  - injection H as ->. done.
  - cbn [insert list_insert]. simpl in H.
    change (<[S i := Woken tag]> (c :: cs)) with (c :: <[i := Woken tag]> cs).
    simpl. by rewrite IH.
Qed.

Lemma clunker_tags_exit (cs : list clunker) (i : nat) (tag : N) :
  cs !! i = Some (Woken tag) →
  omap clunker_tag cs ≡ₚ tag :: omap clunker_tag (<[i := Exited]> cs).
Proof.
  revert i. induction cs as [|c cs IH]; intros [|i] H; try done.
  - injection H as ->. done.
  - simpl in H.
    change (<[S i := Exited]> (c :: cs)) with (c :: <[i := Exited]> cs).
    simpl. destruct (clunker_tag c); [|by apply IH].
    rewrite (IH _ H). apply perm_swap.
Qed.

Lemma tail_snoc {A} (l : list A) (x : A) :
  l ≠ [] → tail (l ++ [x]) = tail l ++ [x].
Proof. by destruct l. Qed.

Lemma head_is_snoc {A} (l : list A) (x y : A) :
  head l = Some x → head (l ++ [y]) = Some x.
Proof. by destruct l. Qed.

Lemma serve_out (ph : phase) (r : option Fcall) (s : proxyServer) :
  out (serve ph r s) = out s ∧ sender (serve ph r s) = sender s
  ∧ clunkDelay (serve ph r s) = clunkDelay s
  ∧ now (serve ph r s) = now s.
Proof.
  destruct r as [f|]; [|done]. destruct ph; try done.
  simpl. destruct (Typ f); try done. by destruct (clunkSeen s).
Qed.

Lemma hs_at_version (ls : list label) (s : proxyServer) :
  hs_inv ls s → main s = AtRead InVersion →
  reads ls = [] ∧ sends ls = [] ∧ clunkers s = [].
Proof.
  unfold hs_inv. intros H Hm. destruct (reads ls).
  - naive_solver.
  - destruct H as [(_ & _ & _ & H)|[_ H]]; [congruence|].
    by rewrite Hm in H.
Qed.

Lemma hs_at_version_reply (ls : list label) (s : proxyServer) (r : Fcall)
    (ph : phase) :
  hs_inv ls s → main s = AtSend r ph → ph ≠ InLoop →
  ph = InAttach ∧ sends ls = [] ∧ clunkers s = []
  ∧ ∃ f, reads ls = [f] ∧ r = rversion f.
Proof.
  unfold hs_inv. intros H Hm Hph. destruct (reads ls) as [|f fs].
  - destruct H as (_ & _ & [H|H]); congruence.
  - destruct H as [(? & ? & -> & H)|[_ H]].
    + rewrite Hm in H. injection H as -> ->. eauto 10.
    + rewrite Hm in H. by destruct ph.
Qed.

(** Past the handshake the version reply heads what was sent. *)
Lemma hs_past (ls : list label) (s : proxyServer) :
  hs_inv ls s →
  (main s = AtRead InAttach ∨ main s = AtRead InLoop
   ∨ (∃ r, main s = AtSend r InLoop) ∨ clunkers s ≠ []) →
  ∃ f fs, reads ls = f :: fs ∧ head (sends ls) = Some (rversion f)
          ∧ past_handshake (main s).
Proof.
  unfold hs_inv. intros H Hm. destruct (reads ls) as [|f fs].
  - destruct H as (_ & Hc & [H|H]); rewrite H in Hm; naive_solver.
  - destruct H as [(_ & Hc & _ & H)|[? ?]]; [|eauto].
    rewrite H in Hm. naive_solver.
Qed.

Lemma hs_past_intro (ls : list label) (s : proxyServer) (f : Fcall)
    (fs : list Fcall) :
  reads ls = f :: fs → head (sends ls) = Some (rversion f) →
  past_handshake (main s) → hs_inv ls s.
Proof. unfold hs_inv. intros -> ? ?. by right. Qed.

Lemma serve_past (ph : phase) (f : Fcall) (s : proxyServer) :
  ph ≠ InVersion → past_handshake (main (serve ph (Some f) s)).
Proof.
  intros H. destruct ph; try done. simpl.
  destruct (Typ f); try done. by destruct (clunkSeen s).
Qed.

Lemma hs_inv_step (ls : list label) (s s' : proxyServer) (l : label) :
  hs_inv ls s → step l s = Some s' → hs_inv (ls ++ [l]) s'.
Proof.
  intros Hh H. apply step_inv in H as [Hnp H].
  destruct l.
  - destruct H as (ph & Hmain & ->). destruct r as [f|].
    + destruct (decide (ph = InVersion)) as [->|Hph].
      * destruct (hs_at_version _ _ Hh Hmain) as (Hr & Hs & Hc).
        unfold hs_inv. rewrite reads_snoc, sends_snoc, Hr, Hs. simpl.
        left. done.
      * destruct (hs_past ls s Hh) as (f0 & fs & Hr & Hs & _).
        { destruct ph; tauto. }
        eapply hs_past_intro.
        -- rewrite reads_snoc, Hr. reflexivity.
        -- by rewrite sends_snoc, app_nil_r.
        -- by apply serve_past.
    + unfold hs_inv in *. rewrite reads_snoc, sends_snoc, !app_nil_r. simpl.
      destruct (reads ls); [naive_solver|].
      destruct Hh as [(_ & _ & _ & ?)|[? ?]]; [congruence|by right].
  - destruct H as (ph & Hmain & _ & ->).
    destruct (decide (ph = InLoop)) as [->|Hph].
    + destruct (hs_past ls s Hh) as (f0 & fs & Hr & Hs & _); [eauto 6|].
      eapply hs_past_intro.
      * rewrite reads_snoc, Hr. by rewrite app_nil_r.
      * rewrite sends_snoc. by apply head_is_snoc.
      * done.
    + destruct (hs_at_version_reply _ _ _ _ Hh Hmain Hph)
        as (-> & Hs & Hc & f & Hr & ->).
      eapply hs_past_intro.
      * rewrite reads_snoc, Hr. by rewrite app_nil_r.
      * by rewrite sends_snoc, Hs.
      * done.
  - subst s'. unfold hs_inv in *.
    by rewrite reads_snoc, sends_snoc, !app_nil_r.
  - destruct H as (tag & fid & until & Hc & _ & ->).
    destruct (hs_past ls s Hh) as (f0 & fs & Hr & Hs & Hpast).
    { right; right; right. by intros E; rewrite E in Hc. }
    eapply hs_past_intro.
    * rewrite reads_snoc, Hr. by rewrite app_nil_r.
    * by rewrite sends_snoc, app_nil_r.
    * done.
  - destruct H as (tag & Hc & -> & _ & ->).
    destruct (hs_past ls s Hh) as (f0 & fs & Hr & Hs & Hpast).
    { right; right; right. by intros E; rewrite E in Hc. }
    eapply hs_past_intro.
    * rewrite reads_snoc, Hr. by rewrite app_nil_r.
    * rewrite sends_snoc. by apply head_is_snoc.
    * done.
  - destruct H as (_ & _ & ->). unfold hs_inv in *.
    by rewrite reads_snoc, sends_snoc, !app_nil_r.
  - subst s'. unfold hs_inv in *.
    by rewrite reads_snoc, sends_snoc, !app_nil_r.
  - destruct H as (rest & _ & _ & _ & ->). unfold hs_inv in *.
    by rewrite reads_snoc, sends_snoc, !app_nil_r.
Qed.

Lemma serve_hand (ph : phase) (r : option Fcall) (s : proxyServer) :
  hand (serve ph r s) = hand s.
Proof.
  destruct r as [f|]; [|done]. destruct ph; try done. cbn [serve].
  unfold serve_walk.
  by destruct (Typ f), (walk_dup (fids s) f), (clunkSeen s).
Qed.

Lemma serve_unwritten (ph : phase) (r : option Fcall) (s : proxyServer) :
  unwritten (serve ph r s) = unwritten s.
Proof.
  unfold unwritten. rewrite serve_hand.
  by destruct (serve_out ph r s) as (-> & _).
Qed.

Lemma out_inv_step (ls : list label) (s s' : proxyServer) (l : label) :
  writes ls `prefix_of` sends ls →
  (sender s = true → sends ls = writes ls ++ unwritten s) →
  step l s = Some s' →
  writes (ls ++ [l]) `prefix_of` sends (ls ++ [l])
  ∧ (sender s' = true
     → sends (ls ++ [l]) = writes (ls ++ [l]) ++ unwritten s').
Proof.
  intros Hp Ho H. apply step_inv in H as [_ H].
  rewrite writes_snoc, sends_snoc.
  destruct l; rewrite ?app_nil_r.
  - destruct H as (ph & _ & ->). rewrite serve_unwritten.
    destruct (serve_out ph r s) as (_ & -> & _). done.
  - destruct H as (ph & _ & _ & ->). split.
    + by apply prefix_app_r.
    + unfold unwritten in *. simpl. intros Hs.
      by rewrite (Ho Hs), !app_assoc.
  - by subst s'.
  - by destruct H as (? & ? & ? & _ & _ & ->).
  - destruct H as (tag & _ & _ & _ & ->). split.
    + by apply prefix_app_r.
    + unfold unwritten in *. simpl. intros Hs.
      by rewrite (Ho Hs), !app_assoc.
  - destruct H as (Hh & Hs & ->). unfold unwritten in *. simpl.
    rewrite (Ho Hs), Hh. simpl. destruct ok.
    + split; [|by rewrite <- app_assoc].
      apply prefix_app, prefix_cons, prefix_nil.
    + rewrite app_nil_r. split; [apply prefix_app_r; done | done].
  - by subst s'.
  - destruct H as (rest & Hout & Hh & Hs & ->). split; [done|].
    unfold unwritten in *. simpl. intros _.
    by rewrite (Ho Hs), Hh, Hout.
Qed.

Lemma serve_owed (ph : phase) (f : Fcall) (s : proxyServer) :
  ph ≠ InVersion → main s = AtRead ph →
  (owed (serve ph (Some f) s) ≡ₚ Tag f :: owed s
   ∨ owed (serve ph (Some f) s) = owed s)
  ∧ ∀ r, main (serve ph (Some f) s) = AtSend r InLoop →
         Tag r = Tag f ∧ Typ r ∈ reply_types.
Proof.
  intros Hph Hm. unfold owed at 2 4. rewrite Hm. cbn [app].
  unfold reply_types.
  destruct ph; [done| |]; cbn [serve].
  - split; [by left|]. intros r [= <-]. split; [done|]. set_solver.
  - destruct (Typ f) eqn:Ht;
      try (split; [by left|]; intros r [= <-]; split; [done|]; set_solver).
    + unfold serve_walk. destruct (walk_dup (fids s) f);
        (split; [by left|]; intros r [= <-]; split; [done|]; set_solver).
    + destruct (clunkSeen s); (split; [|done]).
      * by right.
      * left. unfold owed. cbn. rewrite omap_app. cbn.
        by rewrite <- Permutation_cons_append.
      * left. unfold owed. cbn. rewrite omap_app. cbn.
        by rewrite <- Permutation_cons_append.
Qed.

Lemma tag_inv_step (ls : list label) (s s' : proxyServer) (l : label) :
  hs_inv ls s →
  map Tag (tail (sends ls)) ++ owed s ⊆+ map Tag (tail (reads ls)) →
  Forall (fun r => Typ r ∈ reply_types) (tail (sends ls)) →
  (∀ r, main s = AtSend r InLoop → Typ r ∈ reply_types) →
  step l s = Some s' →
  map Tag (tail (sends (ls ++ [l]))) ++ owed s'
    ⊆+ map Tag (tail (reads (ls ++ [l])))
  ∧ Forall (fun r => Typ r ∈ reply_types) (tail (sends (ls ++ [l])))
  ∧ (∀ r, main s' = AtSend r InLoop → Typ r ∈ reply_types).
Proof.
  intros Hh Ht Hy Hm H. apply step_inv in H as [_ H].
  rewrite sends_snoc, reads_snoc.
  destruct l; rewrite ?app_nil_r.
  - destruct H as (ph & Hmain & ->). destruct r as [f|].
    + destruct (decide (ph = InVersion)) as [->|Hph].
      * destruct (hs_at_version _ _ Hh Hmain) as (Hr & Hs & Hc).
        rewrite Hr, Hs. cbn. unfold owed. cbn. rewrite Hc. done.
      * destruct (hs_past ls s Hh) as (f0 & fs & Hr & Hs & _).
        { destruct ph; tauto. }
        destruct (serve_owed ph f s Hph Hmain) as [Ho Hm'].
        split; [|split; [done | intros r Hr'; by apply Hm']].
        rewrite tail_snoc, map_app by (by rewrite Hr).
        change (map Tag [f]) with [Tag f].
        rewrite <- (Permutation_cons_append (map Tag (tail (reads ls)))).
        destruct Ho as [-> | ->].
        -- rewrite <- Permutation_middle. by apply submseteq_skip.
        -- by apply submseteq_cons.
    + rewrite app_nil_r. split; [|done].
      unfold owed in *. rewrite Hmain in Ht. done.
  - destruct H as (ph & Hmain & _ & ->).
    destruct (decide (ph = InLoop)) as [->|Hph].
    + destruct (hs_past ls s Hh) as (f0 & fs & Hr & Hs & _); [eauto 6|].
      rewrite tail_snoc by (by destruct (sends ls)).
      split; [|split; [|done]].
      * unfold owed in *. rewrite Hmain in Ht. cbn in *.
        by rewrite map_app, <- app_assoc.
      * apply Forall_app. split; [done|]. apply Forall_singleton. by apply Hm.
    + destruct (hs_at_version_reply _ _ _ _ Hh Hmain Hph)
        as (-> & Hs & Hc & f & Hr & ->).
      rewrite Hs, Hr. cbn. unfold owed. cbn. rewrite Hc. done.
  - by subst s'.
  - destruct H as (tag & fid & until & Hc & _ & ->).
    split; [|done]. unfold owed in *. cbn.
    by rewrite (clunker_tags_wake _ _ _ _ _ Hc).
  - destruct H as (tag & Hc & -> & _ & ->).
    destruct (hs_past ls s Hh) as (f0 & fs & Hr & Hs & Hpast).
    { right; right; right. by intros E; rewrite E in Hc. }
    rewrite tail_snoc by (by destruct (sends ls)).
    split; [|split; [|done]].
    + rewrite <- Ht. unfold owed. cbn.
      rewrite (clunker_tags_exit _ _ _ Hc), map_app. cbn.
      rewrite <- app_assoc. apply Permutation_submseteq.
      apply Permutation_app_head. cbn.
      by rewrite <- Permutation_middle.
    + apply Forall_app. split; [done|]. apply Forall_singleton.
      unfold reply_types. cbn. set_solver.
  - by destruct H as (_ & _ & ->).
  - by subst s'.
  - by destruct H as (rest & _ & _ & _ & ->).
Qed.

Lemma trace_inv_step (ls : list label) (s s' : proxyServer) (l : label) :
  trace_inv ls s → step l s = Some s' → trace_inv (ls ++ [l]) s'.
Proof.
  intros [Hp Ho Hh Ht Hy Hm] H.
  destruct (out_inv_step _ _ _ _ Hp Ho H).
  destruct (tag_inv_step _ _ _ _ Hh Ht Hy Hm H) as (? & ? & ?).
  split; try done. by eapply hs_inv_step.
Qed.

Lemma trace_inv_init (d : Z) : trace_inv [] (init d).
Proof.
  split; try done. unfold hs_inv. cbn. auto.
Qed.

Lemma trace_inv_run (ls pre : list label) (s s' : proxyServer) :
  trace_inv pre s → run ls s = Some s' → trace_inv (pre ++ ls) s'.
Proof.
  revert pre s. induction ls as [|l ls IH]; intros pre s Hi H.
  - injection H as <-. by rewrite app_nil_r.
  - simpl in H. destruct (step l s) as [s1|] eqn:Hs; [|done].
    rewrite (cons_middle l), app_assoc. eapply IH; [|done].
    by eapply trace_inv_step.
Qed.

Lemma serve_clunkers (ph : phase) (r : option Fcall) (s : proxyServer) :
  clunkers s `prefix_of` clunkers (serve ph r s).
Proof.
  destruct r as [f|]; [|done]. destruct ph; try done.
  cbn [serve]. unfold serve_walk.
  destruct (Typ f), (walk_dup (fids s) f), (clunkSeen s); cbn;
    try reflexivity; by apply prefix_app_r.
Qed.

(** A goroutine keeps its place in [clunkers] and moves only by its own
    events. *)
Lemma step_clunker (l : label) (s s' : proxyServer) (i : nat) (c : clunker) :
  step l s = Some s' → clunkers s !! i = Some c →
  clunkers s' !! i = Some (advance i c l).
Proof.
  intros H Hc. apply step_inv in H as [_ H]. destruct l.
  - destruct H as (ph & _ & ->).
    destruct (serve_clunkers ph r s) as [k ->].
    rewrite lookup_app_l; [by destruct c|]. by eapply lookup_lt_Some.
  - destruct H as (ph & _ & _ & ->). by destruct c.
  - subst s'. by destruct c.
  - destruct H as (tag & fid & until & Hi & _ & ->).
    change (clunkers (set_clunkers ?x _)) with x.
    destruct (decide (i0 = i)) as [->|Hne].
    + rewrite Hi in Hc. injection Hc as <-. unfold advance.
      rewrite decide_True by done.
      apply list_lookup_insert_eq. by eapply lookup_lt_Some.
    + rewrite list_lookup_insert_ne by done. rewrite Hc.
      destruct c; try done. unfold advance. by rewrite decide_False.
  - destruct H as (tag & Hi & -> & _ & ->).
    change (clunkers (set_clunkers ?x _)) with x.
    destruct (decide (i0 = i)) as [->|Hne].
    + rewrite Hi in Hc. injection Hc as <-. unfold advance.
      rewrite decide_True by done.
      apply list_lookup_insert_eq. by eapply lookup_lt_Some.
    + rewrite list_lookup_insert_ne by done. rewrite Hc.
      destruct c; try done. unfold advance. by rewrite decide_False.
  - destruct H as (_ & _ & ->). by destruct c.
  - subst s'. by destruct c.
  - destruct H as (rest & _ & _ & _ & ->). by destruct c.
Qed.

Lemma run_clunker (ls : list label) (s s' : proxyServer) (i : nat)
    (c : clunker) :
  run ls s = Some s' → clunkers s !! i = Some c →
  clunkers s' !! i = Some (foldl (advance i) c ls).
Proof.
  revert s c. induction ls as [|l ls IH]; intros s c H Hc.
  - by injection H as <-.
  - simpl in H. destruct (step l s) as [s1|] eqn:Hs; [|done].
    simpl. eapply IH; [done|]. by eapply step_clunker.
Qed.

Lemma advance_sleeping (i : nat) (tag fid : N) (until : Z)
    (ls : list label) :
  Wake i ∉ ls →
  foldl (advance i) (Sleeping tag fid until) ls = Sleeping tag fid until.
Proof.
  induction ls as [|l ls IH]; [done|]. intros Hn.
  simpl. rewrite not_elem_of_cons in Hn. destruct Hn as [Hl Hn].
  destruct l; try (by apply IH). unfold advance at 2.
  rewrite decide_False by congruence. by apply IH.
Qed.

Lemma advance_tag (i : nat) (c : clunker) (tag : N) (ls : list label) :
  clunker_tag (foldl (advance i) c ls) = Some tag → clunker_tag c = Some tag.
Proof.
  revert c. induction ls as [|l ls IH]; intros c; [done|].
  simpl. intros H. apply IH in H.
  destruct l, c; try done; unfold advance in H; by case_decide.
Qed.

(** The acknowledgment a goroutine sends carries the tag it captured, and
    is sent after the goroutine deleted its fid. *)
Lemma reply_of_clunker (ls pre post : list label) (s s' : proxyServer)
    (i : nat) (tag fid : N) (until : Z) (r : Fcall) :
  run ls s = Some s' →
  clunkers s !! i = Some (Sleeping tag fid until) →
  ls = pre ++ Reply i r :: post →
  r = rclunk tag ∧ Wake i ∈ pre.
Proof.
  intros H Hc ->. rewrite run_app in H.
  destruct (run pre s) as [s1|] eqn:Hpre; [|done]. simpl in H.
  destruct (step (Reply i r) s1) as [s2|] eqn:Hs; [|done].
  apply step_inv in Hs as [_ (t & Hi & -> & _)].
  rewrite (run_clunker _ _ _ _ _ Hpre Hc) in Hi. injection Hi as Hi.
  split.
  - f_equal. assert (E : clunker_tag (Sleeping tag fid until) = Some t).
    { eapply advance_tag. by rewrite Hi. }
    by injection E.
  - destruct (decide (Wake i ∈ pre)) as [|Hn]; [done|].
    by rewrite advance_sleeping in Hi.
Qed.

Lemma advance_shape (i : nat) (c : clunker) (ls : list label) :
  foldl (advance i) c ls = c
  ∨ foldl (advance i) c ls = Exited
  ∨ ∃ tag fid until,
      c = Sleeping tag fid until ∧ foldl (advance i) c ls = Woken tag.
Proof.
  revert c. induction ls as [|l ls IH]; intros c; [by left|].
  simpl. destruct (IH (advance i c l)) as [E|[E|(t & f & u & E1 & E)]];
    rewrite E; clear E IH.
  - destruct l, c; unfold advance; try (by left);
      (case_decide; [|by left]); eauto 10.
  - by right; left.
  - assert (c = Sleeping t f u) as ->; [|eauto 10].
    destruct l, c; unfold advance in E1; try case_decide; congruence.
Qed.

Lemma wake_of_clunker (pre : list label) (s s1 s2 : proxyServer)
    (i : nat) (tag fid : N) (until : Z) :
  run pre s = Some s1 →
  clunkers s !! i = Some (Sleeping tag fid until) →
  step (Wake i) s1 = Some s2 →
  (until ≤ now s1)%Z ∧ fids s2 = delete fid (fids s1).
Proof.
  intros Hpre Hc Hs.
  apply step_inv in Hs as [_ (t & f & u & Hi & Hu & ->)].
  rewrite (run_clunker _ _ _ _ _ Hpre Hc) in Hi. injection Hi as Hi.
  destruct (advance_shape i (Sleeping tag fid until) pre)
    as [E|[E|(? & ? & ? & _ & E)]]; rewrite E in Hi; try done.
  by injection Hi as <- <- <-.
Qed.

Lemma live_insert (m : gmap N bool) (k F : N) :
  live m F = true → live (<[k := true]> m) F = true.
Proof.
  unfold live. intros H. destruct (decide (k = F)) as [->|Hne].
  - by rewrite lookup_insert_eq.
  - by rewrite lookup_insert_ne.
Qed.

Lemma live_delete_ne (m : gmap N bool) (k F : N) :
  k ≠ F → live (delete k m) F = live m F.
Proof. intros H. unfold live. by rewrite lookup_delete_ne. Qed.

Lemma live_delete (m : gmap N bool) (F : N) : live (delete F m) F = false.
Proof. unfold live. by rewrite lookup_delete_eq. Qed.

Lemma serve_live (ph : phase) (r : option Fcall) (s : proxyServer)
    (F : N) :
  live (fids s) F = true → live (fids (serve ph r s)) F = true.
Proof.
  intros H. destruct r as [f|]; [|done]. destruct ph; try done.
  - by apply live_insert.
  - cbn [serve]. unfold serve_walk.
    destruct (Typ f), (walk_dup (fids s) f), (clunkSeen s); cbn;
      try done; by apply live_insert.
Qed.

Lemma serve_sleepers (ph : phase) (r : option Fcall) (s : proxyServer)
    (c : clunker) :
  c ∈ clunkers (serve ph r s) →
  c ∈ clunkers s
  ∨ ∃ f, r = Some f ∧ c = Sleeping (Tag f) (Fid f) (now s + clunkDelay s).
Proof.
  destruct r as [f|]; [|by left]. destruct ph; try (by left).
  cbn [serve]. unfold serve_walk.
  destruct (Typ f), (walk_dup (fids s) f), (clunkSeen s); cbn;
    try (by left); rewrite elem_of_app, list_elem_of_singleton;
    intros [?|?]; eauto.
Qed.

Lemma elem_of_insert_inv {A} (l : list A) (i : nat) (x y : A) :
  y ∈ <[i := x]> l → y = x ∨ y ∈ l.
Proof.
  intros H. apply list_elem_of_lookup in H as [j H].
  apply list_lookup_insert_Some in H as [(_ & -> & _)|[_ H]]; [by left|].
  right. apply list_elem_of_lookup. eauto.
Qed.

Lemma waiting_step (F : N) (due : Z) (l : label) (s s' : proxyServer) :
  waiting F due s → step l s = Some s' → waiting F due s'.
Proof.
  intros [Hs Hn Hl] H. apply step_inv in H as [_ H]. destruct l.
  - destruct H as (ph & _ & ->).
    destruct (serve_out ph r s) as (_ & _ & Hd & Hnow).
    split; rewrite ?Hd, ?Hnow; [|done|].
    + intros tag until Hin.
      apply serve_sleepers in Hin as [Hin|(f & -> & [= _ _ ->])]; eauto.
    + intros Hlt. by apply serve_live, Hl.
  - destruct H as (ph & _ & _ & ->). by split.
  - subst s'. by split.
  - destruct H as (tag & fid & until & Hi & Hu & ->). split; cbn.
    + intros t u Hin. apply elem_of_insert_inv in Hin as [|Hin]; [done|eauto].
    + done.
    + intros Hlt. destruct (decide (fid = F)) as [->|Hne].
      * assert (due ≤ until)%Z; [|lia].
        eapply Hs, list_elem_of_lookup_2, Hi.
      * rewrite live_delete_ne by done. by apply Hl.
  - destruct H as (tag & Hi & -> & _ & ->). split; cbn; try done.
    intros t u Hin. apply elem_of_insert_inv in Hin as [|Hin]; [done|eauto].
  - destruct H as (_ & _ & ->). by split.
  - subst s'. split; cbn; try done; [lia|]. intros Hlt. apply Hl. lia.
  - destruct H as (rest & _ & _ & _ & ->). by split.
Qed.

Lemma waiting_run (F : N) (due : Z) (ls : list label) (s s' : proxyServer) :
  waiting F due s → run ls s = Some s' → waiting F due s'.
Proof.
  revert s. induction ls as [|l ls IH]; intros s Hw H.
  - by injection H as <-.
  - simpl in H. destruct (step l s) as [s1|] eqn:Hs; [|done].
    eapply IH; [|done]. by eapply waiting_step.
Qed.

(** C7.  The first message the proxy hands to [s.send], and the first
    frame it writes on the connection, is the [Rversion] that answers the
    first request read: its tag is [NOTAG], its [Msize] is the one of that
    request and its version string is "9P2000". *)
Theorem version_handshake (d : Z) (ls : list label) (s : proxyServer)
    (r : Fcall) :
  run ls (init d) = Some s →
  head (sends ls) = Some r ∨ head (writes ls) = Some r →
  ∃ f, head (reads ls) = Some f
       ∧ Typ r = Rversion ∧ Tag r = NOTAG ∧ Msize r = Msize f
       ∧ Version r = "9P2000" ∧ r = rversion f.
Proof.
  intros Hrun Hr.
  destruct (trace_inv_run ls [] _ _ (trace_inv_init d) Hrun)
    as [Hp _ Hh _ _ _]. simpl in *.
  assert (Hs : head (sends ls) = Some r).
  { destruct Hr as [Hr|Hr]; [done|]. destruct Hp as [k ->].
    by destruct (writes ls). }
  unfold hs_inv in Hh. destruct (reads ls) as [|f fs].
  - destruct Hh as [E _]. by rewrite E in Hs.
  - destruct Hh as [[E _]|[E _]]; [by rewrite E in Hs|].
    rewrite E in Hs. injection Hs as <-. by exists f.
Qed.

Lemma version_handshake_witness :
  ∃ s r, run hello (init 5) = Some s
         ∧ head (writes hello) = Some r
         ∧ Tag r = NOTAG ∧ Msize r = 8192%N.
Proof.
  eexists _, _. split; [reflexivity|]. split; [reflexivity|].
  destruct (version_handshake 5 hello _ _ eq_refl (or_intror eq_refl))
    as (f & Hf & _ & Ht & Hm & _).
  injection Hf as <-. split; [exact Ht | exact Hm].
Defined.

(** C4.  Every response to a tagged request carries the tag of the
    request it answers.  In a run, the tags of the responses handed to
    [s.send] after the version reply, together with the tags of the
    responses still owed, are tags of distinct requests read after the
    first; these responses are of type [Rattach], [Rwalk], [Ropen],
    [Rclunk] or [Rerror]; [sender] writes the responses as they were sent.
    Request by request: once the handshake is over, a request [f] that is
    read either makes the main goroutine send next a response with the tag
    of [f], or (a [Tclunk]) starts a goroutine whose only message is the
    [Rclunk] with the tag of [f], or (a [Tclunk] while [clunkSeen] is nil)
    stops the server. *)
Theorem tag_preservation (d : Z) (ls : list label) (s : proxyServer) :
  run ls (init d) = Some s →
  map Tag (tail (sends ls)) ++ owed s ⊆+ map Tag (tail (reads ls))
  ∧ Forall (fun r => Typ r ∈ reply_types) (tail (sends ls))
  ∧ writes ls `prefix_of` sends ls
  ∧ ∀ ph f s1,
      main s = AtRead ph → ph ≠ InVersion →
      step (Read (Some f)) s = Some s1 →
      (∃ r, main s1 = AtSend r InLoop ∧ Tag r = Tag f
            ∧ Typ r ∈ reply_types ∧ clunkers s1 = clunkers s
            ∧ ∀ r' s2, step (Send r') s1 = Some s2 → r' = r)
      ∨ (Typ f = Tclunk ∧ main s1 = AtRead InLoop
         ∧ (∃ until,
              clunkers s1 = clunkers s ++ [Sleeping (Tag f) (Fid f) until])
         ∧ ∀ ls2 s2 pre r post,
             run ls2 s1 = Some s2 →
             ls2 = pre ++ Reply (length (clunkers s)) r :: post →
             r = rclunk (Tag f))
      ∨ (Typ f = Tclunk ∧ main s1 = Panicked).
Proof.
  intros Hrun.
  destruct (trace_inv_run ls [] _ _ (trace_inv_init d) Hrun)
    as [Hp _ _ Ht Hy _]. simpl in *.
  do 3 (split; [done|]).
  intros ph f s1 Hm Hph Hs. rewrite (step_read _ _ _ Hm) in Hs.
  injection Hs as <-.
  assert (Hsend : ∀ r0 ph0 s0, main s0 = AtSend r0 ph0 →
            ∀ r' s2, step (Send r') s0 = Some s2 → r' = r0).
  { intros r0 ph0 s0 H0 r' s2 H. by eapply send_at in H as [-> _]. }
  assert (Hin : ∀ t, t ∈ reply_types ↔
            t = Rattach ∨ t = Rwalk ∨ t = Ropen ∨ t = Rclunk ∨ t = Rerror).
  { intros t. unfold reply_types. set_solver. }
  destruct ph; [done| |]; cbn [serve].
  - left. eexists. repeat split; [apply Hin; tauto|by eapply Hsend].
  - unfold serve_walk.
    destruct (Typ f) eqn:Hty;
      try (left; eexists; repeat split;
           [apply Hin; tauto|by eapply Hsend]).
    + destruct (walk_dup (fids s) f);
        (left; eexists; repeat split; [apply Hin; tauto|by eapply Hsend]).
    + assert (Hgo : ∀ s0,
        clunkers s0 = clunkers s
                      ++ [Sleeping (Tag f) (Fid f) (now s + clunkDelay s)] →
        ∀ ls2 s2 pre r post,
          run ls2 s0 = Some s2 →
          ls2 = pre ++ Reply (length (clunkers s)) r :: post →
          r = rclunk (Tag f)).
      { intros s0 Hc ls2 s2 pre r post Hr2 Hls.
        eapply reply_of_clunker; [exact Hr2| |exact Hls].
        rewrite Hc. by apply list_lookup_middle. }
      destruct (clunkSeen s); [by right; right| |];
        (right; left; repeat split; [by eexists|by apply Hgo]).
Qed.

Lemma tag_preservation_witness :
  let ls := hello ++ [Read (Some (tattach 1 0 "nobody" ""));
                      Send (rattach (tattach 1 0 "nobody" ""))] in
  ∃ s, run ls (init 5) = Some s
       ∧ map Tag (tail (sends ls)) ++ owed s ⊆+ map Tag (tail (reads ls)).
Proof.
  intros ls. eexists. split; [reflexivity|].
  apply (tag_preservation 5 ls _ eq_refl).
Defined.

(** C2, as the code has it.  A [Tclunk] of fid [F] read in the loop (with
    [clunkSeen] made) starts a goroutine that sleeps until [clunkDelay]
    has passed since the read.  That goroutine deletes [F] only once the
    delay has passed, and can do so from then on; its [Rclunk], with the
    tag of the request, is sent only after its deletion of [F].  If [F]
    was live at the read and no earlier clunk of [F] was still asleep,
    then [F] is live at every moment before the delay has passed. *)
Theorem clunk_ack_delayed (s1 s2 s3 : proxyServer) (f : Fcall)
    (ls : list label) :
  main s1 = AtRead InLoop → Typ f = Tclunk → clunkSeen s1 ≠ ChanNil →
  step (Read (Some f)) s1 = Some s2 →
  run ls s2 = Some s3 →
  let i := length (clunkers s1) in
  let due := (now s1 + clunkDelay s1)%Z in
  clunkers s2 !! i = Some (Sleeping (Tag f) (Fid f) due)
  ∧ fids s2 = fids s1
  ∧ (∀ pre post sa sb,
       ls = pre ++ Wake i :: post → run pre s2 = Some sa →
       step (Wake i) sa = Some sb →
       (due ≤ now sa)%Z ∧ fids sb = delete (Fid f) (fids sa))
  ∧ (∀ pre sa,
       run pre s2 = Some sa → Wake i ∉ pre → main sa ≠ Panicked →
       (due ≤ now sa)%Z → is_Some (step (Wake i) sa))
  ∧ (∀ pre r post,
       ls = pre ++ Reply i r :: post → r = rclunk (Tag f) ∧ Wake i ∈ pre)
  ∧ (live (fids s1) (Fid f) = true →
     (∀ tag until, Sleeping tag (Fid f) until ∉ clunkers s1) →
     (now s3 < due)%Z → live (fids s3) (Fid f) = true).
Proof.
  intros Hm Hty Hseen Hstep Hrun i due.
  rewrite (step_read _ _ _ Hm) in Hstep. injection Hstep as <-.
  assert (Hc : clunkers (serve InLoop (Some f) s1)
               = clunkers s1 ++ [Sleeping (Tag f) (Fid f) due]
               ∧ fids (serve InLoop (Some f) s1) = fids s1).
  { cbn [serve]. rewrite Hty. by destruct (clunkSeen s1). }
  destruct Hc as [Hc Hf].
  assert (Hi : clunkers (serve InLoop (Some f) s1) !! i
               = Some (Sleeping (Tag f) (Fid f) due)).
  { rewrite Hc. by apply list_lookup_middle. }
  split; [done|]. split; [done|]. split; [|split; [|split]].
  - intros pre post sa sb _ Hpre Hw. by eapply wake_of_clunker.
  - intros pre sa Hpre Hn Hp Hdue.
    pose proof (run_clunker _ _ _ _ _ Hpre Hi) as Hsa.
    rewrite advance_sleeping in Hsa by done.
    unfold step. rewrite Hsa, decide_True by done. by destruct (main sa).
  - intros pre r post Hls. by eapply reply_of_clunker.
  - intros Hlive Hfree Hlt.
    assert (Hw : waiting (Fid f) due (serve InLoop (Some f) s1)).
    { destruct (serve_out InLoop (Some f) s1) as (_ & _ & Hd & Hnow).
      split; rewrite ?Hd, ?Hnow.
      - intros tag until. rewrite Hc, elem_of_app, list_elem_of_singleton.
        intros [Hin|[= _ ->]]; [by apply Hfree in Hin|done].
      - done.
      - intros _. by rewrite Hf. }
    by apply (waiting_run _ _ _ _ _ Hw Hrun).
Qed.

Lemma clunk_ack_delayed_witness :
  step (Read (Some (tclunk 1 1))) walked = Some clunked
  ∧ run [Tick 4000000; Read (Some (tclunk 2 1))] clunked
    = Some clunked_again
  ∧ live (fids clunked_again) 1 = true.
Proof.
  assert (H1 : step (Read (Some (tclunk 1 1))) walked = Some clunked)
    by (vm_compute; reflexivity).
  assert (H2 : run [Tick 4000000; Read (Some (tclunk 2 1))] clunked
               = Some clunked_again) by (vm_compute; reflexivity).
  split; [exact H1|]. split; [exact H2|].
  assert (H3 : clunkSeen walked ≠ ChanNil) by discriminate.
  pose proof (clunk_ack_delayed walked clunked clunked_again (tclunk 1 1)
                _ eq_refl eq_refl H3 H1 H2) as H.
  cbv zeta in H. destruct H as (_ & _ & _ & _ & _ & H). apply H.
  - vm_compute; reflexivity.
  - intros tag until Hin. by apply elem_of_nil in Hin.
  - vm_compute; reflexivity.
Defined.

(** C2 as stated fails.  The proxy reads a second [Tclunk] of fid 1 while
    fid 1 is live, 3ms after the first; 2ms later, before the delay of the
    second has passed and before any [Rclunk] was sent, the goroutine of
    the first has deleted fid 1.  And a [Tclunk] read while [clunkSeen] is
    still nil stops the server: no goroutine, no [Rclunk]. *)
Lemma clunk_ack_delayed_counterexample :
  (∃ s3,
     run clunk_twice_before (init (5 * ms)) = Some clunked_3ms_ago
     ∧ main clunked_3ms_ago = AtRead InLoop
     ∧ live (fids clunked_3ms_ago) 1 = true
     ∧ run (Read (Some (tclunk 2 1)) :: clunk_twice_after) clunked_3ms_ago
       = Some s3
     ∧ (now s3 < now clunked_3ms_ago + clunkDelay clunked_3ms_ago)%Z
     ∧ live (fids s3) 1 = false
     ∧ Forall (fun r => Typ r ≠ Rclunk)
         (sends (clunk_twice_before
                   ++ Read (Some (tclunk 2 1)) :: clunk_twice_after)))
  ∧ (∃ s2,
       step (Read (Some (tclunk 1 1))) (set_clunkSeen ChanNil walked)
       = Some s2
       ∧ main s2 = Panicked ∧ clunkers s2 = []
       ∧ ∀ l, step l s2 = None).
Proof.
  split.
  - eexists. split; [vm_compute; reflexivity|].
    split; [vm_compute; reflexivity|]. split; [vm_compute; reflexivity|].
    split; [vm_compute; reflexivity|]. split; [vm_compute; reflexivity|].
    split; [vm_compute; reflexivity|].
    repeat constructor; discriminate.
  - eexists. split; [reflexivity|]. split; [reflexivity|].
    split; [reflexivity|]. intros l. by apply step_panicked.
Qed.

(** ** The start of a connection and the table of the proxy *)

Lemma entered_mono (rs : list Fcall) (f : Fcall) (k : N) :
  k ∈ entered rs → k ∈ entered (rs ++ [f]).
Proof.
  destruct rs as [|a [|b rest]]; cbn; try (by intros ?%elem_of_nil).
  rewrite filter_app, map_app, !elem_of_cons, elem_of_app. tauto.
Qed.

Lemma entered_walk (rs : list Fcall) (f : Fcall) :
  2 ≤ length rs → Typ f = Twalk → Newfid f ∈ entered (rs ++ [f]).
Proof.
  intros Hl Hty. destruct rs as [|a [|b rest]]; cbn in Hl; try lia. cbn.
  rewrite filter_app, map_app, elem_of_cons, elem_of_app. right. right.
  rewrite filter_cons_True by done. cbn. apply elem_of_cons; by left.
Qed.

Lemma looping_snoc (ls : list label) (l : label) :
  looping ls → looping (ls ++ [l]).
Proof.
  intros (f1 & f2 & rest & Hr & Hs).
  unfold looping. rewrite reads_snoc, sends_snoc, Hr.
  exists f1, f2. eexists. split; [by rewrite <- app_comm_cons|].
  by apply lookup_app_l_Some.
Qed.

Lemma serve_fids (ph : phase) (f : Fcall) (s : proxyServer) (k : N)
    (b : bool) :
  fids (serve ph (Some f) s) !! k = Some b →
  fids s !! k = Some b
  ∨ (b = true
     ∧ ((ph = InAttach ∧ k = Fid f)
        ∨ (ph = InLoop ∧ Typ f = Twalk ∧ k = Newfid f))).
Proof.
  destruct ph; cbn [serve].
  - by left.
  - cbn. intros [[<- <-]|[_ H]]%lookup_insert_Some; eauto.
  - unfold serve_walk.
    destruct (Typ f) eqn:Hty, (walk_dup (fids s) f), (clunkSeen s); cbn;
      try (by left);
      intros [[<- <-]|[_ H]]%lookup_insert_Some; eauto 7.
Qed.

Ltac same_phase Hp :=
  first [ done
        | by apply looping_snoc
        | destruct Hp as [Hp|Hp]; [by left|right; by apply looping_snoc] ].

Ltac no_clunker Hp :=
  first [ done
        | by apply looping_snoc
        | by destruct Hp as (? & ? & ?)
        | by destruct Hp as (? & ? & ? & ?)
        | destruct Hp as [Hp|Hp];
          [ first [ by destruct Hp as (? & ? & ?)
                  | by destruct Hp as (? & ? & ? & ? & ? & ?) ]
          | right; by apply looping_snoc ] ].

Lemma boot_inv_step (ls : list label) (s s' : proxyServer) (l : label) :
  boot_inv ls s → step l s = Some s' → boot_inv (ls ++ [l]) s'.
Proof.
  intros [Hf Hp] H. apply step_inv in H as [Hnp H].
  unfold boot_inv. rewrite reads_snoc, sends_snoc. destruct l.
  - destruct H as (ph & Hm & ->). rewrite Hm in Hp.
    destruct r as [f|].
    + split.
      { intros k b [Hk|(-> & Hk)]%serve_fids.
        - destruct (Hf k b Hk) as [-> Hin]. split; [done|].
          by apply entered_mono.
        - split; [done|]. destruct Hk as [[-> ->]|(-> & Hty & ->)].
          + destruct Hp as (f0 & -> & _). cbn. apply elem_of_cons; by left.
          + destruct Hp as (f1 & f2 & rest & -> & _).
            apply entered_walk; [cbn; lia|done]. }
      rewrite app_nil_r. destruct ph; cbn [serve].
      * destruct Hp as (-> & -> & ?). cbn. eauto.
      * destruct Hp as (f0 & -> & Hl & ?). cbn. left. eauto 6.
      * assert (Hlo : looping (ls ++ [Read (Some f)])).
        { by apply looping_snoc. }
        unfold serve_walk.
        destruct (Typ f), (walk_dup (fids s) f), (clunkSeen s); cbn;
          first [exact Hlo | right; exact Hlo].
    + rewrite !app_nil_r. split; [done|]. cbn.
      destruct ph.
      * destruct Hp as (-> & -> & ?). left. cbn.
        split; [lia|]. split; [lia|done].
      * destruct Hp as (f0 & -> & Hl & ?). left. cbn.
        split; [lia|]. split; [lia|done].
      * right. by apply looping_snoc.
  - destruct H as (ph & Hm & _ & ->). rewrite Hm in Hp. cbn.
    rewrite app_nil_r. split; [done|]. destruct ph.
    + done.
    + destruct Hp as (f & -> & -> & ?). eauto.
    + destruct Hp as [(f1 & f2 & Hr & Hl & -> & ?)|Hp];
        [|by apply looping_snoc].
      exists f1, f2, []. rewrite reads_snoc, sends_snoc, app_nil_r.
      split; [done|].
      destruct (sends ls) as [|x [|y t]]; cbn in Hl; try lia. done.
  - subst s'. cbn. rewrite !app_nil_r. split; [done|].
    destruct (main s) as [[]|r0 []| |]; same_phase Hp.
  - destruct H as (tag & fid & until & Hi & _ & ->). cbn.
    rewrite !app_nil_r. split.
    { intros k b [_ Hk]%lookup_delete_Some. eauto. }
    assert (Hne : clunkers s ≠ []) by (intros E; by rewrite E in Hi).
    destruct (main s) as [[]|r0 []| |]; no_clunker Hp.
  - destruct H as (tag & Hi & -> & _ & ->). cbn.
    rewrite !app_nil_r. split; [done|].
    assert (Hne : clunkers s ≠ []) by (intros E; by rewrite E in Hi).
    destruct (main s) as [[]|r0 []| |]; no_clunker Hp.
  - destruct H as (_ & _ & ->). cbn. rewrite !app_nil_r.
    split; [done|]. destruct (main s) as [[]|r0 []| |]; same_phase Hp.
  - subst s'. cbn. rewrite !app_nil_r. split; [done|].
    destruct (main s) as [[]|r0 []| |]; same_phase Hp.
  - destruct H as (rest & _ & _ & _ & ->). cbn. rewrite !app_nil_r.
    split; [done|]. destruct (main s) as [[]|r0 []| |]; same_phase Hp.
Qed.

Lemma boot_inv_init (d : Z) : boot_inv [] (init d).
Proof.
  split; [|done]. intros k b H. cbn in H. by apply lookup_empty_Some in H.
Qed.

Lemma boot_inv_run (ls pre : list label) (s s' : proxyServer) :
  boot_inv pre s → run ls s = Some s' → boot_inv (pre ++ ls) s'.
Proof.
  revert pre s. induction ls as [|l ls IH]; intros pre s Hi H.
  - injection H as <-. by rewrite app_nil_r.
  - simpl in H. destruct (step l s) as [s1|] eqn:Hs; [|done].
    rewrite (assoc_L _ pre [l] ls : pre ++ l :: ls = (pre ++ [l]) ++ ls).
    eapply IH; [|done]. by eapply boot_inv_step.
Qed.

(** X1.  On every connection the second response [serve] hands to
    [s.send] answers the second request read, whatever the type of that
    request: it is an [Rattach] with the tag of the request and a qid of
    type [QTDIR]. *)
Theorem second_response_is_rattach (d : Z) (ls : list label)
    (s : proxyServer) (r : Fcall) :
  run ls (init d) = Some s →
  sends ls !! 1 = Some r →
  ∃ f, reads ls !! 1 = Some f
       ∧ r = rattach f
       ∧ Typ r = Rattach ∧ Tag r = Tag f
       ∧ Qid_ r = {| Path := 0; Vers := 0; QTyp := QTDIR |}.
Proof.
  intros Hrun Hr.
  destruct (boot_inv_run _ _ _ _ (boot_inv_init d) Hrun) as [_ Hp].
  cbn [app] in Hp.
  assert (Hlen : 1 < length (sends ls)) by by eapply lookup_lt_Some.
  assert (Hlo : looping ls).
  { destruct (main s) as [[]|r0 []| |]; try done.
    - destruct Hp as (_ & E & _). rewrite E in Hlen. cbn in Hlen. lia.
    - destruct Hp as (? & _ & E & _). lia.
    - destruct Hp as (? & _ & E & _). rewrite E in Hlen. cbn in Hlen. lia.
    - destruct Hp as [(? & ? & _ & E & _)|Hp]; [lia|done].
    - destruct Hp as [(_ & E & _)|Hp]; [lia|done]. }
  destruct Hlo as (f1 & f2 & rest & Hrd & Hs).
  rewrite Hs in Hr. injection Hr as <-.
  exists f2. by rewrite Hrd.
Qed.

Lemma second_response_is_rattach_witness :
  ∃ s f,
    run open_first (init (5 * ms)) = Some s
    ∧ reads open_first !! 1 = Some f ∧ Typ f = Topen
    ∧ sends open_first !! 1 = Some (rattach f).
Proof.
  assert (H : ∃ s, run open_first (init (5 * ms)) = Some s).
  { eexists. vm_compute. reflexivity. }
  destruct H as [s H].
  assert (Hs : sends open_first !! 1 = Some (rattach (topen 3 7 0))).
  { vm_compute. reflexivity. }
  destruct (second_response_is_rattach _ _ _ _ H Hs) as (f & Hf & Hr & _).
  exists s, f. split; [exact H|]. split; [exact Hf|].
  split; [|by rewrite <- Hr].
  vm_compute in Hf. by injection Hf as <-.
Defined.

(** X2.  The table of the proxy holds only what the requests read put
    there: every entry has the value [true], and its key is the [Fid] of
    the second request read or the [Newfid] of a [Twalk] read after it. *)
Theorem table_entries_entered (d : Z) (ls : list label) (s : proxyServer)
    (k : N) (b : bool) :
  run ls (init d) = Some s →
  fids s !! k = Some b →
  b = true ∧ k ∈ entered (reads ls).
Proof.
  intros Hrun. by apply (boot_inv_run _ _ _ _ (boot_inv_init d) Hrun).
Qed.

Lemma table_entries_entered_witness :
  ∃ s,
    run open_first (init (5 * ms)) = Some s
    ∧ fids s !! 7%N = Some true
    ∧ 7%N ∈ entered (reads open_first).
Proof.
  assert (H : ∃ s, run open_first (init (5 * ms)) = Some s
                   ∧ fids s !! 7%N = Some true).
  { eexists. split; vm_compute; reflexivity. }
  destruct H as (s & H & Hk). exists s. split; [exact H|].
  split; [exact Hk|].
  by destruct (table_entries_entered _ _ _ _ _ H Hk).
Defined.

(** ** The form of the responses *)

Lemma serve_sleepers_clunk (ph : phase) (r : option Fcall)
    (s : proxyServer) (c : clunker) :
  c ∈ clunkers (serve ph r s) →
  c ∈ clunkers s
  ∨ ∃ f, r = Some f ∧ Typ f = Tclunk
         ∧ c = Sleeping (Tag f) (Fid f) (now s + clunkDelay s).
Proof.
  destruct r as [f|]; [|by left]. destruct ph; try (by left).
  cbn [serve]. unfold serve_walk.
  destruct (Typ f) eqn:Hty, (walk_dup (fids s) f), (clunkSeen s); cbn;
    try (by left); rewrite elem_of_app, list_elem_of_singleton;
    intros [?|?]; eauto.
Qed.

Lemma answered_in_snoc (ls : list label) (l : label) (r : Fcall) :
  answered_in ls r → answered_in (ls ++ [l]) r.
Proof.
  intros (f & Hin & Hr). exists f. split; [|done].
  rewrite reads_snoc. apply elem_of_app. by left.
Qed.

Lemma serve_replies (ph : phase) (f : Fcall) (s : proxyServer) (r : Fcall)
    (ph' : phase) :
  main (serve ph (Some f) s) = AtSend r ph' → r ∈ replies f.
Proof.
  unfold replies. destruct ph; cbn [serve].
  - intros [= <- _]. apply elem_of_cons. by left.
  - intros [= <- _]. apply elem_of_cons. right. apply elem_of_cons. by left.
  - unfold serve_walk.
    destruct (Typ f), (walk_dup (fids s) f), (clunkSeen s); cbn;
      intros [= <- _]; set_solver.
Qed.

Lemma shape_inv_step (ls : list label) (s s' : proxyServer) (l : label) :
  shape_inv ls s → step l s = Some s' → shape_inv (ls ++ [l]) s'.
Proof.
  intros [Hs Hm Hc] H. apply step_inv in H as [_ H].
  assert (Hmono : Forall (answered_in (ls ++ [l])) (sends ls)).
  { eapply Forall_impl; [exact Hs|]. intros r. apply answered_in_snoc. }
  assert (Hcmono : ∀ c tag, c ∈ clunkers s → clunker_tag c = Some tag →
            ∃ f, f ∈ reads (ls ++ [l]) ∧ Typ f = Tclunk ∧ Tag f = tag).
  { intros c tag Hin Ht. destruct (Hc c tag Hin Ht) as (f & Hf & ?).
    exists f. split; [|done]. rewrite reads_snoc. apply elem_of_app.
    by left. }
  destruct l.
  - destruct H as (ph & Hph & ->). split.
    + rewrite sends_snoc, app_nil_r. exact Hmono.
    + intros r0 ph' Hr0. destruct r as [f|]; [|done].
      exists f. split; [|by eapply serve_replies].
      rewrite reads_snoc. apply elem_of_app. right.
      apply list_elem_of_singleton. done.
    + intros c tag [Hin|(f & -> & Hty & ->)]%serve_sleepers_clunk Ht.
      * by eapply Hcmono.
      * injection Ht as <-. exists f. split; [|done].
        rewrite reads_snoc. apply elem_of_app. right.
        by apply list_elem_of_singleton.
  - destruct H as (ph & Hph & _ & ->). split; cbn.
    + rewrite sends_snoc. apply Forall_app. split; [done|].
      apply Forall_singleton, answered_in_snoc. by eapply Hm.
    + done.
    + exact Hcmono.
  - subst s'. split; cbn.
    + by rewrite sends_snoc, app_nil_r.
    + intros r ph Hr. apply answered_in_snoc. by eapply Hm.
    + exact Hcmono.
  - destruct H as (tag & fid & until & Hi & _ & ->). split; cbn.
    + by rewrite sends_snoc, app_nil_r.
    + intros r ph Hr. apply answered_in_snoc. by eapply Hm.
    + intros c t [->|Hin]%elem_of_insert_inv Ht; [|by eapply Hcmono].
      injection Ht as <-.
      eapply (Hcmono (Sleeping tag fid until)); [|done].
      by eapply list_elem_of_lookup_2.
  - destruct H as (tag & Hi & -> & _ & ->). split; cbn.
    + rewrite sends_snoc. apply Forall_app. split; [done|].
      apply Forall_singleton.
      destruct (Hcmono (Woken tag) tag) as (f & Hf & Hty & <-);
        [by eapply list_elem_of_lookup_2|done|].
      exists f. split; [done|]. unfold replies. rewrite Hty. set_solver.
    + intros r ph Hr. apply answered_in_snoc. by eapply Hm.
    + intros c t [->|Hin]%elem_of_insert_inv Ht; [done|by eapply Hcmono].
  - destruct H as (_ & _ & ->). split; cbn.
    + by rewrite sends_snoc, app_nil_r.
    + intros r0 ph Hr. apply answered_in_snoc. by eapply Hm.
    + exact Hcmono.
  - subst s'. split; cbn.
    + by rewrite sends_snoc, app_nil_r.
    + intros r ph Hr. apply answered_in_snoc. by eapply Hm.
    + exact Hcmono.
  - destruct H as (rest & _ & _ & _ & ->). split; cbn.
    + by rewrite sends_snoc, app_nil_r.
    + intros r0 ph Hr. apply answered_in_snoc. by eapply Hm.
    + exact Hcmono.
Qed.

Lemma shape_inv_init (d : Z) : shape_inv [] (init d).
Proof.
  split; cbn; [constructor|done|]. by intros c tag ?%elem_of_nil.
Qed.

Lemma shape_inv_run (ls pre : list label) (s s' : proxyServer) :
  shape_inv pre s → run ls s = Some s' → shape_inv (pre ++ ls) s'.
Proof.
  revert pre s. induction ls as [|l ls IH]; intros pre s Hi H.
  - injection H as <-. by rewrite app_nil_r.
  - simpl in H. destruct (step l s) as [s1|] eqn:Hs; [|done].
    rewrite (assoc_L _ pre [l] ls : pre ++ l :: ls = (pre ++ [l]) ++ ls).
    eapply IH; [|done]. by eapply shape_inv_step.
Qed.

Lemma replies_shape (f r : Fcall) :
  r ∈ replies f →
  (Typ r = Rerror →
   Tag r = Tag f
   ∧ ((Ename r = "duplicate fid" ∧ Typ f = Twalk)
      ∨ (Ename r = "not supported"
         ∧ Typ f ≠ Twalk ∧ Typ f ≠ Topen ∧ Typ f ≠ Tclunk)))
  ∧ (Typ r = Ropen →
     Typ f = Topen ∧ Tag r = Tag f
     ∧ Qid_ r = {| Path := 1; Vers := 0; QTyp := QTFILE |})
  ∧ (Typ r = Rclunk → Typ f = Tclunk ∧ r = rclunk (Tag f))
  ∧ (Typ r = Rwalk → Typ f = Twalk ∧ r = rwalk f)
  ∧ Typ r ∈ [Rversion; Rattach; Rwalk; Ropen; Rclunk; Rerror].
Proof.
  unfold replies. rewrite elem_of_app, !elem_of_cons, elem_of_nil.
  intros [[->|[->|[]]]|H].
  - cbn. repeat split; try done. set_solver.
  - cbn. repeat split; try done. set_solver.
  - destruct (Typ f) eqn:Hty;
      repeat (apply elem_of_cons in H as [->|H]);
      try (by apply elem_of_nil in H);
      cbn; (repeat split; try done; try set_solver);
      intros _; split; try done; eauto.
Qed.

(** X3.  Every response handed to [s.send] answers a request that was
    read, in one of the fixed forms of [serve]: an [Rerror] carries the tag
    of the request and the text "duplicate fid" (to a [Twalk]) or "not
    supported" (to a request that is no [Twalk], [Topen] or [Tclunk]); an
    [Ropen] answers a [Topen] with the qid of a file of path 1; an [Rclunk]
    answers a [Tclunk] and an [Rwalk] a [Twalk]. *)
Theorem responses_have_fixed_shapes (d : Z) (ls : list label)
    (s : proxyServer) (r : Fcall) :
  run ls (init d) = Some s →
  r ∈ sends ls →
  ∃ f,
    f ∈ reads ls ∧ r ∈ replies f
    ∧ (Typ r = Rerror →
       Tag r = Tag f
       ∧ ((Ename r = "duplicate fid" ∧ Typ f = Twalk)
          ∨ (Ename r = "not supported"
             ∧ Typ f ≠ Twalk ∧ Typ f ≠ Topen ∧ Typ f ≠ Tclunk)))
    ∧ (Typ r = Ropen →
       Typ f = Topen ∧ Tag r = Tag f
       ∧ Qid_ r = {| Path := 1; Vers := 0; QTyp := QTFILE |})
    ∧ (Typ r = Rclunk → Typ f = Tclunk ∧ r = rclunk (Tag f))
    ∧ (Typ r = Rwalk → Typ f = Twalk ∧ r = rwalk f)
    ∧ Typ r ∈ [Rversion; Rattach; Rwalk; Ropen; Rclunk; Rerror].
Proof.
  intros Hrun Hr.
  destruct (shape_inv_run _ _ _ _ (shape_inv_init d) Hrun) as [Hs _ _].
  cbn [app] in Hs. rewrite Forall_forall in Hs.
  destruct (Hs r Hr) as (f & Hf & Hrep).
  exists f. split; [done|]. split; [done|]. by apply replies_shape.
Qed.

Lemma responses_have_fixed_shapes_witness :
  ∃ s f,
    run open_first (init (5 * ms)) = Some s
    ∧ f ∈ reads open_first
    ∧ rattach (topen 3 7 0) ∈ replies f.
Proof.
  assert (H : ∃ s, run open_first (init (5 * ms)) = Some s).
  { eexists. vm_compute. reflexivity. }
  destruct H as [s H].
  assert (Hs : sends open_first
               = [rversion (tversion 8192); rattach (topen 3 7 0)]).
  { vm_compute. reflexivity. }
  destruct (responses_have_fixed_shapes _ _ _ (rattach (topen 3 7 0)) H)
    as (f & Hf & Hr & _).
  { rewrite Hs. apply elem_of_cons. right. apply elem_of_cons. by left. }
  by exists s, f.
Defined.

(** ** The channel [out] and [sender] *)

Lemma out_bound_step (l : label) (s s' : proxyServer) :
  step l s = Some s' →
  length (out s) ≤ out_cap → length (out s') ≤ out_cap.
Proof.
  intros H Hb. apply step_inv in H as [_ H]. destruct l.
  - destruct H as (ph & _ & ->).
    by destruct (serve_out ph r s) as (-> & _).
  - destruct H as (ph & _ & Hl & ->). cbn. rewrite length_app. cbn. lia.
  - by subst s'.
  - by destruct H as (tag & fid & until & _ & _ & ->).
  - destruct H as (tag & _ & _ & Hl & ->). cbn. rewrite length_app. cbn. lia.
  - by destruct H as (_ & _ & ->).
  - by subst s'.
  - destruct H as (rest & Ho & _ & _ & ->). rewrite Ho in Hb. cbn in *. lia.
Qed.

Lemma out_bound_run (ls : list label) (s s' : proxyServer) :
  run ls s = Some s' →
  length (out s) ≤ out_cap → length (out s') ≤ out_cap.
Proof.
  revert s. induction ls as [|l ls IH]; intros s H Hb.
  - by injection H as <-.
  - simpl in H. destruct (step l s) as [s1|] eqn:Hs; [|done].
    eapply IH; [done|]. by eapply out_bound_step.
Qed.

(** X4.  As long as no write has failed, [sender] loses and reorders
    nothing: the frames written, followed by the frame [sender] has
    received and is writing and by the content of the channel, are the
    responses handed to [s.send], in their order.  So at most 65 responses
    are handed over and not written: the 64 places of the channel and the
    one frame in the hand of [sender]. *)
Theorem sender_keeps_order (d : Z) (ls : list label) (s : proxyServer) :
  run ls (init d) = Some s →
  sender s = true →
  sends ls = writes ls ++ option_list (hand s) ++ out s
  ∧ length (sends ls) ≤ length (writes ls) + S out_cap.
Proof.
  intros Hrun Hs.
  pose proof (ti_out _ _ (trace_inv_run _ _ _ _ (trace_inv_init d) Hrun) Hs)
    as Ho.
  cbn [app] in Ho. unfold unwritten in Ho. split; [exact Ho|].
  assert (Hb : length (out s) ≤ out_cap).
  { apply (out_bound_run _ _ _ Hrun). cbn. unfold out_cap. lia. }
  rewrite Ho, !length_app. destruct (hand s); cbn; lia.
Qed.

Lemma sender_keeps_order_witness :
  ∃ s,
    run (backlog 64) (init (5 * ms)) = Some s
    ∧ sender s = true
    ∧ sends (backlog 64)
      = writes (backlog 64) ++ option_list (hand s) ++ out s
    ∧ length (sends (backlog 64)) = length (writes (backlog 64)) + 65
    ∧ run (backlog 65) (init (5 * ms)) = None.
Proof.
  assert (H : ∃ s, run (backlog 64) (init (5 * ms)) = Some s
                   ∧ sender s = true).
  { eexists. split; vm_compute; reflexivity. }
  destruct H as (s & H & Hs). exists s. split; [exact H|].
  split; [exact Hs|].
  destruct (sender_keeps_order _ _ _ H Hs) as [Ho _].
  split; [exact Ho|]. split; vm_compute; reflexivity.
Defined.

Lemma writes_none (ls : list label) :
  (∀ r ok, Write r ok ∉ ls) → writes ls = [].
Proof.
  induction ls as [|l ls IH]; intros Hn; [done|].
  assert (Hn' : ∀ r ok, Write r ok ∉ ls).
  { intros r ok Hin. apply (Hn r ok). by right. }
  specialize (IH Hn'). unfold writes in *.
  destruct l as [| | | | |r0 ok| |]; try done.
  exfalso. apply (Hn r0 ok). by left.
Qed.

Lemma sender_failed_step (l : label) (s s' : proxyServer) :
  sender s = false → step l s = Some s' →
  sender s' = false ∧ hand s' = hand s
  ∧ (∀ r ok, l ≠ Write r ok) ∧ (∀ r, l ≠ Take r)
  ∧ out s' = out s ++ sends [l].
Proof.
  intros Hs H. apply step_inv in H as [_ H]. destruct l.
  - destruct H as (ph & _ & ->). rewrite serve_hand.
    destruct (serve_out ph r s) as (-> & -> & _).
    by rewrite app_nil_r.
  - by destruct H as (ph & _ & _ & ->).
  - subst s'. cbn. by rewrite app_nil_r.
  - destruct H as (tag & fid & until & _ & _ & ->). cbn.
    by rewrite app_nil_r.
  - by destruct H as (tag & _ & _ & _ & ->).
  - destruct H as (_ & Hs' & _). congruence.
  - subst s'. cbn. by rewrite app_nil_r.
  - destruct H as (rest & _ & _ & Hs' & _). congruence.
Qed.

Lemma sender_failed_run (ls : list label) (s s' : proxyServer) :
  sender s = false → run ls s = Some s' →
  sender s' = false ∧ hand s' = hand s
  ∧ (∀ r ok, Write r ok ∉ ls) ∧ (∀ r, Take r ∉ ls)
  ∧ out s' = out s ++ sends ls.
Proof.
  revert s. induction ls as [|l ls IH]; intros s Hs H.
  - injection H as <-. rewrite app_nil_r.
    repeat split; try done; intros; apply not_elem_of_nil.
  - simpl in H. destruct (step l s) as [s1|] eqn:Hst; [|done].
    destruct (sender_failed_step _ _ _ Hs Hst) as (Hs1 & Hh & Hn & Hk & Ho).
    destruct (IH _ Hs1 H) as (Hs' & Hh' & Hw & Ht & Ho').
    split; [done|]. split; [congruence|]. split; [|split].
    + intros r ok [E|Hin]%elem_of_cons; [by eapply Hn|by eapply Hw].
    + intros r [E|Hin]%elem_of_cons; [by eapply Hk|by eapply Ht].
    + rewrite Ho', Ho, <- (assoc_L (++)). f_equal.
      change (l :: ls) with ([l] ++ ls). unfold sends.
      by rewrite omap_app.
Qed.

(** X5.  When a write fails, [sender] returns.  The frame it was writing
    had left the channel and is lost: it was handed to [s.send] and is
    never written.  From then on [sender] receives and writes nothing,
    every later response stays in the channel, and no more can be handed
    to [s.send] than the channel has places left. *)
Theorem write_error_stops_sender (d : Z) (pre ls : list label)
    (s s1 s2 : proxyServer) (r : Fcall) :
  run pre (init d) = Some s →
  step (Write r false) s = Some s1 →
  run ls s1 = Some s2 →
  hand s = Some r
  ∧ sends pre = writes pre ++ r :: out s
  ∧ writes (pre ++ Write r false :: ls) = writes pre
  ∧ sender s2 = false ∧ hand s2 = None
  ∧ (∀ r' ok, Write r' ok ∉ ls) ∧ (∀ r', Take r' ∉ ls)
  ∧ out s2 = out s ++ sends ls
  ∧ length (out s) + length (sends ls) ≤ out_cap.
Proof.
  intros Hpre Hw Hrun.
  assert (Hb : length (out s2) ≤ out_cap).
  { apply (out_bound_run _ _ _ Hrun), (out_bound_step _ _ _ Hw),
      (out_bound_run _ _ _ Hpre). cbn. unfold out_cap. lia. }
  pose proof (ti_out _ _ (trace_inv_run _ _ _ _ (trace_inv_init d) Hpre))
    as Ho.
  apply step_inv in Hw as [_ (Hh & Hs & ->)].
  specialize (Ho Hs). cbn [app] in Ho. unfold unwritten in Ho.
  rewrite Hh in Ho. cbn in Ho.
  destruct (sender_failed_run ls (set_sender false (set_hand None s)) s2
              eq_refl Hrun) as (Hs2 & Hh2 & Hn & Hk & Ho2).
  cbn in Ho2, Hh2. rewrite Ho2, length_app in Hb.
  split; [done|]. split; [done|]. split; [|by repeat split].
  assert (Happ : writes (pre ++ Write r false :: ls)
                 = writes pre ++ writes ls).
  { unfold writes. by rewrite omap_app. }
  rewrite Happ, (writes_none ls Hn). by rewrite app_nil_r.
Qed.

Lemma write_error_stops_sender_witness :
  ∃ s1 s2,
    run greeting (init (5 * ms)) = Some greeted
    ∧ step (Write (rversion (tversion 8192)) false) greeted = Some s1
    ∧ run [Read (Some (tattach 1 0 "nobody" ""));
           Send (rattach (tattach 1 0 "nobody" ""))] s1 = Some s2
    ∧ sender s2 = false
    ∧ out s2 = [rattach (tattach 1 0 "nobody" "")]
    ∧ sends greeting = [rversion (tversion 8192)]
    ∧ writes greeting = [].
Proof.
  assert (H : ∃ s1 s2,
    step (Write (rversion (tversion 8192)) false) greeted = Some s1
    ∧ run [Read (Some (tattach 1 0 "nobody" ""));
           Send (rattach (tattach 1 0 "nobody" ""))] s1 = Some s2).
  { eexists. eexists. split; vm_compute; reflexivity. }
  destruct H as (s1 & s2 & Hw & Hrun). exists s1, s2.
  assert (Hpre : run greeting (init (5 * ms)) = Some greeted).
  { vm_compute. reflexivity. }
  destruct (write_error_stops_sender _ _ _ _ _ _ _ Hpre Hw Hrun)
    as (_ & _ & _ & Hs & _ & _ & _ & Ho & _).
  repeat split; try done.
Defined.

Lemma returned_step (l : label) (s s' : proxyServer) :
  main s = Returned → step l s = Some s' →
  main s' = Returned
  ∧ (∀ r, l ≠ Read r) ∧ (∀ r, l ≠ Send r)
  ∧ fids s' ⊆ fids s
  ∧ Forall (fun r => Typ r = Rclunk) (sends [l])
  ∧ length (clunkers s') = length (clunkers s).
Proof.
  intros Hm H. apply step_inv in H as [_ H]. destruct l.
  - destruct H as (ph & E & _). congruence.
  - destruct H as (ph & E & _). congruence.
  - subst s'. by repeat split.
  - destruct H as (tag & fid & until & _ & _ & ->). cbn.
    repeat split; try done; [apply delete_subseteq|].
    by rewrite length_insert.
  - destruct H as (tag & _ & -> & _ & ->). cbn.
    repeat split; try done; [by apply Forall_singleton|].
    by rewrite length_insert.
  - destruct H as (_ & _ & ->). by repeat split.
  - subst s'. by repeat split.
  - destruct H as (rest & _ & _ & _ & ->). by repeat split.
Qed.

Lemma returned_run (ls : list label) (s s' : proxyServer) :
  main s = Returned → run ls s = Some s' →
  main s' = Returned
  ∧ (∀ r, Read r ∉ ls) ∧ (∀ r, Send r ∉ ls)
  ∧ fids s' ⊆ fids s
  ∧ Forall (fun r => Typ r = Rclunk) (sends ls)
  ∧ length (clunkers s') = length (clunkers s).
Proof.
  revert s. induction ls as [|l ls IH]; intros s Hm H.
  - injection H as <-. repeat split; try done;
      intros r; apply not_elem_of_nil.
  - simpl in H. destruct (step l s) as [s1|] eqn:Hst; [|done].
    destruct (returned_step _ _ _ Hm Hst) as (Hm1 & Hr & Hs & Hf & Ht & Hc).
    destruct (IH _ Hm1 H) as (Hm' & Hr' & Hs' & Hf' & Ht' & Hc').
    split; [done|]. split; [|split; [|split; [|split]]].
    + intros r [E|Hin]%elem_of_cons; [by eapply Hr|by eapply Hr'].
    + intros r [E|Hin]%elem_of_cons; [by eapply Hs|by eapply Hs'].
    + by etrans.
    + change (l :: ls) with ([l] ++ ls). unfold sends.
      rewrite omap_app. by apply Forall_app.
    + congruence.
Qed.

(** X6.  When [s.read()] fails, [serve] returns: it reads and sends
    nothing more and enters no fid.  The goroutines of earlier clunks go
    on: the table can only lose entries, and the only responses still
    sent are their [Rclunk]s. *)
Theorem failed_read_ends_serve (ph : phase) (s s1 s2 : proxyServer)
    (ls : list label) :
  main s = AtRead ph →
  step (Read None) s = Some s1 →
  run ls s1 = Some s2 →
  main s2 = Returned
  ∧ (∀ r, Read r ∉ ls) ∧ (∀ r, Send r ∉ ls)
  ∧ fids s2 ⊆ fids s
  ∧ Forall (fun r => Typ r = Rclunk) (sends ls)
  ∧ length (clunkers s2) = length (clunkers s).
Proof.
  intros Hm Hst Hrun. rewrite (step_read _ _ _ Hm) in Hst.
  injection Hst as <-.
  by apply (returned_run ls (serve ph None s) s2 eq_refl Hrun).
Qed.

Lemma failed_read_ends_serve_witness :
  ∃ s2,
    run [Read None; Tick 5000000; Wake 0; Reply 0 (rclunk 1)] clunked
    = Some s2
    ∧ main s2 = Returned
    ∧ fids s2 ⊆ fids clunked.
Proof.
  assert (H : ∃ s1 s2,
            step (Read None) clunked = Some s1
            ∧ run [Tick 5000000; Wake 0; Reply 0 (rclunk 1)] s1 = Some s2).
  { eexists. eexists. split; vm_compute; reflexivity. }
  destruct H as (s1 & s2 & Hst & Hrun). exists s2.
  destruct (failed_read_ends_serve InLoop clunked s1 s2 _
              ltac:(vm_compute; reflexivity) Hst Hrun)
    as (Hm & _ & _ & Hf & _).
  split; [|by split]. cbn [run]. by rewrite Hst.
Defined.

(** ** Clunks and walks together *)

Lemma serve_clunk (s : proxyServer) (f : Fcall) :
  Typ f = Tclunk → clunkSeen s ≠ ChanNil →
  serve InLoop (Some f) s
  = set_main (AtRead InLoop)
      (set_clunkers
         (clunkers s ++ [Sleeping (Tag f) (Fid f) (now s + clunkDelay s)])
         (set_clunkSeen ChanClosed s)).
Proof. intros Hty Hc. cbn [serve]. rewrite Hty. by destruct (clunkSeen s). Qed.

Lemma serve_walk_new (s : proxyServer) (g : Fcall) :
  Typ g = Twalk → walk_dup (fids s) g = false →
  serve InLoop (Some g) s
  = set_main (AtSend (rwalk g) InLoop)
      (set_fids (<[Newfid g := true]> (fids s)) s).
Proof.
  intros Hty Hd. cbn [serve]. rewrite Hty. unfold serve_walk. by rewrite Hd.
Qed.

Lemma serve_walk_dup (s : proxyServer) (g : Fcall) :
  Typ g = Twalk → walk_dup (fids s) g = true →
  serve InLoop (Some g) s
  = set_main (AtSend (rerror g "duplicate fid") InLoop)
      (set_fids (fids s) s).
Proof.
  intros Hty Hd. cbn [serve]. rewrite Hty. unfold serve_walk. by rewrite Hd.
Qed.

Lemma live_insert_eq (m : gmap N bool) (k : N) :
  live (<[k := true]> m) k = true.
Proof. unfold live. by rewrite lookup_insert_eq. Qed.

Lemma step_tick (d : N) (s : proxyServer) :
  main s ≠ Panicked →
  step (Tick d) s = Some (set_now (now s + Z.of_N d) s).
Proof. intros Hm. unfold step. by destruct (main s). Qed.

Lemma step_wake (i : nat) (tag fid : N) (until : Z) (s : proxyServer) :
  main s ≠ Panicked →
  clunkers s !! i = Some (Sleeping tag fid until) → (until ≤ now s)%Z →
  step (Wake i) s
  = Some (set_clunkers (<[i := Woken tag]> (clunkers s))
            (set_fids (delete fid (fids s)) s)).
Proof.
  intros Hm Hi Hu. unfold step. rewrite Hi, decide_True by done.
  by destruct (main s).
Qed.

Lemma step_reply (i : nat) (tag : N) (s : proxyServer) :
  main s ≠ Panicked →
  clunkers s !! i = Some (Woken tag) → length (out s) < out_cap →
  step (Reply i (rclunk tag)) s
  = Some (set_clunkers (<[i := Exited]> (clunkers s))
            (set_out (out s ++ [rclunk tag]) s)).
Proof.
  intros Hm Hi Hl. unfold step, send. rewrite Hi.
  rewrite !decide_True by done. by destruct (main s).
Qed.

(** X7.  A fid reused too early is caught.  When the proxy has read a
    [Tclunk] of a fid [F] that is in its table and that no earlier clunk
    is about to delete, then until [clunkDelay] has passed every [Twalk]
    from another fid to the new fid [F] is answered "duplicate fid", and
    leaves the table as it is. *)
Theorem premature_reuse_detected (s1 s2 s3 : proxyServer) (f g : Fcall)
    (ls : list label) :
  main s1 = AtRead InLoop → Typ f = Tclunk → clunkSeen s1 ≠ ChanNil →
  live (fids s1) (Fid f) = true →
  (∀ tag until, Sleeping tag (Fid f) until ∉ clunkers s1) →
  step (Read (Some f)) s1 = Some s2 →
  run ls s2 = Some s3 →
  (now s3 < now s1 + clunkDelay s1)%Z →
  main s3 = AtRead InLoop →
  Typ g = Twalk → Newfid g = Fid f → Fid g ≠ Fid f →
  ∃ s4,
    step (Read (Some g)) s3 = Some s4
    ∧ main s4 = AtSend (rerror g "duplicate fid") InLoop
    ∧ fids s4 = fids s3.
Proof.
  intros Hm Hty Hseen Hlive Hfree Hstep Hrun Hlt Hm3 Htg Hn Hne.
  rewrite (step_read _ _ _ Hm), (serve_clunk _ _ Hty Hseen) in Hstep.
  injection Hstep as <-.
  assert (Hw : waiting (Fid f) (now s1 + clunkDelay s1) s3).
  { eapply waiting_run; [|exact Hrun]. split; cbn.
    - intros tag until. rewrite elem_of_app, list_elem_of_singleton.
      intros [Hin|[= _ ->]]; [by apply Hfree in Hin|done].
    - done.
    - done. }
  destruct Hw as [_ _ Hl]. specialize (Hl Hlt).
  assert (Hd : walk_dup (fids s3) g = true).
  { apply walk_dup_true. rewrite Hn. split; [done|congruence]. }
  rewrite (step_read _ _ _ Hm3), (serve_walk_dup _ _ Htg Hd). eauto.
Qed.

Lemma premature_reuse_detected_witness :
  ∃ s4,
    step (Read (Some (twalk 2 0 1 ["file"]))) (set_now 4000000 clunked)
    = Some s4
    ∧ main s4 = AtSend (rerror (twalk 2 0 1 ["file"]) "duplicate fid") InLoop
    ∧ fids s4 = fids (set_now 4000000 clunked).
Proof.
  apply (premature_reuse_detected walked clunked (set_now 4000000 clunked)
           (tclunk 1 1) (twalk 2 0 1 ["file"]) [Tick 4000000]);
    try (vm_compute; reflexivity); try done.
  intros tag until. apply not_elem_of_nil.
Defined.

(** X8.  The goroutine of a clunk deletes the fid before it sends the
    [Rclunk]: once it woke up, a [Twalk] to that fid as new fid is accepted
    with an [Rwalk] and enters the fid again, while the [Rclunk] has not
    yet been handed to [s.send]. *)
Theorem reuse_accepted_once_deleted (s s1 : proxyServer) (i : nat)
    (tag F : N) (until : Z) (g : Fcall) :
  clunkers s !! i = Some (Sleeping tag F until) →
  step (Wake i) s = Some s1 →
  main s1 = AtRead InLoop → Typ g = Twalk → Newfid g = F →
  ∃ s2,
    step (Read (Some g)) s1 = Some s2
    ∧ main s2 = AtSend (rwalk g) InLoop
    ∧ live (fids s2) F = true
    ∧ clunkers s2 !! i = Some (Woken tag)
    ∧ out s2 = out s.
Proof.
  intros Hi Hw Hm Hty Hn.
  apply step_inv in Hw as [_ (tag' & fid & until' & Hi' & _ & ->)].
  rewrite Hi in Hi'. injection Hi' as <- <- <-.
  assert (Hd : walk_dup
                 (fids (set_clunkers (<[i := Woken tag]> (clunkers s))
                          (set_fids (delete F (fids s)) s))) g = false).
  { unfold walk_dup. cbn. by rewrite Hn, live_delete. }
  rewrite (step_read _ _ _ Hm), (serve_walk_new _ _ Hty Hd).
  eexists. split; [done|]. cbn. rewrite Hn. split; [done|].
  split; [apply live_insert_eq|]. split; [|done].
  apply list_lookup_insert_eq. by eapply lookup_lt_Some.
Qed.

Lemma reuse_accepted_once_deleted_witness :
  ∃ s1 s2,
    step (Wake 0) (set_now 5000000 clunked) = Some s1
    ∧ step (Read (Some (twalk 2 0 1 ["file"]))) s1 = Some s2
    ∧ main s2 = AtSend (rwalk (twalk 2 0 1 ["file"])) InLoop
    ∧ clunkers s2 !! 0 = Some (Woken 1)
    ∧ out s2 = [].
Proof.
  assert (H : ∃ s1, step (Wake 0) (set_now 5000000 clunked) = Some s1
                    ∧ main s1 = AtRead InLoop).
  { eexists. split; vm_compute; reflexivity. }
  destruct H as (s1 & Hw & Hm). exists s1.
  destruct (reuse_accepted_once_deleted (set_now 5000000 clunked) s1 0
              1 1 5000000 (twalk 2 0 1 ["file"]))
    as (s2 & H1 & H2 & _ & H3 & H4); try done.
  exists s2. by repeat split.
Defined.

(** X9.  A [Tclunk] is never refused: whether or not its fid is in the
    table, once [clunkDelay] has passed its goroutine deletes the fid and
    hands an [Rclunk] with the tag of the request to [s.send].  For a fid
    that is not in the table, the table stays as it is. *)
Theorem clunk_always_answered (s : proxyServer) (f : Fcall) (d : N) :
  main s = AtRead InLoop → Typ f = Tclunk → clunkSeen s ≠ ChanNil →
  length (out s) < out_cap → (clunkDelay s ≤ Z.of_N d)%Z →
  let i := length (clunkers s) in
  ∃ s',
    run [Read (Some f); Tick d; Wake i; Reply i (rclunk (Tag f))] s
    = Some s'
    ∧ main s' = AtRead InLoop
    ∧ out s' = out s ++ [rclunk (Tag f)]
    ∧ fids s' = delete (Fid f) (fids s)
    ∧ (fids s !! Fid f = None → fids s' = fids s)
    ∧ clunkSeen s' = ChanClosed.
Proof.
  intros Hm Hty Hseen Hroom Hd i. cbn [run].
  rewrite (step_read _ _ _ Hm), (serve_clunk _ _ Hty Hseen).
  rewrite step_tick by done.
  rewrite (step_wake i (Tag f) (Fid f) (now s + clunkDelay s)%Z);
    [|done|by apply list_lookup_middle|cbn; lia].
  rewrite (step_reply i (Tag f));
    [|done| |done].
  2:{ cbn. apply list_lookup_insert_eq. rewrite length_app. cbn.
      fold i. lia. }
  eexists. split; [done|]. cbn. repeat split.
  intros Hnone. by apply delete_id.
Qed.

Lemma clunk_always_answered_witness :
  ∃ s',
    run [Read (Some (tclunk 1 9)); Tick 5000000; Wake 0;
         Reply 0 (rclunk 1)] (set_clunkSeen ChanOpen (attached (5 * ms)))
    = Some s'
    ∧ out s' = [rclunk 1]
    ∧ fids s' = fids (attached (5 * ms)).
Proof.
  destruct (clunk_always_answered
              (set_clunkSeen ChanOpen (attached (5 * ms)))
              (tclunk 1 9) 5000000)
    as (s' & H1 & _ & H2 & _ & H3 & _); try done.
  - cbn. unfold out_cap. lia.
  - exists s'. split; [exact H1|]. split; [exact H2|]. by apply H3.
Defined.

(** X10.  Walking to a fid that is not in the table enters it, and
    clunking it takes it out again: after the delay the table is what it
    was before the walk. *)
Theorem walk_then_clunk_restores (s : proxyServer) (g f : Fcall) (d : N) :
  main s = AtRead InLoop → Typ g = Twalk → Typ f = Tclunk →
  Fid f = Newfid g → fids s !! Newfid g = None →
  clunkSeen s ≠ ChanNil → length (out s) < out_cap →
  (clunkDelay s ≤ Z.of_N d)%Z →
  let i := length (clunkers s) in
  ∃ s1 s2,
    run [Read (Some g); Send (rwalk g)] s = Some s1
    ∧ live (fids s1) (Newfid g) = true
    ∧ run [Read (Some f); Tick d; Wake i] s1 = Some s2
    ∧ fids s2 = fids s.
Proof.
  intros Hm Htg Htf Hfid Hnone Hseen Hroom Hd i. cbn [run].
  assert (Hdup : walk_dup (fids s) g = false).
  { unfold walk_dup, live. by rewrite Hnone. }
  rewrite (step_read _ _ _ Hm), (serve_walk_new _ _ Htg Hdup).
  rewrite (step_send (rwalk g) InLoop) by done.
  eexists. eexists. split; [done|]. cbn [fids set_main set_out set_fids].
  split; [apply live_insert_eq|].
  rewrite (step_read InLoop) by done.
  rewrite serve_clunk by done.
  rewrite step_tick by done.
  rewrite (step_wake i (Tag f) (Fid f) (now s + clunkDelay s)%Z);
    [|done|by apply list_lookup_middle|cbn; lia].
  split; [done|]. cbn.
  rewrite Hfid. by apply delete_insert_id.
Qed.

Lemma walk_then_clunk_restores_witness :
  ∃ s1 s2,
    run [Read (Some (twalk 1 0 1 ["file"]));
         Send (rwalk (twalk 1 0 1 ["file"]))] (attached (5 * ms)) = Some s1
    ∧ run [Read (Some (tclunk 2 1)); Tick 5000000; Wake 0] s1 = Some s2
    ∧ fids s2 = fids (attached (5 * ms)).
Proof.
  destruct (walk_then_clunk_restores (attached (5 * ms))
              (twalk 1 0 1 ["file"]) (tclunk 2 1) 5000000)
    as (s1 & s2 & H1 & _ & H2 & H3); try done.
  - cbn. unfold out_cap. lia.
  - exists s1, s2. by repeat split.
Defined.

Lemma kept_step (F : N) (l : label) (s s' : proxyServer) :
  live (fids s) F = true →
  (∀ tag until, Sleeping tag F until ∉ clunkers s) →
  (∀ f, l = Read (Some f) → Typ f = Tclunk → Fid f ≠ F) →
  step l s = Some s' →
  live (fids s') F = true
  ∧ ∀ tag until, Sleeping tag F until ∉ clunkers s'.
Proof.
  intros Hl Hs Hr H. apply step_inv in H as [_ H]. destruct l.
  - destruct H as (ph & _ & ->). split; [by apply serve_live|].
    intros tag until
      [Hin|(f & -> & Hty & [= _ E _])]%serve_sleepers_clunk.
    + by eapply Hs.
    + by eapply Hr.
  - by destruct H as (ph & _ & _ & ->).
  - by subst s'.
  - destruct H as (tag & fid & until & Hi & _ & ->). cbn. split.
    + rewrite live_delete_ne; [done|]. intros ->.
      eapply Hs, list_elem_of_lookup_2, Hi.
    + intros t u [|Hin]%elem_of_insert_inv; [done|by eapply Hs].
  - destruct H as (tag & _ & _ & _ & ->). cbn. split; [done|].
    intros t u [|Hin]%elem_of_insert_inv; [done|by eapply Hs].
  - by destruct H as (_ & _ & ->).
  - by subst s'.
  - by destruct H as (rest & _ & _ & _ & ->).
Qed.

(** X11.  A fid stays in the table as long as it is not clunked: when no
    goroutine is about to delete it and no [Tclunk] of it is read, it is
    live after every run. *)
Theorem unclunked_fid_stays (F : N) (s s' : proxyServer)
    (ls : list label) :
  live (fids s) F = true →
  (∀ tag until, Sleeping tag F until ∉ clunkers s) →
  (∀ f, f ∈ reads ls → Typ f = Tclunk → Fid f ≠ F) →
  run ls s = Some s' →
  live (fids s') F = true.
Proof.
  revert s. induction ls as [|l ls IH]; intros s Hl Hs Hr H.
  - by injection H as <-.
  - simpl in H. destruct (step l s) as [s1|] eqn:Hst; [|done].
    destruct (kept_step F l s s1 Hl Hs) as [Hl1 Hs1]; [|done|].
    { intros f -> Hty. apply Hr; [|done]. cbn. apply elem_of_cons. by left. }
    apply (IH s1); try done.
    intros f Hin. apply Hr.
    change (l :: ls) with ([l] ++ ls). unfold reads. rewrite omap_app.
    apply elem_of_app. by right.
Qed.

Lemma unclunked_fid_stays_witness :
  ∃ s', run [Read (Some (tclunk 1 1)); Tick 5000000; Wake 0;
             Reply 0 (rclunk 1)] walked = Some s'
        ∧ live (fids s') 0 = true.
Proof.
  assert (H : ∃ s', run [Read (Some (tclunk 1 1)); Tick 5000000; Wake 0;
                         Reply 0 (rclunk 1)] walked = Some s').
  { eexists. vm_compute. reflexivity. }
  destruct H as [s' H]. exists s'. split; [exact H|].
  apply (unclunked_fid_stays 0 walked s'
           [Read (Some (tclunk 1 1)); Tick 5000000; Wake 0;
            Reply 0 (rclunk 1)]); [done| | |exact H].
  - intros tag until. apply not_elem_of_nil.
  - intros f ->%list_elem_of_singleton. done.
Defined.

(** ** The channel [clunkSeen] *)

Lemma serve_clunkSeen (ph : phase) (r : option Fcall) (s : proxyServer) :
  (clunkSeen (serve ph r s) = clunkSeen s
   ∧ main (serve ph r s) ≠ Panicked)
  ∨ (∃ f, r = Some f ∧ ph = InLoop ∧ Typ f = Tclunk
          ∧ ((clunkSeen s ≠ ChanNil ∧ clunkSeen (serve ph r s) = ChanClosed
              ∧ main (serve ph r s) = AtRead InLoop)
             ∨ (clunkSeen s = ChanNil ∧ clunkSeen (serve ph r s) = ChanNil
                ∧ main (serve ph r s) = Panicked))).
Proof.
  destruct r as [f|]; [|by left]. destruct ph; try (by left).
  cbn [serve]. unfold serve_walk.
  destruct (Typ f) eqn:Hty; try (by left);
    try (by destruct (walk_dup (fids s) f); left).
  right. exists f. repeat split; try done.
  destruct (clunkSeen s) eqn:E; [right|left..]; cbn; rewrite ?E;
    by repeat split.
Qed.

Lemma clunkSeen_step (l : label) (s s' : proxyServer) :
  step l s = Some s' →
  (clunkSeen s ≠ ChanNil → clunkSeen s' ≠ ChanNil ∧ main s' ≠ Panicked)
  ∧ (main s' = Panicked → ∃ f, l = Read (Some f) ∧ Typ f = Tclunk
                                ∧ main s = AtRead InLoop)
  ∧ (clunkSeen s' = ChanClosed →
     (clunkSeen s = ChanClosed ∧ l ≠ SetClunkSeen)
     ∨ ∃ f, l = Read (Some f) ∧ Typ f = Tclunk ∧ main s = AtRead InLoop).
Proof.
  intros H. apply step_inv in H as [Hnp H]. destruct l.
  - destruct H as (ph & Hm & ->).
    destruct (serve_clunkSeen ph r s)
      as [[-> Hp]|(f & -> & -> & Hty & [(Hn & -> & ->)|(Hn & -> & ->)])].
    + split; [done|]. split; [done|]. intros ?. by left.
    + split; [done|]. split; [done|]. intros _. right. eauto.
    + split; [done|]. split; [eauto|done].
  - destruct H as (ph & _ & _ & ->). cbn. repeat split; try done.
    intros ?. by left.
  - subst s'. cbn. repeat split; try done.
  - destruct H as (tag & fid & until & _ & _ & ->). cbn.
    repeat split; try done. intros ?. by left.
  - destruct H as (tag & _ & _ & _ & ->). cbn.
    repeat split; try done. intros ?. by left.
  - destruct H as (_ & _ & ->). cbn.
    repeat split; try done. intros ?. by left.
  - subst s'. cbn. repeat split; try done. intros ?. by left.
  - destruct H as (rest & _ & _ & _ & ->). cbn.
    repeat split; try done. intros ?. by left.
Qed.

Lemma clunkSeen_run (ls : list label) (s s' : proxyServer) :
  run ls s = Some s' →
  clunkSeen s ≠ ChanNil → main s ≠ Panicked →
  clunkSeen s' ≠ ChanNil ∧ main s' ≠ Panicked.
Proof.
  revert s. induction ls as [|l ls IH]; intros s H Hc Hm.
  - by injection H as <-.
  - simpl in H. destruct (step l s) as [s1|] eqn:Hs; [|done].
    destruct (clunkSeen_step _ _ _ Hs) as (H1 & _).
    destruct (H1 Hc). by eapply IH.
Qed.

(** X12.  Once [clunkSeen] holds a channel, [serve] cannot panic on
    [close(s.clunkSeen)], and [clunkSeen] is a channel ever after. *)
Theorem no_panic_once_clunkSeen_made (s s' : proxyServer)
    (ls : list label) :
  clunkSeen s ≠ ChanNil → main s ≠ Panicked →
  run ls s = Some s' →
  main s' ≠ Panicked ∧ clunkSeen s' ≠ ChanNil.
Proof.
  intros Hc Hm Hrun. by destruct (clunkSeen_run _ _ _ Hrun Hc Hm).
Qed.

Lemma no_panic_once_clunkSeen_made_witness :
  ∃ s', run [Read (Some (tclunk 1 1)); Tick 4000000;
             Read (Some (tclunk 2 1))] walked = Some s'
        ∧ main s' ≠ Panicked.
Proof.
  assert (H : ∃ s', run [Read (Some (tclunk 1 1)); Tick 4000000;
                         Read (Some (tclunk 2 1))] walked = Some s').
  { eexists. vm_compute. reflexivity. }
  destruct H as [s' H]. exists s'. split; [exact H|].
  by apply (no_panic_once_clunkSeen_made walked s' _ ltac:(done) ltac:(done) H).
Defined.

Lemma run_snoc (ls : list label) (l : label) (s s' : proxyServer) :
  run (ls ++ [l]) s = Some s' →
  ∃ s1, run ls s = Some s1 ∧ step l s1 = Some s'.
Proof.
  rewrite run_app. destruct (run ls s) as [s1|]; [|done]. cbn.
  intros H. exists s1. split; [done|]. by destruct (step l s1).
Qed.

Lemma clunkSeen_nil_run (ls : list label) (s s' : proxyServer) :
  run ls s = Some s' → main s ≠ Panicked → clunkSeen s' = ChanNil →
  SetClunkSeen ∉ ls.
Proof.
  revert s. induction ls as [|l ls IH]; intros s H Hm Hc.
  - apply not_elem_of_nil.
  - simpl in H. destruct (step l s) as [s1|] eqn:Hs; [|done].
    assert (Hd : main s1 = Panicked ∨ main s1 ≠ Panicked)
      by (destruct (main s1); eauto).
    destruct Hd as [Hp|Hp].
    { destruct ls as [|l' ls];
        [|cbn [run] in H; by rewrite (step_panicked _ _ Hp) in H].
      destruct (clunkSeen_step _ _ _ Hs) as (_ & H2 & _).
      destruct (H2 Hp) as (f & -> & _).
      by intros [?|?%elem_of_nil]%elem_of_cons. }
    intros [<-|Hin]%elem_of_cons; [|by eapply IH].
    apply step_inv in Hs as [_ ->].
    by destruct (clunkSeen_run _ _ _ H ltac:(done) Hp).
Qed.

(** X13.  The proxy panics in one case only: [serve], in its loop, reads
    a [Tclunk] while [clunkSeen] is still nil, which [close] does not
    accept.  The test has then never assigned [clunkSeen], the [Tclunk] is
    the last thing that happened, and no goroutine of the proxy takes
    another step. *)
Theorem panic_only_without_clunkSeen (d : Z) (ls : list label)
    (s : proxyServer) :
  run ls (init d) = Some s →
  main s = Panicked →
  SetClunkSeen ∉ ls
  ∧ ∃ pre f,
      ls = pre ++ [Read (Some f)] ∧ Typ f = Tclunk
      ∧ 2 ≤ length (reads pre)
      ∧ ∀ l, step l s = None.
Proof.
  intros Hrun Hp.
  destruct ls as [|l0 ls0] using rev_ind; [by injection Hrun as <-|].
  clear IHls0. apply run_snoc in Hrun as (s1 & Hpre & Hst).
  destruct (clunkSeen_step _ _ _ Hst) as (H1 & H2 & _).
  destruct (H2 Hp) as (f & -> & Hty & Hm).
  assert (Hnil : clunkSeen s = ChanNil).
  { assert (Hd : clunkSeen s1 = ChanNil ∨ clunkSeen s1 ≠ ChanNil)
      by (destruct (clunkSeen s1); eauto).
    destruct Hd as [E|E].
    - rewrite (step_read _ _ _ Hm) in Hst. injection Hst as <-.
      cbn. rewrite Hty, E. done.
    - by destruct (H1 E). }
  split.
  - eapply (clunkSeen_nil_run _ (init d) s); [|done|done].
    rewrite run_app, Hpre. cbn. by rewrite Hst.
  - exists ls0, f. repeat split; try done.
    + destruct (boot_inv_run _ _ _ _ (boot_inv_init d) Hpre) as [_ Hb].
      rewrite Hm in Hb. destruct Hb as (f1 & f2 & rest & Hr & _).
      cbn [app] in Hr. rewrite Hr. cbn. lia.
    + intros l. by apply step_panicked.
Qed.

Lemma panic_only_without_clunkSeen_witness :
  ∃ s, run (hello
              ++ answered (tattach 0 0 "nobody" "")
                   (rattach (tattach 0 0 "nobody" ""))
              ++ [Read (Some (tclunk 1 0))]) (init (5 * ms)) = Some s
       ∧ main s = Panicked
       ∧ ∀ l, step l s = None.
Proof.
  assert (H : ∃ s, run (hello
              ++ answered (tattach 0 0 "nobody" "")
                   (rattach (tattach 0 0 "nobody" ""))
              ++ [Read (Some (tclunk 1 0))]) (init (5 * ms)) = Some s
              ∧ main s = Panicked).
  { eexists. split; vm_compute; reflexivity. }
  destruct H as (s & H & Hp). exists s. split; [exact H|]. split; [exact Hp|].
  destruct (panic_only_without_clunkSeen _ _ _ H Hp)
    as (_ & pre & f & _ & _ & _ & Hn). exact Hn.
Defined.

Lemma clunkSeen_closed_run (ls : list label) (s s' : proxyServer) :
  run ls s = Some s' → clunkSeen s' = ChanClosed →
  (clunkSeen s = ChanClosed ∧ SetClunkSeen ∉ ls)
  ∨ ∃ pre f post,
      ls = pre ++ Read (Some f) :: post ∧ Typ f = Tclunk
      ∧ SetClunkSeen ∉ post.
Proof.
  revert s. induction ls as [|l ls IH]; intros s H Hc.
  - injection H as <-. left. split; [done|apply not_elem_of_nil].
  - simpl in H. destruct (step l s) as [s1|] eqn:Hs; [|done].
    destruct (IH _ H Hc) as [[Hc1 Hn]|(pre & f & post & -> & Hty & Hn)].
    + destruct (clunkSeen_step _ _ _ Hs) as (_ & _ & H3).
      destruct (H3 Hc1) as [[Hc0 Hl]|(f & -> & Hty & _)].
      * left. split; [done|].
        by intros [?|?]%elem_of_cons.
      * right. by exists [], f, ls.
    + right. by exists (l :: pre), f, post.
Qed.

(** X14.  The signal the test waits for is sound: [clunkSeen] is closed
    only if a [Tclunk] has been read since the test last assigned it a new
    channel. *)
Theorem clunkSeen_closed_by_clunk (s s' : proxyServer) (ls : list label) :
  clunkSeen s ≠ ChanClosed →
  run ls s = Some s' →
  clunkSeen s' = ChanClosed →
  ∃ pre f post,
    ls = pre ++ Read (Some f) :: post ∧ Typ f = Tclunk
    ∧ SetClunkSeen ∉ post.
Proof.
  intros Hc Hrun Hc'.
  by destruct (clunkSeen_closed_run _ _ _ Hrun Hc') as [[? _]|?].
Qed.

Lemma clunkSeen_closed_by_clunk_witness :
  clunkSeen clunked = ChanClosed
  ∧ ∃ pre f post,
      [Read (Some (tclunk 1 1))] = pre ++ Read (Some f) :: post
      ∧ Typ f = Tclunk.
Proof.
  assert (H : run [Read (Some (tclunk 1 1))] walked = Some clunked).
  { vm_compute. reflexivity. }
  assert (Hc : clunkSeen clunked = ChanClosed) by (vm_compute; reflexivity).
  split; [exact Hc|].
  destruct (clunkSeen_closed_by_clunk walked clunked _ ltac:(done) H Hc)
    as (pre & f & post & H1 & H2 & _).
  by exists pre, f, post.
Defined.

(** ** acme.Mount *)

Section AcmeMount.

Import acme.

(** C8.  On systems other than Plan 9, a call of [Mount] dials the service
    "acme" through [client.MountService] exactly once.  If the dial
    fails, [Mount] returns nil and the error of that dial; otherwise it
    returns a new [Fsys] on the connection of that dial.  Either way the
    result is decided by that one dial alone, and the package defaults
    are neither read nor written. *)
Theorem mount_dials_once (env : MountService) (w : World) :
  let r := p9p.Mount env w in
  let answer := env (length (dials w)) "acme" in
  dials (snd r) = dials w ++ ["acme"]
  ∧ defaultFsys (snd r) = defaultFsys w
  ∧ defaultErr (snd r) = defaultErr w
  ∧ defaultOnce (snd r) = defaultOnce w
  ∧ match snd answer with
    | Some e => fst r = (None, Some e) ∧ heap (snd r) = heap w
    | None =>
        fst r = (Some (length (heap w)), None)
        ∧ heap (snd r) = heap w ++ [{| fs := fst answer |}]
    end.
Proof.
  unfold p9p.Mount, dial. cbn zeta.
  destruct (env (length (dials w)) "acme") as [fs [e|]]; by cbn.
Qed.

Lemma mountAcme_mtpt (w : World) :
  let w' := plan9os.mountAcme w in
  defaultFsys w' = Some (length (heap w))
  ∧ plan9os.mtpt w' (defaultFsys w') = Some "/mnt/acme"
  ∧ length (heap w') = length (heap w) + 1
  ∧ defaultOnce w' = defaultOnce w.
Proof.
  unfold plan9os.mountAcme, plan9os.mtpt, calloc, alloc. cbn.
  rewrite list_lookup_middle by done. cbn.
  rewrite list_lookup_middle by done. cbn.
  rewrite length_app. by cbn.
Qed.

Lemma Mount_first (w : World) :
  plan9os.initialised w →
  let r := plan9os.Mount w in
  fst r = (defaultFsys (snd r), None)
  ∧ is_Some (defaultFsys (snd r))
  ∧ plan9os.mtpt (snd r) (defaultFsys (snd r)) = Some "/mnt/acme"
  ∧ defaultOnce (snd r) = true
  ∧ length (heap (snd r))
    = length (heap w) + (if defaultOnce w then 0 else 1).
Proof.
  intros Hi. unfold plan9os.Mount, plan9os.once_Do. cbn zeta.
  destruct (defaultOnce w) eqn:Ho; cbn [fst snd].
  - destruct (Hi Ho) as [? ?]. rewrite Ho. repeat split; try done; lia.
  - destruct (mountAcme_mtpt w) as (Hd & Hm & Hl & _). cbn zeta in *.
    change (defaultFsys (set_defaultOnce true ?x)) with (defaultFsys x).
    change (heap (set_defaultOnce true ?x)) with (heap x).
    change (plan9os.mtpt (set_defaultOnce true ?x)) with (plan9os.mtpt x).
    rewrite Hd in *. repeat split; try done; by eexists.
Qed.

Lemma Mounts_again (n : nat) (w : World) :
  defaultOnce w = true →
  plan9os.Mounts n w = (replicate n (defaultFsys w, None), w).
Proof.
  intros Ho. induction n as [|n IH]; [done|].
  cbn [plan9os.Mounts]. unfold plan9os.Mount, plan9os.once_Do.
  rewrite Ho. cbn zeta. by rewrite IH.
Qed.

(** C10.  On Plan 9, [Mount] never fails: every call returns a nil error
    and the same non-nil [Fsys], whose mount point is "/mnt/acme"; the
    default is made by the first use of [defaultOnce] and by no later
    one. *)
Theorem plan9_mount_never_fails (w : World) (n : nat) :
  plan9os.initialised w →
  let r := plan9os.Mounts (S n) w in
  ∃ a : nat,
    fst r = replicate (S n) (Some a, None)
    ∧ plan9os.mtpt (snd r) (Some a) = Some "/mnt/acme"
    ∧ defaultFsys (snd r) = Some a
    ∧ length (heap (snd r))
      = length (heap w) + (if defaultOnce w then 0 else 1).
Proof.
  intros Hi. cbn zeta. cbn [plan9os.Mounts].
  destruct (Mount_first w Hi) as (Hr & [a Ha] & Hm & Ho & Hl).
  cbn zeta in *. destruct (plan9os.Mount w) as [r w1]. cbn [fst snd] in *.
  rewrite (Mounts_again n w1 Ho). cbn [fst snd].
  exists a. rewrite Hr, Ha in *. by repeat split.
Qed.

Lemma plan9_mount_never_fails_witness :
  plan9os.initialised plan9os.start
  ∧ ∃ a : nat,
      fst (plan9os.Mounts 3 plan9os.start) = replicate 3 (Some a, None)
      ∧ plan9os.mtpt (snd (plan9os.Mounts 3 plan9os.start)) (Some a)
        = Some "/mnt/acme".
Proof.
  assert (H : plan9os.initialised plan9os.start) by (intros H; discriminate).
  split; [exact H|].
  destruct (plan9_mount_never_fails plan9os.start 2 H) as (a & H1 & H2 & _).
  exists a. by split.
Defined.

Lemma p9p_Mount_spec (env : MountService) (w : World) :
  let r := p9p.Mount env w in
  let answer := env (length (dials w)) "acme" in
  dials (snd r) = dials w ++ ["acme"]
  ∧ defaultFsys (snd r) = defaultFsys w
  ∧ defaultErr (snd r) = defaultErr w
  ∧ defaultOnce (snd r) = defaultOnce w
  ∧ match snd answer with
    | Some e => fst r = (None, Some e) ∧ heap (snd r) = heap w
    | None =>
        fst r = (Some (length (heap w)), None)
        ∧ heap (snd r) = heap w ++ [{| fs := fst answer |}]
    end.
Proof.
  unfold p9p.Mount, dial. cbn zeta.
  destruct (env (length (dials w)) "acme") as [fs [e|]]; by cbn.
Qed.

(** X15.  On systems other than Plan 9, [mountAcme] does what [Mount]
    does, and keeps the outcome in the package: it dials "acme" once; when
    the dial fails it stores the error in [defaultErr] and leaves
    [defaultFsys] alone; otherwise it stores a new [Fsys] on the connection
    in [defaultFsys] and leaves [defaultErr] alone, an earlier error
    included.  What it stores is what [Mount] would have returned. *)
Theorem mountAcme_records_outcome (env : MountService) (w : World) :
  let w' := p9p.mountAcme env w in
  let r := p9p.Mount env w in
  let answer := env (length (dials w)) "acme" in
  dials w' = dials w ++ ["acme"]
  ∧ defaultOnce w' = defaultOnce w
  ∧ heap w' = heap (snd r) ∧ dials w' = dials (snd r)
  ∧ match snd answer with
    | Some e =>
        defaultErr w' = Some e ∧ defaultFsys w' = defaultFsys w
        ∧ fst r = (None, defaultErr w')
    | None =>
        defaultErr w' = defaultErr w
        ∧ defaultFsys w' = Some (length (heap w))
        ∧ heap w' !! length (heap w) = Some {| fs := fst answer |}
        ∧ fst r = (defaultFsys w', None)
    end.
Proof.
  unfold p9p.mountAcme, p9p.Mount, dial. cbn zeta.
  destruct (env (length (dials w)) "acme") as [fs [e|]]; cbn;
    repeat split; try done.
  by apply list_lookup_middle.
Qed.

Lemma Mounts_spec (env : MountService) (n : nat) (w : World) :
  let r := p9p.Mounts n env w in
  length (fst r) = n
  ∧ dials (snd r) = dials w ++ replicate n "acme"
  ∧ defaultFsys (snd r) = defaultFsys w
  ∧ defaultErr (snd r) = defaultErr w
  ∧ defaultOnce (snd r) = defaultOnce w
  ∧ heap w `prefix_of` heap (snd r)
  ∧ Forall (fun p => length (heap w) ≤ p < length (heap (snd r)))
      (omap fst (fst r))
  ∧ NoDup (omap fst (fst r))
  ∧ ∀ i x, fst r !! i = Some x →
      let answer := env (length (dials w) + i) "acme" in
      match snd answer with
      | Some e => x = (None, Some e)
      | None =>
          ∃ p, x = (Some p, None)
               ∧ heap (snd r) !! p = Some {| fs := fst answer |}
      end.
Proof.
  revert w. induction n as [|n IH]; intros w; cbn zeta.
  - cbn. rewrite app_nil_r. repeat split; try done; constructor.
  - cbn [p9p.Mounts].
    destruct (p9p_Mount_spec env w) as (Hd & Hf & He & Ho & Ha).
    cbn zeta in *. destruct (p9p.Mount env w) as [r w1]. cbn [fst snd] in *.
    specialize (IH w1). cbn zeta in IH.
    destruct (p9p.Mounts n env w1) as [rs w2]. cbn [fst snd] in *.
    destruct IH as (Hl & Hd2 & Hf2 & He2 & Ho2 & Hp2 & Hb2 & Hn2 & Hi2).
    assert (Hpre : heap w `prefix_of` heap w1).
    { destruct (snd (env (length (dials w)) "acme")).
      - destruct Ha as [_ ->]. done.
      - destruct Ha as [_ ->]. by apply prefix_app_r. }
    split; [by rewrite <- Hl|]. split.
    { rewrite Hd2, Hd, <- (assoc_L (++)). done. }
    split; [congruence|]. split; [congruence|]. split; [congruence|].
    split; [by etrans|].
    assert (Hlen : length (heap w) ≤ length (heap w1)).
    { by apply prefix_length. }
    split; [|split].
    + cbn [omap]. destruct (snd (env (length (dials w)) "acme")) eqn:Hans.
      * destruct Ha as [-> E]. cbn. rewrite E in *.
        exact Hb2.
      * destruct Ha as [-> E]. cbn. constructor.
        -- split; [lia|]. apply prefix_length in Hp2. rewrite E in Hp2.
           rewrite length_app in Hp2. cbn in Hp2. lia.
        -- eapply Forall_impl; [exact Hb2|]. cbn. intros p. lia.
    + cbn [omap]. destruct (snd (env (length (dials w)) "acme")) eqn:Hans.
      * destruct Ha as [-> E]. cbn. exact Hn2.
      * destruct Ha as [-> E]. cbn. constructor; [|done].
        intros Hin. rewrite Forall_forall in Hb2.
        apply Hb2 in Hin. rewrite E, length_app in Hin. cbn in Hin. lia.
    + intros [|i] x Hx.
      * cbn in Hx. injection Hx as <-. rewrite Nat.add_0_r.
        destruct (snd (env (length (dials w)) "acme")) eqn:Hans.
        -- by destruct Ha as [-> _].
        -- destruct Ha as [-> E]. eexists. split; [done|].
           eapply prefix_lookup_Some; [|exact Hp2].
           rewrite E. by apply list_lookup_middle.
      * cbn in Hx. specialize (Hi2 i x Hx). rewrite Hd in Hi2.
        rewrite length_app in Hi2. cbn in Hi2.
        by replace (length (dials w) + S i) with (length (dials w) + 1 + i)
          by lia.
Qed.

(** X16.  On systems other than Plan 9, calls of [Mount] are independent:
    [n] calls dial "acme" [n] times, the [i]-th result is decided by the
    [i]-th dial alone, the [Fsys] values returned are all different
    objects, the ones returned earlier stay as they are, and the package
    defaults are not touched. *)
Theorem mounts_dial_independently (env : MountService) (n : nat)
    (w : World) :
  let r := p9p.Mounts n env w in
  length (fst r) = n
  ∧ dials (snd r) = dials w ++ replicate n "acme"
  ∧ defaultFsys (snd r) = defaultFsys w
  ∧ defaultErr (snd r) = defaultErr w
  ∧ defaultOnce (snd r) = defaultOnce w
  ∧ heap w `prefix_of` heap (snd r)
  ∧ NoDup (omap fst (fst r))
  ∧ ∀ i x, fst r !! i = Some x →
      let answer := env (length (dials w) + i) "acme" in
      match snd answer with
      | Some e => x = (None, Some e)
      | None =>
          ∃ p, x = (Some p, None)
               ∧ heap (snd r) !! p = Some {| fs := fst answer |}
      end.
Proof.
  destruct (Mounts_spec env n w) as (?&?&?&?&?&?&_&?&?). by repeat split.
Qed.

(** X17.  On Plan 9, [Mount] settles after one call: every later call
    returns what the first returned and changes nothing.  [Mount] dials
    nothing, never sets [defaultErr], and its error is nil.  If
    [defaultOnce] had already run, the first call changes nothing either
    and returns [defaultFsys] as it is; otherwise it returns a new [Fsys]
    on "/mnt/acme". *)
Theorem plan9_mount_settles (w : World) (n : nat) :
  let r1 := plan9os.Mount w in
  let r := plan9os.Mounts n (snd r1) in
  snd r = snd r1
  ∧ fst r = replicate n (fst r1)
  ∧ snd (fst r1) = None
  ∧ defaultOnce (snd r1) = true
  ∧ dials (snd r1) = dials w
  ∧ defaultErr (snd r1) = defaultErr w
  ∧ heap w `prefix_of` heap (snd r1)
  ∧ (defaultOnce w = true → snd r1 = w ∧ fst (fst r1) = defaultFsys w)
  ∧ (defaultOnce w = false →
     fst (fst r1) = Some (length (heap w))
     ∧ plan9os.mtpt (snd r1) (fst (fst r1)) = Some "/mnt/acme").
Proof.
  cbn zeta.
  assert (Ho : defaultOnce (snd (plan9os.Mount w)) = true).
  { unfold plan9os.Mount, plan9os.once_Do.
    by destruct (defaultOnce w) eqn:E. }
  rewrite (Mounts_again n _ Ho). cbn [fst snd].
  split; [done|]. split; [done|]. split; [done|]. split; [done|].
  unfold plan9os.Mount, plan9os.once_Do. cbn [fst snd].
  destruct (defaultOnce w) eqn:E; cbn.
  - repeat split; done.
  - repeat split; try done.
    + apply prefix_app_r. done.
    + destruct (mountAcme_mtpt w) as (_ & Hm & _). exact Hm.
Qed.

End AcmeMount.

(** ** Framing *)

Section Framing.

Import codec.

Lemma byte_of_to_N (b : byte) : byte_of (Byte.to_N b) = b.
Proof. unfold byte_of. by rewrite Byte.of_to_N. Qed.

Lemma length_put_uint (w : nat) (n : N) : length (put_uint w n) = w.
Proof.
  revert n. induction w as [|w IH]; intros n; [done|]. cbn. by rewrite IH.
Qed.

Lemma put_uint_of (bs : list byte) : put_uint (length bs) (uint_of bs) = bs.
Proof.
  induction bs as [|b bs IH]; [done|].
  cbn [length put_uint uint_of].
  pose proof (Byte.to_N_bounded b) as Hb.
  assert (Hm : ((Byte.to_N b + 256 * uint_of bs) mod 256 = Byte.to_N b)%N).
  { rewrite N.mul_comm, N.Div0.mod_add. apply N.mod_small. lia. }
  assert (Hd : ((Byte.to_N b + 256 * uint_of bs) / 256 = uint_of bs)%N).
  { rewrite N.mul_comm, N.div_add by lia. rewrite N.div_small; lia. }
  by rewrite Hm, Hd, byte_of_to_N, IH.
Qed.

Lemma bind_inv {A B} (d : decoder A) (f : A → decoder B) (bs rest : list byte)
    (b : B) :
  bind d f bs = Some (b, rest) →
  ∃ a r, d bs = Some (a, r) ∧ f a r = Some (b, rest).
Proof.
  unfold bind. destruct (d bs) as [[a r]|]; [|done]. eauto.
Qed.

Lemma get_bytes_inv (n : nat) (bs a rest : list byte) :
  get_bytes n bs = Some (a, rest) → bs = a ++ rest ∧ length a = n.
Proof.
  unfold get_bytes. case_decide; [|done]. intros [= <- <-].
  split; [by rewrite take_drop|]. rewrite length_take. lia.
Qed.

Lemma get_uint_agrees (w : nat) : agrees (get_uint w) (put_uint w).
Proof.
  intros bs n rest H. apply bind_inv in H as (a & r & H & [= <- <-]).
  apply get_bytes_inv in H as [-> <-]. by rewrite put_uint_of.
Qed.

Lemma get_string_agrees (L : layout) :
  agrees (get_string L) (put_string L).
Proof.
  intros bs s rest H. apply bind_inv in H as (n & r & Hn & H).
  apply get_uint_agrees in Hn as ->.
  apply get_bytes_inv in H as [-> H]. unfold put_string.
  by rewrite H, N2Nat.id, <- app_assoc.
Qed.

Lemma get_many_agrees {A} (d : decoder A) (put : A → list byte) (n : nat) :
  agrees d put →
  ∀ bs l rest, get_many d n bs = Some (l, rest) →
    bs = concat (map put l) ++ rest ∧ length l = n.
Proof.
  intros Hd. induction n as [|n IH]; intros bs l rest H.
  - by injection H as <- <-.
  - cbn [get_many] in H.
    apply bind_inv in H as (a & r & Ha & H).
    apply bind_inv in H as (l' & r' & Hl & [= <- <-]).
    apply Hd in Ha as ->. apply IH in Hl as [-> <-].
    split; [|done]. cbn. by rewrite <- app_assoc.
Qed.

Lemma get_list_agrees {A} (L : layout) (d : decoder A)
    (put : A → list byte) :
  agrees d put → agrees (get_list L d) (put_list L put).
Proof.
  intros Hd bs l rest H. apply bind_inv in H as (n & r & Hn & H).
  apply get_uint_agrees in Hn as ->.
  apply (get_many_agrees _ _ _ Hd) in H as [-> H]. unfold put_list.
  by rewrite H, N2Nat.id, <- app_assoc.
Qed.

Lemma get_qid_agrees (n : nat) : agrees (get_bytes n) (fun q => q).
Proof. intros bs q rest H. by apply get_bytes_inv in H as [-> _]. Qed.

Ltac field H :=
  let a := fresh "a" in
  let r := fresh "r" in
  let Ha := fresh "Ha" in
  apply bind_inv in H as (a & r & Ha & H);
  first [ apply get_uint_agrees in Ha as ->
        | apply get_string_agrees in Ha as ->
        | apply (get_list_agrees _ _ _ (get_string_agrees _)) in Ha as ->
        | apply (get_list_agrees _ _ _ (get_qid_agrees _)) in Ha as ->
        | apply get_qid_agrees in Ha as -> ].

Lemma get_body_agrees (L : layout) (k : kind) (bs rest : list byte)
    (b : body) :
  get_body L k bs = Some (b, rest) →
  bs = put_body L b ++ rest ∧ kind_of b = k.
Proof.
  intros H. destruct k; cbn [get_body] in H; repeat field H;
    injection H as <- <-; cbn [put_body kind_of];
    by rewrite <- ?app_assoc.
Qed.

Lemma kind_of_code_inv (L : layout) (n : N) (k : kind) :
  kind_of_code L n = Some k → code L k = n.
Proof.
  unfold kind_of_code. intros H. apply find_some in H as [_ H].
  by apply N.eqb_eq.
Qed.

Lemma get_frame_agrees (L : layout) (bs rest : list byte) (m : message) :
  get_frame L bs = Some (m, rest) →
  bs = (put_uint (w_type L) (code L (kind_of (payload m)))
          ++ put_uint (w_tag L) (tag m) ++ put_body L (payload m)) ++ rest.
Proof.
  intros H. apply bind_inv in H as (k & r & Hk & H).
  unfold get_kind in Hk.
  destruct (get_uint (w_type L) bs) as [[n r0]|] eqn:Hn; [|done].
  destruct (kind_of_code L n) as [k'|] eqn:Hc; [|done].
  injection Hk as -> ->. apply kind_of_code_inv in Hc as <-.
  apply get_uint_agrees in Hn as ->.
  field H. apply bind_inv in H as (b & r1 & Hb & [= <- <-]).
  apply get_body_agrees in Hb as [-> <-]. cbn [payload tag].
  by rewrite <- !app_assoc.
Qed.

(** C6.  Re-encoding a message that was decoded from a byte sequence
    gives that byte sequence back, whatever the layout. *)
Theorem framing_round_trip (L : layout) (bs : list byte) (m : message) :
  decode L bs = Ok m → encode L m = bs.
Proof.
  unfold decode. intros H.
  destruct (get_uint (w_size L) bs) as [[size rest]|] eqn:Hs; [|done].
  case_decide as Hlen; [|done].
  destruct (get_frame L rest) as [[m' [|]]|] eqn:Hf; try done.
  injection H as ->. apply get_uint_agrees in Hs as ->.
  apply get_frame_agrees in Hf. rewrite app_nil_r in Hf. subst rest.
  unfold encode. cbn zeta. f_equal.
  rewrite length_app, length_put_uint in Hlen.
  by rewrite <- Hlen, N2Nat.id.
Qed.

(** The rejections section 4.1 lists, on 9P2000 frames: a truncated
    record, a declared length that is not the length of the record, an
    unknown discriminant; and a [Twalk] of two names that is accepted. *)
Example decode_truncated :
  decode layout_9P2000 (take 10 tclunk_frame) = MalformedMessage.
Proof. vm_compute. reflexivity. Qed.

Example decode_wrong_length :
  decode layout_9P2000 (tclunk_frame ++ [byte_of 0]) = MalformedMessage.
Proof. vm_compute. reflexivity. Qed.

Example decode_unknown_type :
  decode layout_9P2000 (<[4 := byte_of 99]> tclunk_frame) = MalformedMessage.
Proof. vm_compute. reflexivity. Qed.

Example decode_walk :
  decode layout_9P2000
    (map byte_of [25; 0; 0; 0; 110; 7; 0; 0; 0; 0; 0; 1; 0; 0; 0; 2; 0;
                  3; 0; 117; 115; 114; 1; 0; 120]%N)
  = Ok {| tag := 7;
          payload := walk 0 1 [map byte_of [117; 115; 114]%N;
                               map byte_of [120]%N] |}.
Proof. vm_compute. reflexivity. Qed.

Lemma framing_round_trip_witness :
  decode layout_9P2000 tclunk_frame = Ok {| tag := 2; payload := clunk 1 |}
  ∧ encode layout_9P2000 {| tag := 2; payload := clunk 1 |} = tclunk_frame.
Proof.
  assert (H : decode layout_9P2000 tclunk_frame
              = Ok {| tag := 2; payload := clunk 1 |})
    by (vm_compute; reflexivity).
  split; [exact H|]. exact (framing_round_trip _ _ _ H).
Defined.

End Framing.

(** ** The client and the two ends together *)

Import client system.

(** ** The fid manager and the connection of the client *)

Lemma is_in_true (l : liveness) (n : N) (m : fidmgr) :
  is_in l n m = true ↔ fidstate m !! n = Some l.
Proof. unfold is_in. apply bool_decide_eq_true. Qed.

Lemma allocate_inv (m m' : fidmgr) (n : N) :
  mgr_wf m → allocate m = Some (n, m') →
  (fidstate m !! n = Some free ∨ fidstate m !! n = None)
  ∧ fidstate m' = <[n := allocated]> (fidstate m)
  ∧ mgr_wf m'.
Proof.
  intros [Hf Hd Hn]. unfold allocate.
  destruct (freefid m) as [|x rest] eqn:Hfree.
  - case_decide; [|done]. intros [= <- <-]. cbn.
    split; [right; apply Hn; lia|]. split; [done|]. split; cbn.
    + intros n Hin. by apply elem_of_nil in Hin.
    + constructor.
    + intros n Hle. rewrite lookup_insert_ne by lia. apply Hn. lia.
  - intros [= <- <-]. cbn.
    assert (Hx : fidstate m !! x = Some free) by (apply Hf; left).
    apply NoDup_cons in Hd as [Hnx Hd].
    split; [by left|]. split; [done|]. split; cbn.
    + intros n Hin. rewrite lookup_insert_ne by (by intros ->).
      apply Hf. by right.
    + done.
    + intros n Hle. rewrite lookup_insert_ne; [by apply Hn|].
      intros ->. by rewrite (Hn _ Hle) in Hx.
Qed.

Lemma mark_wf (m : fidmgr) (n : N) (l0 l : liveness) :
  mgr_wf m → fidstate m !! n = Some l0 → l0 ≠ free → mgr_wf (mark n l m).
Proof.
  intros [Hf Hd Hn] H0 Hl0. split; cbn.
  - intros x Hin. rewrite lookup_insert_ne; [by apply Hf|].
    intros ->. apply Hf in Hin. congruence.
  - done.
  - intros x Hle. rewrite lookup_insert_ne; [by apply Hn|].
    intros ->. rewrite (Hn _ Hle) in H0. done.
Qed.

Lemma put_free_wf (m : fidmgr) (n : N) (l0 : liveness) :
  mgr_wf m → fidstate m !! n = Some l0 → l0 ≠ free → mgr_wf (put_free n m).
Proof.
  intros [Hf Hd Hn] H0 Hl0. split; cbn.
  - intros x Hin. apply elem_of_cons in Hin as [->|Hin].
    + by rewrite lookup_insert_eq.
    + rewrite lookup_insert_ne; [by apply Hf|].
      intros ->. apply Hf in Hin. congruence.
  - apply NoDup_cons. split; [|done]. intros Hin. apply Hf in Hin. congruence.
  - intros x Hle. rewrite lookup_insert_ne; [by apply Hn|].
    intros ->. rewrite (Hn _ Hle) in H0. done.
Qed.

(** What a call that goes through did. *)
Lemma do_call_inv (c : call) (k k' : Conn) :
  do_call c k = Some k' →
  closed k = false ∧
  match c with
  | NewConn m =>
      hs k = HsStart
      ∧ k' = {| mgr := mgr k; pending := pending k;
                outbox := outbox k ++ [tversion m]; hs := HsSent;
                closed := false |}
  | Attach t u a n =>
      hs k = HsDone ∧ fresh t k = true
      ∧ ∃ m', allocate (mgr k) = Some (n, m')
              ∧ k' = issue m' t (PAttach n) (tattach t n u a) k
  | Walk t src names n =>
      fidstate (mgr k) !! src = Some active ∧ fresh t k = true
      ∧ ∃ m', allocate (mgr k) = Some (n, m')
              ∧ k' = issue m' t (PWalk n (length names))
                       (twalk t src n names) k
  | Open t fid mode =>
      fidstate (mgr k) !! fid = Some active ∧ fresh t k = true
      ∧ k' = issue (mgr k) t (POpen fid) (topen t fid mode) k
  | Close t fid =>
      fidstate (mgr k) !! fid = Some active ∧ fresh t k = true
      ∧ k' = issue (mark fid retiring (mgr k)) t (PClunk fid)
               (tclunk t fid) k
  end.
Proof.
  unfold do_call. destruct (closed k) eqn:Hc; [done|]. intros H.
  split; [done|]. destruct c.
  - destruct (hs k); try done. by injection H as <-.
  - destruct (hs k); try done.
    destruct (allocate (mgr k)) as [[n m']|]; [|done].
    destruct (fresh tag k); [|done]. cbn in H.
    case_bool_decide; [|done]. subst. injection H as <-. eauto 10.
  - destruct (allocate (mgr k)) as [[n m']|]; [|done].
    destruct (fresh tag k); [|done]. cbn in H.
    destruct (is_in active src (mgr k)) eqn:Ha; [|done]. cbn in H.
    case_bool_decide; [|done]. subst. injection H as <-.
    apply is_in_true in Ha. eauto 10.
  - destruct (fresh tag k); [|done]. cbn in H.
    destruct (is_in active fid (mgr k)) eqn:Ha; [|done].
    injection H as <-. apply is_in_true in Ha. eauto.
  - unfold beginRetire in H.
    destruct (is_in active fid (mgr k)) eqn:Ha; [|done].
    destruct (fresh tag k); [|done]. injection H as <-.
    apply is_in_true in Ha. eauto.
Qed.

Lemma fresh_inv (t : N) (k : Conn) :
  fresh t k = true → pending k !! t = None ∧ (t < NOTAG)%N.
Proof.
  unfold fresh. rewrite andb_true_iff, !bool_decide_eq_true. tauto.
Qed.

(** What a delivery that leaves the connection up did: it ended the
    handshake, or it consumed the slot of the tag and kept the fids,
    activated the fid of the slot, or freed it. *)
Lemma deliver_inv (r : Fcall) (k : Conn) :
  closed k = false → closed (deliver r k) = false →
  (hs k = HsSent ∧ Typ r = Rversion
   ∧ deliver r k = {| mgr := mgr k; pending := pending k;
                      outbox := outbox k; hs := HsDone; closed := false |})
  ∨ (hs k = HsDone ∧
     ∃ sl m', pending k !! Tag r = Some sl
       ∧ deliver r k = {| mgr := m'; pending := delete (Tag r) (pending k);
                          outbox := outbox k; hs := HsDone;
                          closed := false |}
       ∧ (m' = mgr k
          ∨ (∃ n, (Typ r = Rattach ∨ Typ r = Rwalk)
                  ∧ establishes (pending k) (Tag r) n
                  ∧ fidstate (mgr k) !! n = Some allocated
                  ∧ m' = mark n active (mgr k))
          ∨ (∃ n, Typ r = Rerror
                  ∧ establishes (pending k) (Tag r) n
                  ∧ fidstate (mgr k) !! n = Some allocated
                  ∧ m' = put_free n (mgr k))
          ∨ (∃ n, Typ r = Rclunk
                  ∧ sl = PClunk n
                  ∧ fidstate (mgr k) !! n = Some retiring
                  ∧ m' = put_free n (mgr k)))).
Proof.
  intros Hc. unfold deliver.
  destruct (hs k) eqn:Hhs; [done| |].
  - case_bool_decide; [|done]. intros _. left. by rewrite Hc.
  - destruct (pending k !! Tag r) as [sl|] eqn:Hp; [|done].
    intros H. right. split; [done|]. exists sl.
    assert (Hs : ∀ om, closed (settle (Tag r) om k) = false →
      ∃ m', om = Some m' ∧ settle (Tag r) om k
        = {| mgr := m'; pending := delete (Tag r) (pending k);
             outbox := outbox k; hs := HsDone; closed := false |}).
    { intros [m'|]; [|done]. intros _. exists m'. cbn.
      by rewrite Hhs, Hc. }
    unfold release, markActive, confirmRetire in H |- *.
    destruct (Typ r) eqn:Ht, sl as [n|n c|n|n]; try done;
      try (case_bool_decide; [|done]);
      apply Hs in H as (m' & Hm & ->); exists m';
      (split; [done|]); split; try done;
      try (injection Hm as <-; by left);
      destruct (is_in _ n (mgr k)) eqn:Hi; try done;
      apply is_in_true in Hi; injection Hm as <-; right.
    all: unfold establishes; rewrite Hp; eauto 12.
Qed.

Lemma conn_wf_issue (k : Conn) (m' : fidmgr) (t n : N) (sl : slot)
    (f : Fcall) :
  conn_wf k → mgr_wf m' →
  (∀ x, x ≠ n → fidstate m' !! x = fidstate (mgr k) !! x) →
  fidstate (mgr k) !! n ≠ Some allocated →
  fidstate (mgr k) !! n ≠ Some retiring →
  fresh t k = true → slot_ok m' sl →
  (∀ x, slot_fid sl = Some x → x = n) →
  conn_wf (issue m' t sl f k).
Proof.
  intros [Hm Hs Hi] Hm' Hsame Hna Hnr Hfr Hok Hfid.
  apply fresh_inv in Hfr as [Hnone Hlt].
  assert (Hother : ∀ t0 sl0 x, pending k !! t0 = Some sl0 →
            slot_fid sl0 = Some x → x ≠ n).
  { intros t0 sl0 x H0 Hx ->. apply Hs in H0 as [H0 _].
    destruct sl0; cbn in *; congruence. }
  split; cbn.
  - done.
  - intros t0 sl0. rewrite lookup_insert_Some.
    intros [[<- <-]|[Hne H0]]; [done|].
    destruct (Hs _ _ H0) as [Hok0 Hlt0]. split; [|done].
    destruct sl0 as [x|x c|x|x]; cbn in *; try done;
      rewrite Hsame; try done; by eapply Hother.
  - intros t1 t2 sl1 sl2 x. rewrite !lookup_insert_Some.
    intros [[<- <-]|[Hne1 H1]] [[<- <-]|[Hne2 H2]] Hx1 Hx2; try done.
    + apply Hfid in Hx1 as ->. by eapply Hother in H2.
    + apply Hfid in Hx2 as ->. by eapply Hother in H1.
    + by eapply Hi.
Qed.

Lemma conn_wf_settle (k : Conn) (m' : fidmgr) (t : N) (sl : slot)
    (o : list Fcall) (h : handshake) (c : bool) :
  conn_wf k → pending k !! t = Some sl → mgr_wf m' →
  (∀ x, slot_fid sl ≠ Some x → fidstate m' !! x = fidstate (mgr k) !! x) →
  conn_wf {| mgr := m'; pending := delete t (pending k); outbox := o;
             hs := h; closed := c |}.
Proof.
  intros [Hm Hs Hi] Hp Hm' Hsame. split; cbn.
  - done.
  - intros t0 sl0. rewrite lookup_delete_Some. intros [Hne H0].
    destruct (Hs _ _ H0) as [Hok0 Hlt0]. split; [|done].
    assert (Hx : ∀ x, slot_fid sl0 = Some x → slot_fid sl ≠ Some x).
    { intros x H1 H2. apply Hne. by eapply Hi. }
    destruct sl0 as [x|x c0|x|x]; cbn in *; try done;
      rewrite Hsame; try done; by apply Hx.
  - intros t1 t2 sl1 sl2 x. rewrite !lookup_delete_Some.
    intros [_ H1] [_ H2]. by eapply Hi.
Qed.

Lemma conn_wf_call (c : call) (k k' : Conn) :
  conn_wf k → do_call c k = Some k' → conn_wf k'.
Proof.
  intros Hk H. apply do_call_inv in H as [_ H]. destruct c.
  - destruct H as [_ ->]. by destruct Hk.
  - destruct H as (_ & Hfr & m' & Ha & ->).
    destruct (allocate_inv _ _ _ (cw_mgr _ Hk) Ha) as (Hold & Hnew & Hm').
    eapply (conn_wf_issue _ _ _ fid); try done.
    + intros x Hx. by rewrite Hnew, lookup_insert_ne.
    + by destruct Hold as [-> | ->].
    + by destruct Hold as [-> | ->].
    + cbn. by rewrite Hnew, lookup_insert_eq.
    + by intros x [= <-].
  - destruct H as (_ & Hfr & m' & Ha & ->).
    destruct (allocate_inv _ _ _ (cw_mgr _ Hk) Ha) as (Hold & Hnew & Hm').
    eapply (conn_wf_issue _ _ _ newfid); try done.
    + intros x Hx. by rewrite Hnew, lookup_insert_ne.
    + by destruct Hold as [-> | ->].
    + by destruct Hold as [-> | ->].
    + cbn. by rewrite Hnew, lookup_insert_eq.
    + by intros x [= <-].
  - destruct H as (Ha & Hfr & ->).
    eapply (conn_wf_issue _ _ _ fid); try done; try congruence.
    by destruct Hk.
  - destruct H as (Ha & Hfr & ->).
    eapply (conn_wf_issue _ _ _ fid); try done; try congruence.
    + eapply mark_wf; [by destruct Hk|done|done].
    + intros x Hx. cbn. by rewrite lookup_insert_ne.
    + cbn. by rewrite lookup_insert_eq.
    + by intros x [= <-].
Qed.

Lemma establishes_fid (pd : gmap N slot) (t n : N) (sl : slot) :
  establishes pd t n → pd !! t = Some sl → slot_fid sl = Some n.
Proof. intros [H|[c H]] Hp; rewrite H in Hp; by injection Hp as <-. Qed.

Lemma conn_wf_deliver (r : Fcall) (k : Conn) :
  conn_wf k → closed k = false → closed (deliver r k) = false →
  conn_wf (deliver r k).
Proof.
  intros Hk Hc Hc'.
  destruct (deliver_inv r k Hc Hc')
    as [(_ & _ & ->)|(_ & sl & m' & Hp & -> & Hm)]; [by destruct Hk|].
  destruct Hm as [->|[(n & _ & He & Ha & ->)|[(n & _ & He & Ha & ->)
                 |(n & _ & -> & Ha & ->)]]];
    (eapply conn_wf_settle; [done|done| |]).
  - by destruct Hk.
  - done.
  - eapply mark_wf; [by destruct Hk|done|done].
  - intros x Hx. cbn. rewrite lookup_insert_ne; [done|].
    intros ->. by rewrite (establishes_fid _ _ _ _ He Hp) in Hx.
  - eapply put_free_wf; [by destruct Hk|done|done].
  - intros x Hx. cbn. rewrite lookup_insert_ne; [done|].
    intros ->. by rewrite (establishes_fid _ _ _ _ He Hp) in Hx.
  - eapply put_free_wf; [by destruct Hk|done|done].
  - intros x Hx. cbn. rewrite lookup_insert_ne; [done|]. by intros ->.
Qed.

Lemma conn_wf_init : conn_wf client.init.
Proof.
  split; [split|..]; cbn; try done.
  - intros n H. by apply elem_of_nil in H.
  - constructor.
Qed.

(** ** Runs of the two ends *)

Lemma sys_step_inv (l : system.label) (s s' : state) :
  system.step l s = Some s' →
  match l with
  | Call c =>
      ∃ k', do_call c (cl s) = Some k' ∧ s' = {| cl := k'; px := px s |}
  | Xmit i =>
      closed (cl s) = false
      ∧ ∃ f p', outbox (cl s) !! i = Some f
          ∧ proxy.step (Read (Some f)) (px s) = Some p'
          ∧ s' = {| cl := set_outbox (delete i (outbox (cl s))) (cl s);
                    px := p' |}
  | Srv l' =>
      internal l' = true
      ∧ ∃ p', proxy.step l' (px s) = Some p'
              ∧ s' = {| cl := cl s; px := p' |}
  | Recv r =>
      closed (cl s) = false
      ∧ ∃ p', proxy.step (Write r true) (px s) = Some p'
              ∧ s' = {| cl := deliver r (cl s); px := p' |}
  | Hangup =>
      closed (cl s) = false ∧ s' = {| cl := teardown (cl s); px := px s |}
  | ReadErr =>
      closed (cl s) = true
      ∧ ∃ p', proxy.step (Read None) (px s) = Some p'
              ∧ s' = {| cl := cl s; px := p' |}
  | WriteErr r =>
      closed (cl s) = true
      ∧ ∃ p', proxy.step (Write r false) (px s) = Some p'
              ∧ s' = {| cl := cl s; px := p' |}
  end.
Proof.
  unfold system.step. destruct l.
  - destruct (do_call c (cl s)); [|done]. intros [= <-]. eauto.
  - destruct (closed (cl s)); [done|].
    destruct (outbox (cl s) !! i) as [f|]; [|done].
    destruct (proxy.step (Read (Some f)) (px s)) as [p'|] eqn:Hp; [|done].
    intros [= <-]. split; [done|]. by exists f, p'.
  - destruct (internal l); [|done].
    destruct (proxy.step l (px s)) as [p'|] eqn:Hp; [|done].
    intros [= <-]. split; [done|]. by exists p'.
  - destruct (closed (cl s)); [done|].
    destruct (proxy.step (Write r true) (px s)) as [p'|] eqn:Hp; [|done].
    intros [= <-]. split; [done|]. by exists p'.
  - destruct (closed (cl s)); [done|]. by intros [= <-].
  - destruct (closed (cl s)); [|done].
    destruct (proxy.step (Read None) (px s)) as [p'|] eqn:Hp; [|done].
    intros [= <-]. split; [done|]. by exists p'.
  - destruct (closed (cl s)); [|done].
    destruct (proxy.step (Write r false) (px s)) as [p'|] eqn:Hp; [|done].
    intros [= <-]. split; [done|]. by exists p'.
Qed.

Lemma sys_run_app (l1 l2 : list system.label) (s : state) :
  system.run (l1 ++ l2) s = system.run l1 s ≫= system.run l2.
Proof.
  revert s. induction l1 as [|l l1 IH]; intros s; [done|].
  simpl. destruct (system.step l s); [apply IH | done].
Qed.

(** The connection stays well formed as long as it is up. *)
Lemma conn_wf_step (l : system.label) (s s' : state) :
  system.step l s = Some s' → closed (cl s') = false →
  conn_wf (cl s) → closed (cl s) = false ∧ conn_wf (cl s').
Proof.
  intros H Hc' Hk. apply sys_step_inv in H. destruct l.
  - destruct H as (k' & H & ->). split; [|by eapply conn_wf_call].
    by apply do_call_inv in H as [? _].
  - destruct H as (Hc & f & p' & _ & _ & ->). split; [done|].
    by destruct Hk.
  - destruct H as (_ & p' & _ & ->). done.
  - destruct H as (Hc & p' & _ & ->). split; [done|].
    by apply conn_wf_deliver.
  - by destruct H as (_ & ->).
  - destruct H as (Hc & p' & _ & ->). cbn in Hc'. congruence.
  - destruct H as (Hc & p' & _ & ->). cbn in Hc'. congruence.
Qed.

Lemma unacked_snoc (ls : list system.label) (l : system.label) (t n : N) :
  unacked (ls ++ [l]) t n →
  l = Call (Close t n) ∨ (unacked ls t n ∧ ¬ acks t l).
Proof.
  intros (pre & post & Hls & Hf).
  destruct post as [|x post _] using rev_ind.
  - left. apply app_inj_2 in Hls as [_ [= ->]]; done.
  - right. rewrite app_comm_cons, app_assoc in Hls.
    apply app_inj_2 in Hls as [-> [= ->]]; [|done].
    apply Forall_app in Hf as [Hf Hx]. split; [by exists pre, post|].
    exact (Forall_inv Hx).
Qed.

Lemma retiring_call (c : call) (k k' : Conn) (t n : N) :
  conn_wf k → do_call c k = Some k' →
  retiring_under k t n → retiring_under k' t n.
Proof.
  intros Hk H [Hr Hq]. apply do_call_inv in H as [_ H]. destruct c.
  - by destruct H as [_ ->].
  - destruct H as (_ & Hfr & m' & Ha & ->).
    destruct (allocate_inv _ _ _ (cw_mgr _ Hk) Ha) as (Hold & Hnew & _).
    split; cbn.
    + rewrite Hnew, lookup_insert_ne; [done|].
      intros ->. destruct Hold; congruence.
    + intros t'. rewrite lookup_insert_Some. intros [[_ [=]]|[_ H]]. eauto.
  - destruct H as (_ & Hfr & m' & Ha & ->).
    destruct (allocate_inv _ _ _ (cw_mgr _ Hk) Ha) as (Hold & Hnew & _).
    split; cbn.
    + rewrite Hnew, lookup_insert_ne; [done|].
      intros ->. destruct Hold; congruence.
    + intros t'. rewrite lookup_insert_Some. intros [[_ [=]]|[_ H]]. eauto.
  - destruct H as (_ & _ & ->). split; cbn; [done|].
    intros t'. rewrite lookup_insert_Some. intros [[_ [=]]|[_ H]]. eauto.
  - destruct H as (Ha & _ & ->). split; cbn.
    + rewrite lookup_insert_ne; [done|]. intros ->. congruence.
    + intros t'. rewrite lookup_insert_Some.
      intros [[_ [= ->]]|[_ H]]; [congruence|eauto].
Qed.

Lemma retiring_begin (k k' : Conn) (t n : N) :
  conn_wf k → do_call (Close t n) k = Some k' → retiring_under k' t n.
Proof.
  intros Hk H. apply do_call_inv in H as [_ (Ha & _ & ->)]. split; cbn.
  - by rewrite lookup_insert_eq.
  - intros t'. rewrite lookup_insert_Some. intros [[? _]|[_ H]]; [done|].
    apply (cw_slots _ Hk) in H as [H _]. cbn in H. congruence.
Qed.

Lemma retiring_deliver (r : Fcall) (k : Conn) (t n : N) :
  closed k = false → closed (deliver r k) = false →
  ¬ (Typ r = Rclunk ∧ Tag r = t) →
  retiring_under k t n → retiring_under (deliver r k) t n.
Proof.
  intros Hc Hc' Hack [Hr Hq].
  destruct (deliver_inv r k Hc Hc')
    as [(_ & _ & ->)|(_ & sl & m' & Hp & -> & Hm)]; [done|].
  split; cbn.
  - destruct Hm as [->|[(x & _ & _ & Ha & ->)|[(x & _ & _ & Ha & ->)
                   |(x & Ht & -> & Ha & ->)]]]; cbn; try done;
      (rewrite lookup_insert_ne; [done|]); intros ->; try congruence.
    apply Hack. split; [done|]. by apply Hq.
  - intros t'. rewrite lookup_delete_Some. intros [_ H]. eauto.
Qed.

Lemma client_inv_step (ls : list system.label) (l : system.label)
    (s s' : state) :
  client_inv ls s → system.step l s = Some s' → closed (cl s') = false →
  client_inv (ls ++ [l]) s'.
Proof.
  intros [Hk Hr] H Hc'.
  destruct (conn_wf_step _ _ _ H Hc' Hk) as [Hc Hk'].
  split; [done|]. intros t n Hu.
  apply unacked_snoc in Hu as [->|[Hu Hna]].
  - apply sys_step_inv in H as (k' & H & ->). cbn.
    eapply retiring_begin; [exact Hk | exact H].
  - apply Hr in Hu. apply sys_step_inv in H. destruct l.
    + destruct H as (k' & H & ->). cbn.
      eapply retiring_call; [exact Hk | exact H | exact Hu].
    + by destruct H as (_ & f & p' & _ & _ & ->).
    + by destruct H as (_ & p' & _ & ->).
    + destruct H as (_ & p' & _ & ->). by apply retiring_deliver.
    + by destruct H as (_ & ->).
    + destruct H as (Hc1 & _). congruence.
    + destruct H as (Hc1 & _). congruence.
Qed.

Lemma closed_step (l : system.label) (s s' : state) :
  system.step l s = Some s' → closed (cl s) = true → closed (cl s') = true.
Proof.
  intros H Hc. apply sys_step_inv in H. destruct l.
  - destruct H as (k' & H & _). apply do_call_inv in H as [? _]. congruence.
  - destruct H as (? & _). congruence.
  - by destruct H as (_ & p' & _ & ->).
  - destruct H as (? & _). congruence.
  - destruct H as (? & _). congruence.
  - by destruct H as (_ & p' & _ & ->).
  - by destruct H as (_ & p' & _ & ->).
Qed.

Lemma client_inv_run (ls pre : list system.label) (s s' : state) :
  client_inv pre s → system.run ls s = Some s' → closed (cl s') = false →
  client_inv (pre ++ ls) s'.
Proof.
  revert pre s. induction ls as [|l ls IH]; intros pre s Hi H Hc'.
  - injection H as <-. by rewrite app_nil_r.
  - simpl in H. destruct (system.step l s) as [s1|] eqn:Hs; [|done].
    rewrite (cons_middle l), app_assoc. eapply IH; [|done|done].
    eapply client_inv_step; [done|done|].
    destruct (closed (cl s1)) eqn:Hc1; [|done].
    assert (closed (cl s') = true); [|congruence].
    clear -H Hc1. revert s1 H Hc1. induction ls as [|x ls IH]; intros s1 H Hc1.
    + by injection H as <-.
    + simpl in H. destruct (system.step x s1) as [s2|] eqn:Hs; [|done].
      eapply IH; [done|]. by eapply closed_step.
Qed.

Lemma client_inv_init (d : Z) : client_inv [] (system.init d).
Proof.
  split; [apply conn_wf_init|].
  intros t n (pre & post & H & _). by destruct pre.
Qed.

(** A fid whose retirement is not yet acknowledged is not handed out. *)
Lemma no_reuse_before_ack (d : Z) (pre mid post : list system.label)
    (l : system.label) (t n : N) (s : state) :
  system.run (pre ++ Call (Close t n) :: mid ++ l :: post) (system.init d)
  = Some s →
  allocates n l →
  Exists (acks t) mid.
Proof.
  intros Hrun Hal.
  rewrite (cons_middle _ pre), app_assoc, app_assoc in Hrun.
  rewrite sys_run_app in Hrun.
  destruct (system.run _ (system.init d)) as [s1|] eqn:H1; [|done].
  simpl in Hrun. destruct (system.step l s1) as [s2|] eqn:H2; [|done].
  assert (Hk : ∃ k', do_call
            match l with Call c => c | _ => NewConn 0 end (cl s1) = Some k'
            ∧ ∃ c, l = Call c).
  { destruct l; try done. apply sys_step_inv in H2 as (k' & ? & _). eauto. }
  destruct Hk as (k' & Hk & c & ->).
  pose proof (do_call_inv _ _ _ Hk) as [Hc Hk'].
  pose proof (client_inv_run _ [] _ _ (client_inv_init d) H1 Hc) as [Hw Hr].
  destruct (decide (Exists (acks t) mid)) as [|Hn]; [done|]. exfalso.
  assert (Hu : unacked ([] ++ (pre ++ [Call (Close t n)]) ++ mid) t n).
  { exists pre, mid. split; [by rewrite <- app_assoc|].
    apply Forall_forall. intros x Hx Ha. apply Hn, Exists_exists. eauto. }
  apply Hr in Hu as [Hret _].
  assert (Ha : ∃ m', allocate (mgr (cl s1)) = Some (n, m')).
  { destruct c; try done; cbn in Hal; subst;
      [destruct Hk' as (_ & _ & m' & ? & _)
      |destruct Hk' as (_ & _ & m' & ? & _)]; eauto. }
  destruct Ha as [m' Ha].
  destruct (allocate_inv _ _ _ (cw_mgr _ Hw) Ha) as ([?|?] & _); congruence.
Qed.

(** ** What the two ends maintain *)

Lemma live_false_insert (fd : gmap N bool) (m n : N) :
  n ≠ m → live fd n = false → live (<[m := true]> fd) n = false.
Proof. intros Hne H. unfold live. by rewrite lookup_insert_ne. Qed.

Lemma live_false_delete (fd : gmap N bool) (k n : N) :
  live fd n = false → live (delete k fd) n = false.
Proof.
  intros H. destruct (decide (k = n)) as [->|Hne].
  - apply live_delete.
  - by rewrite live_delete_ne.
Qed.

Lemma live_insert_inv (fd : gmap N bool) (m n : N) :
  live (<[m := true]> fd) n = true → n = m ∨ live fd n = true.
Proof.
  unfold live. destruct (decide (m = n)) as [->|Hne]; [by left|].
  rewrite lookup_insert_ne by done. by right.
Qed.

Lemma not_held_dead (k : Conn) (p : proxyServer) (n : N) :
  (∀ x, live (fids p) x = true → held (mgr k) x) →
  fidstate (mgr k) !! n = Some free ∨ fidstate (mgr k) !! n = None →
  live (fids p) n = false.
Proof.
  intros Hh Hn. destruct (live (fids p) n) eqn:Hl; [|done].
  apply Hh in Hl as [?|[?|?]]; destruct Hn; congruence.
Qed.

(** Two pending slots under different tags concern different fids. *)
Lemma other_fid (k : Conn) (t0 t n m : N) (sl0 sl : slot) :
  conn_wf k → pending k !! t0 = Some sl0 → slot_fid sl0 = Some n →
  pending k !! t = Some sl → slot_fid sl = Some m → t0 ≠ t → n ≠ m.
Proof. intros Hk H0 Hn H Hm Hne ->. apply Hne. by eapply (cw_inj _ Hk). Qed.

(** The checks of an item depend on the slot of its tag and on the
    liveness of the fid of that slot. *)
Lemma resp_ok_mono (pd pd' : gmap N slot) (fd fd' : gmap N bool)
    (r : Fcall) :
  pd' !! Tag r = pd !! Tag r →
  (∀ sl n, pd !! Tag r = Some sl → slot_fid sl = Some n →
           live fd n = false → live fd' n = false) →
  resp_ok pd fd r → resp_ok pd' fd' r.
Proof.
  unfold resp_ok, establishes. intros Hp Hl H. rewrite Hp.
  destruct (Typ r); try done.
  - intros n [He|[c He]]; (eapply Hl; [exact He|done|]); apply H; eauto.
  - intros n He. eapply Hl; [exact He|done|]. by apply H.
Qed.

Lemma clunker_ok_mono (pd pd' : gmap N slot) (fd fd' : gmap N bool)
    (c : clunker) :
  (∀ t, clunker_tag c = Some t → pd' !! t = pd !! t) →
  (∀ t sl n, clunker_tag c = Some t → pd !! t = Some sl →
             slot_fid sl = Some n → live fd n = false → live fd' n = false) →
  clunker_ok pd fd c → clunker_ok pd' fd' c.
Proof.
  unfold clunker_ok. intros Hp Hl H. destruct c as [t n u|t|]; [| |done].
  - by rewrite Hp.
  - rewrite Hp by done. intros n He. eapply Hl; [done|exact He|done|].
    by apply H.
Qed.

Lemma req_ok_mono (k k' : Conn) (p p' : proxyServer) (f : Fcall) :
  pending k' !! Tag f = pending k !! Tag f →
  (Typ f = Tversion → hs k' = hs k ∧ main p' = main p) →
  (∀ sl n, pending k !! Tag f = Some sl → slot_fid sl = Some n →
           live (fids p) n = false → live (fids p') n = false) →
  req_ok k p f → req_ok k' p' f.
Proof.
  unfold req_ok. intros Hp Hv Hl H. rewrite Hp.
  destruct (Typ f); try done.
  - destruct (Hv eq_refl) as [-> ->]. done.
  - destruct H as [H1 H2]. split; [done|]. by eapply Hl.
  - destruct H as [H1 H2]. split; [done|]. by eapply Hl.
Qed.

Lemma elem_of_map {A B} (f : A → B) (l : list A) (y : B) :
  y ∈ map f l ↔ ∃ x, x ∈ l ∧ f x = y.
Proof.
  rewrite list_elem_of_In, in_map_iff. setoid_rewrite list_elem_of_In.
  naive_solver.
Qed.

Lemma inflight_tags (s : state) (t : N) :
  t ∈ inflight s ↔
  (∃ f, f ∈ outbox (cl s) ∧ Tag f = t)
  ∨ (∃ r, r ∈ responses (px s) ∧ Tag r = t)
  ∨ (∃ c, c ∈ clunkers (px s) ∧ clunker_tag c = Some t).
Proof.
  unfold inflight. by rewrite !elem_of_app, !elem_of_map, list_elem_of_omap.
Qed.

Lemma fresh_not_inflight (s : state) (t : N) :
  open_inv s → fresh t (cl s) = true → t ∉ inflight s.
Proof.
  intros Hi Hf Hin. apply fresh_inv in Hf as [Hn Hlt].
  apply (oi_pending _ Hi) in Hin as [->|[sl Hs]]; [lia|congruence].
Qed.

Lemma held_insert (m : fidmgr) (n x : N)
    (l : liveness) (nx : N) (fr : list N) :
  l ≠ free → held m x →
  held {| fidstate := <[n := l]> (fidstate m); nextfid := nx;
          freefid := fr |} x.
Proof.
  intros Hl Hh. unfold held in *. cbn.
  destruct (decide (n = x)) as [->|Hne].
  - rewrite lookup_insert_eq. destruct l; tauto.
  - by rewrite lookup_insert_ne.
Qed.

(** A request that enters the connection under a fresh tag. *)
Lemma open_inv_issue (s : state) (m' : fidmgr) (t : N) (sl : slot)
    (f : Fcall) :
  open_inv s → fresh t (cl s) = true → Tag f = t →
  conn_wf (issue m' t sl f (cl s)) →
  (∀ x, held (mgr (cl s)) x → held m' x) →
  req_ok (issue m' t sl f (cl s)) (px s) f →
  phase_ok {| cl := issue m' t sl f (cl s); px := px s |} →
  open_inv {| cl := issue m' t sl f (cl s); px := px s |}.
Proof.
  intros Hi Hf Ht Hk Hheld Hreq Hph.
  pose proof (fresh_not_inflight _ _ Hi Hf) as Hnin.
  assert (Hsame : ∀ t0, t0 ∈ inflight s →
            <[t := sl]> (pending (cl s)) !! t0 = pending (cl s) !! t0).
  { intros t0 Hin. rewrite lookup_insert_ne; [done|]. by intros <-. }
  split; cbn.
  - done.
  - intros n Hl. by apply Hheld, (oi_held _ Hi).
  - unfold inflight in *. cbn. rewrite map_app. cbn. rewrite Ht.
    rewrite <- app_assoc. cbn.
    apply (NoDup_Permutation_proper _ _ (Permutation_middle _ _ _)).
    apply NoDup_cons. split; [done|]. apply (oi_tags _ Hi).
  - intros t0. unfold inflight. cbn. rewrite map_app. cbn. rewrite Ht.
    rewrite <- app_assoc. cbn. rewrite elem_of_app, elem_of_cons.
    intros Hin.
    assert (Hc : t0 = t ∨ t0 ∈ inflight s).
    { unfold inflight. rewrite elem_of_app. tauto. }
    destruct Hc as [->|Hc].
    + right. rewrite lookup_insert_eq. by eexists.
    + rewrite (Hsame _ Hc). by apply (oi_pending _ Hi).
  - apply Forall_app. split; [|by apply Forall_singleton].
    apply Forall_forall. intros f0 Hin.
    pose proof (proj1 (Forall_forall _ _) (oi_reqs _ Hi) f0 Hin) as H0.
    eapply req_ok_mono; [| | |exact H0]; cbn; try done.
    apply Hsame, inflight_tags. eauto.
  - apply Forall_forall. intros r Hin.
    pose proof (proj1 (Forall_forall _ _) (oi_resps _ Hi) r Hin) as H0.
    eapply resp_ok_mono; [| |exact H0]; try done.
    apply Hsame, inflight_tags. eauto.
  - apply Forall_forall. intros c Hin.
    pose proof (proj1 (Forall_forall _ _) (oi_clunkers _ Hi) c Hin) as H0.
    eapply clunker_ok_mono; [| |exact H0]; try done.
    intros t0 Hc. apply Hsame, inflight_tags. eauto.
  - done.
Qed.

Lemma open_inv_call (s : state) (c : call) (k' : Conn) :
  open_inv s → do_call c (cl s) = Some k' →
  open_inv {| cl := k'; px := px s |}.
Proof.
  intros Hi H. pose proof (conn_wf_call _ _ _ (oi_conn _ Hi) H) as Hk'.
  pose proof (oi_phase _ Hi) as Hph. unfold phase_ok in Hph.
  apply do_call_inv in H as [Hc H]. destruct c.
  - destruct H as [Hhs ->]. rewrite Hhs in Hph.
    destruct Hph as (Hinit & Hm & Ho & Hcl).
    assert (Hr : responses (px s) = []).
    { unfold responses, sending. by rewrite Ho, Hm. }
    split; cbn.
    + done.
    + apply (oi_held _ Hi).
    + unfold inflight. cbn. rewrite Hinit, Hr, Hcl. cbn.
      apply NoDup_singleton.
    + unfold inflight. cbn. rewrite Hinit, Hr, Hcl. cbn.
      intros t Ht. apply list_elem_of_singleton in Ht. by left.
    + rewrite Hinit. cbn. apply Forall_singleton. unfold req_ok. by cbn.
    + by rewrite Hr.
    + by rewrite Hcl.
    + unfold phase_ok. cbn. rewrite Hinit. cbn. rewrite Hm, Ho, Hcl.
      repeat split; try done. left. repeat split; eauto.
  - destruct H as (Hhs & Hfr & m' & Ha & ->).
    destruct (allocate_inv _ _ _ (cw_mgr _ (oi_conn _ Hi)) Ha)
      as (Hold & Hnew & Hm').
    apply open_inv_issue; try done.
    + intros x Hx. unfold held. rewrite Hnew.
      destruct (decide (fid = x)) as [->|Hne];
        [rewrite lookup_insert_eq; tauto | by rewrite lookup_insert_ne].
    + unfold req_ok. cbn. rewrite lookup_insert_eq. split; [done|].
      eapply not_held_dead; [apply (oi_held _ Hi)|done].
    + unfold phase_ok. cbn. rewrite Hhs in Hph |- *.
      destruct (main (px s)) as [[| |]| | |]; try done.
      destruct Hph as (? & ? & Hall & Hact). repeat split; try done.
      * apply Forall_app. split; [done|]. by apply Forall_singleton.
      * intros n. rewrite Hnew.
        destruct (decide (fid = n)) as [->|Hne];
          [by rewrite lookup_insert_eq | by rewrite lookup_insert_ne].
  - destruct H as (Hact & Hfr & m' & Ha & ->).
    destruct (allocate_inv _ _ _ (cw_mgr _ (oi_conn _ Hi)) Ha)
      as (Hold & Hnew & Hm').
    assert (Hhs : hs (cl s) = HsDone ∧ main (px s) ≠ AtRead InAttach).
    { destruct (hs (cl s)).
      - destruct Hph as (Hinit & _). by rewrite Hinit in Hact.
      - destruct Hph as (_ & Hinit & _). by rewrite Hinit in Hact.
      - split; [done|]. intros E. rewrite E in Hph.
        destruct Hph as (_ & _ & _ & Hno). by apply Hno in Hact. }
    destruct Hhs as [Hhs Hmain].
    apply open_inv_issue; try done.
    + intros x Hx. unfold held. rewrite Hnew.
      destruct (decide (newfid = x)) as [->|Hne];
        [rewrite lookup_insert_eq; tauto | by rewrite lookup_insert_ne].
    + unfold req_ok. cbn. rewrite lookup_insert_eq. split; [done|].
      eapply not_held_dead; [apply (oi_held _ Hi)|done].
    + unfold phase_ok. cbn. rewrite Hhs in Hph |- *.
      by destruct (main (px s)) as [[| |]| | |].
  - destruct H as (Hact & Hfr & ->).
    assert (Hhs : hs (cl s) = HsDone ∧ main (px s) ≠ AtRead InAttach).
    { destruct (hs (cl s)).
      - destruct Hph as (Hinit & _). by rewrite Hinit in Hact.
      - destruct Hph as (_ & Hinit & _). by rewrite Hinit in Hact.
      - split; [done|]. intros E. rewrite E in Hph.
        destruct Hph as (_ & _ & _ & Hno). by apply Hno in Hact. }
    destruct Hhs as [Hhs Hmain].
    apply open_inv_issue; try done.
    + unfold req_ok. cbn. rewrite lookup_insert_eq. eauto.
    + unfold phase_ok. cbn. rewrite Hhs in Hph |- *.
      by destruct (main (px s)) as [[| |]| | |].
  - destruct H as (Hact & Hfr & ->).
    assert (Hhs : hs (cl s) = HsDone ∧ main (px s) ≠ AtRead InAttach).
    { destruct (hs (cl s)).
      - destruct Hph as (Hinit & _). by rewrite Hinit in Hact.
      - destruct Hph as (_ & Hinit & _). by rewrite Hinit in Hact.
      - split; [done|]. intros E. rewrite E in Hph.
        destruct Hph as (_ & _ & _ & Hno). by apply Hno in Hact. }
    destruct Hhs as [Hhs Hmain].
    apply open_inv_issue; try done.
    + intros x Hx. unfold mark. by apply held_insert.
    + unfold req_ok. cbn. by rewrite lookup_insert_eq.
    + unfold phase_ok. cbn. rewrite Hhs in Hph |- *.
      by destruct (main (px s)) as [[| |]| | |].
Qed.

Ltac sel :=
  cbn [cl px main out hand fids clunkDelay clunkSeen clunkers sender now
       set_main set_out set_hand set_fids set_clunkSeen set_clunkers
       set_sender set_now mgr pending outbox hs closed set_outbox issue]
    in *.

Ltac unw :=
  repeat first
    [ change (unwritten (set_main ?x ?p)) with (unwritten p)
    | change (unwritten (set_fids ?x ?p)) with (unwritten p)
    | change (unwritten (set_clunkers ?x ?p)) with (unwritten p)
    | change (unwritten (set_clunkSeen ?x ?p)) with (unwritten p)
    | change (unwritten (set_sender ?x ?p)) with (unwritten p)
    | change (unwritten (set_now ?x ?p)) with (unwritten p) ].

Lemma rclunk_not_dup (t : N) : is_dup (rclunk t) = false.
Proof. done. Qed.

(** The responses the proxy holds after a step that reads no request. *)
Lemma responses_step (l : proxy.label) (p p' : proxyServer) :
  proxy.step l p = Some p' →
  match l with
  | Read (Some _) => True
  | Read None => responses p' = responses p
  | Send _ => responses p' = responses p
  | Reply _ r => responses p' ≡ₚ r :: responses p ∧ is_dup r = false
  | Write r _ => responses p = r :: responses p'
  | _ => responses p' = responses p
  end.
Proof.
  intros H. apply step_inv in H as [_ H].
  unfold responses, sending, unwritten.
  destruct l.
  - destruct r; [done|]. destruct H as (ph & Hm & ->). cbn. by rewrite Hm.
  - destruct H as (ph & Hm & _ & ->). cbn.
    by rewrite Hm, app_nil_r, app_assoc.
  - by subst p'.
  - by destruct H as (? & ? & ? & _ & _ & ->).
  - destruct H as (t & _ & -> & _ & ->). cbn. split; [|done].
    rewrite (app_assoc _ (out p) [rclunk t]), <- app_assoc. cbn.
    symmetry. apply Permutation_middle.
  - destruct H as (Hh & _ & ->). cbn. by rewrite Hh.
  - by subst p'.
  - destruct H as (rest & Ho & Hh & _ & ->). cbn. by rewrite Ho, Hh.
Qed.

Lemma take_unwritten (r : Fcall) (p p' : proxyServer) :
  proxy.step (Take r) p = Some p' →
  unwritten p' = unwritten p ∧ main p' = main p ∧ fids p' = fids p
  ∧ clunkers p' = clunkers p.
Proof.
  intros H. apply step_inv in H as [_ (rest & Ho & Hh & _ & ->)].
  unfold unwritten. cbn. by rewrite Ho, Hh.
Qed.

Lemma open_inv_srv (s : state) (l : proxy.label) (p' : proxyServer) :
  open_inv s → internal l = true → proxy.step l (px s) = Some p' →
  open_inv {| cl := cl s; px := p' |}.
Proof.
  intros Hi Hint H. pose proof (responses_step _ _ _ H) as Hr.
  pose proof (oi_phase _ Hi) as Hph. unfold phase_ok in Hph.
  pose proof (oi_reqs _ Hi) as Hreqs.
  pose proof (oi_resps _ Hi) as Hresps.
  pose proof (oi_clunkers _ Hi) as Hcls.
  apply step_inv in H as [_ H]. destruct l; try done.
  - (* s.send(r) by the main goroutine *)
    destruct H as (ph & Hm & _ & ->).
    split; sel; try apply Hi.
    + unfold inflight. sel. rewrite Hr. apply (oi_tags _ Hi).
    + unfold inflight. sel. rewrite Hr. apply (oi_pending _ Hi).
    + eapply Forall_impl; [exact Hreqs|]. intros f H0.
      eapply req_ok_mono; [| | |exact H0]; sel; try done.
      intros E. unfold req_ok in H0. rewrite E in H0.
      destruct H0 as [_ H0]. congruence.
    + rewrite Hr. exact Hresps.
    + unfold phase_ok. sel. destruct (hs (cl s)).
      * destruct Hph as (_ & Hm' & _). congruence.
      * destruct Hph as (? & ? & ? & [(_ & Hm' & _)|[(Ho & (r0 & Hm' & Ht) & Hout)
                                     |(_ & Hm' & _)]]); try congruence.
        rewrite Hm in Hm'. injection Hm' as <- <-.
        repeat split; try done. right; right.
        unfold unwritten in *. sel. rewrite app_assoc, Hout. eauto.
      * rewrite Hm in Hph. by destruct ph.
  - (* the test makes a new clunkSeen *)
    subst p'. split; sel; apply Hi.
  - (* a clunk goroutine wakes up and deletes its fid *)
    destruct H as (t & fid & u & Hc & _ & ->).
    assert (Hne : clunkers (px s) ≠ []) by (by intros E; rewrite E in Hc).
    split; sel.
    + apply Hi.
    + intros n Hl. apply (oi_held _ Hi).
      destruct (decide (fid = n)) as [->|Hn]; [by rewrite live_delete in Hl|].
      by rewrite live_delete_ne in Hl.
    + unfold inflight in *. sel. rewrite Hr.
      rewrite (clunker_tags_wake _ _ _ _ _ Hc). apply (oi_tags _ Hi).
    + unfold inflight in *. sel. rewrite Hr.
      rewrite (clunker_tags_wake _ _ _ _ _ Hc). apply (oi_pending _ Hi).
    + eapply Forall_impl; [exact Hreqs|]. intros f H0.
      eapply req_ok_mono; [| | |exact H0]; sel; try done.
      intros. by apply live_false_delete.
    + rewrite Hr. eapply Forall_impl; [exact Hresps|]. intros f H0.
      eapply resp_ok_mono; [| |exact H0]; sel; try done.
      intros. by apply live_false_delete.
    + apply Forall_insert.
      * eapply Forall_impl; [exact Hcls|]. intros c H0.
        eapply clunker_ok_mono; [| |exact H0]; sel; try done.
        intros. by apply live_false_delete.
      * pose proof (proj1 (Forall_forall _ _) Hcls _
                      (list_elem_of_lookup_2 _ _ _ Hc)) as H0.
        cbn in *. intros n. rewrite H0. intros [= <-]. apply live_delete.
    + unfold phase_ok. sel. destruct (hs (cl s)).
      * by destruct Hph as (_ & _ & _ & ?).
      * by destruct Hph as (_ & _ & ? & _).
      * destruct (main (px s)) as [[| |]| | |]; try done.
        by destruct Hph as (_ & ? & _).
  - (* a clunk goroutine sends its Rclunk *)
    destruct H as (t & Hc & -> & _ & ->). destruct Hr as [Hr _].
    assert (Hne : clunkers (px s) ≠ []) by (by intros E; rewrite E in Hc).
    assert (Hperm : inflight {| cl := cl s;
        px := set_clunkers (<[i := Exited]> (clunkers (px s)))
                (set_out (out (px s) ++ [rclunk t]) (px s)) |}
      ≡ₚ inflight s).
    { unfold inflight. sel. apply Permutation_app_head.
      rewrite (Permutation_map Tag Hr). cbn.
      rewrite (clunker_tags_exit _ _ _ Hc).
      by rewrite <- Permutation_middle. }
    split; sel.
    + apply Hi.
    + apply (oi_held _ Hi).
    + rewrite Hperm. apply (oi_tags _ Hi).
    + intros t0. rewrite Hperm. apply (oi_pending _ Hi).
    + eapply Forall_impl; [exact Hreqs|]. intros f H0.
      eapply req_ok_mono; [| | |exact H0]; sel; done.
    + rewrite Hr. apply Forall_cons. split; [|exact Hresps].
      pose proof (proj1 (Forall_forall _ _) Hcls _
                    (list_elem_of_lookup_2 _ _ _ Hc)) as H0.
      exact H0.
    + apply Forall_insert; [exact Hcls|done].
    + unfold phase_ok. sel. destruct (hs (cl s)).
      * by destruct Hph as (_ & _ & _ & ?).
      * by destruct Hph as (_ & _ & ? & _).
      * destruct (main (px s)) as [[| |]| | |]; try done.
        by destruct Hph as (_ & ? & _).
  - (* time passes *)
    subst p'. split; sel; apply Hi.
  - (* sender receives the oldest frame from the channel *)
    assert (Hu : unwritten p' = unwritten (px s)).
    { destruct H as (rest & Ho & Hh & _ & ->). unfold unwritten. cbn.
      by rewrite Ho, Hh. }
    destruct H as (rest & Ho & Hh & _ & ->).
    split; sel; try apply Hi.
    + unfold inflight. sel. rewrite Hr. apply (oi_tags _ Hi).
    + unfold inflight. sel. rewrite Hr. apply (oi_pending _ Hi).
    + rewrite Hr. exact Hresps.
    + unfold phase_ok. sel. rewrite Hu.
      destruct (hs (cl s)); [done|done|].
      by destruct (main (px s)) as [[| |]| | |].
Qed.

Lemma held_put_free (m : fidmgr) (n x : N) :
  x ≠ n → held m x → held (put_free n m) x.
Proof. intros Hne. unfold held. cbn. by rewrite !lookup_insert_ne. Qed.

(** A response reaches the client and the connection stays up. *)
Lemma open_inv_recv (s : state) (r : Fcall) (p' : proxyServer) :
  open_inv s → closed (cl s) = false →
  proxy.step (Write r true) (px s) = Some p' →
  closed (deliver r (cl s)) = false →
  open_inv {| cl := deliver r (cl s); px := p' |}.
Proof.
  intros Hi Hc H Hc'. pose proof (responses_step _ _ _ H) as Hr.
  pose proof (oi_phase _ Hi) as Hph. unfold phase_ok in Hph.
  pose proof (oi_reqs _ Hi) as Hreqs.
  pose proof (oi_resps _ Hi) as Hresps.
  pose proof (oi_clunkers _ Hi) as Hcls.
  rewrite Hr in Hresps. apply Forall_cons in Hresps as [Hrok Hresps].
  apply step_inv in H as [_ (Hh & _ & ->)].
  destruct (deliver_inv r _ Hc Hc')
    as [(Hhs & Hty & Hd)|(Hhs & sl & m' & Hp & Hd & Hm)].
  - (* the version reply ends the handshake *)
    rewrite Hhs in Hph.
    destruct Hph as (Hpd & Hmg & Hcl & Hph).
    assert (Hu : unwritten (px s) = r :: out (px s)).
    { unfold unwritten. by rewrite Hh. }
    rewrite Hu in Hph.
    destruct Hph as [(_ & _ & Ho)|[(_ & _ & Ho)
                    |(Hob & Hmain & r0 & Ho & _)]]; try done.
    injection Ho as _ Hrest.
    assert (Hu' : unwritten (set_sender true (set_hand None (px s))) = []).
    { unfold unwritten. sel. by rewrite Hrest. }
    assert (Hr' : responses (set_sender true (set_hand None (px s))) = []).
    { unfold responses, sending. rewrite Hu'. sel. by rewrite Hmain. }
    rewrite Hd. split; sel.
    + by destruct (oi_conn _ Hi).
    + apply (oi_held _ Hi).
    + unfold inflight. sel. rewrite Hob, Hr', Hcl. constructor.
    + unfold inflight. sel. rewrite Hob, Hr', Hcl.
      intros t Ht. by apply elem_of_nil in Ht.
    + by rewrite Hob.
    + by rewrite Hr'.
    + by rewrite Hcl.
    + unfold phase_ok. sel. rewrite Hmain, Hob, Hcl, Hmg, Hu'.
      repeat split; try done; intros n; cbn; by rewrite lookup_empty.
  - (* the response settles the slot of its tag *)
    assert (Hperm : inflight s
              ≡ₚ Tag r :: inflight
                   {| cl := deliver r (cl s);
                      px := set_sender true (set_hand None (px s)) |}).
    { unfold inflight. rewrite Hd, Hr. sel. cbn [map app].
      by rewrite <- Permutation_middle. }
    pose proof (oi_tags _ Hi) as Hnd. rewrite Hperm in Hnd.
    apply NoDup_cons in Hnd as [Hnin Hnd].
    assert (Hsame : ∀ t0,
              t0 ∈ inflight
                     {| cl := deliver r (cl s);
                        px := set_sender true (set_hand None (px s)) |} →
              delete (Tag r) (pending (cl s)) !! t0 = pending (cl s) !! t0).
    { intros t0 Hin. rewrite lookup_delete_ne; [done|]. by intros <-. }
    pose proof (conn_wf_deliver r _ (oi_conn _ Hi) Hc Hc') as Hk'.
    split.
    + done.
    + rewrite Hd. sel. intros x Hl. pose proof (oi_held _ Hi x Hl) as Hx.
      destruct Hm as [->|[(n & _ & _ & _ & ->)|[(n & Ht & He & _ & ->)
                     |(n & Ht & -> & _ & ->)]]].
      * done.
      * unfold mark. by apply held_insert.
      * apply held_put_free; [|done]. intros ->.
        unfold resp_ok in Hrok. rewrite Ht in Hrok.
        apply Hrok in He. sel. congruence.
      * apply held_put_free; [|done]. intros ->.
        unfold resp_ok in Hrok. rewrite Ht in Hrok.
        apply Hrok in Hp. sel. congruence.
    + done.
    + intros t0 Hin. rewrite Hd. sel. rewrite (Hsame _ Hin).
      apply (oi_pending _ Hi). rewrite Hperm. by right.
    + rewrite Hd. sel. apply Forall_forall. intros f Hin.
      pose proof (proj1 (Forall_forall _ _) Hreqs f Hin) as H0.
      eapply req_ok_mono; [| | |exact H0]; sel; try done.
      apply Hsame, inflight_tags. rewrite Hd. sel. eauto.
    + rewrite Hd. sel. apply Forall_forall. intros r0 Hin.
      pose proof (proj1 (Forall_forall _ _) Hresps r0 Hin) as H0.
      eapply resp_ok_mono; [| |exact H0]; sel; try done.
      apply Hsame, inflight_tags. rewrite Hd. sel. eauto.
    + rewrite Hd. sel. apply Forall_forall. intros c Hin.
      pose proof (proj1 (Forall_forall _ _) Hcls c Hin) as H0.
      eapply clunker_ok_mono; [| |exact H0]; sel; try done.
      intros t0 Ht0. apply Hsame, inflight_tags. rewrite Hd. sel. eauto.
    + unfold phase_ok. rewrite Hd. sel. rewrite Hhs in Hph.
      destruct (main (px s)) as [[| |]| | |]; try done.
      destruct Hph as (Ho & _). unfold unwritten in Ho.
      by rewrite Hh in Ho.
Qed.

(** What the proxy does with a request the client wrote: it answers the
    [Tversion]; or it answers a request of the attached client, possibly
    entering the fid of the request's slot in its table; or it starts a
    clunk goroutine; or it stops. *)
Lemma xmit_cases (s : state) (i : nat) (f : Fcall) (ph : phase) :
  open_inv s → outbox (cl s) !! i = Some f → main (px s) = AtRead ph →
  (hs (cl s) = HsSent ∧ outbox (cl s) = [f] ∧ pending (cl s) = ∅
   ∧ clunkers (px s) = [] ∧ unwritten (px s) = []
   ∧ serve ph (Some f) (px s)
     = set_main (AtSend (rversion f) InAttach) (px s))
  ∨ (hs (cl s) = HsDone ∧
     ((∃ r sl fd',
         serve ph (Some f) (px s)
         = set_main (AtSend r InLoop) (set_fids fd' (px s))
         ∧ Tag r = Tag f ∧ is_dup r = false
         ∧ pending (cl s) !! Tag f = Some sl
         ∧ resp_ok (pending (cl s)) fd' r
         ∧ (fd' = fids (px s)
            ∨ ∃ m, slot_fid sl = Some m ∧ fd' = <[m := true]> (fids (px s))
                   ∧ held (mgr (cl s)) m))
      ∨ (pending (cl s) !! Tag f = Some (PClunk (Fid f))
         ∧ serve ph (Some f) (px s)
           = set_main (AtRead InLoop)
               (set_clunkers
                  (clunkers (px s)
                     ++ [Sleeping (Tag f) (Fid f)
                           (now (px s) + clunkDelay (px s))])
                  (set_clunkSeen ChanClosed (px s))))
      ∨ serve ph (Some f) (px s) = set_main Panicked (px s))).
Proof.
  intros Hi Hf Hm.
  pose proof (oi_phase _ Hi) as Hph. unfold phase_ok in Hph.
  pose proof (proj1 (Forall_forall _ _) (oi_reqs _ Hi) f
                (list_elem_of_lookup_2 _ _ _ Hf)) as Hreq.
  unfold req_ok in Hreq. rewrite Hm in Hph.
  destruct (hs (cl s)) eqn:Hhs.
  - destruct Hph as (Hinit & _). by rewrite Hinit in Hf.
  - left. destruct Hph as (Hpd & _ & Hcl & [((m & Ho) & Hmain & Hout)
                          |[(_ & (? & ? & _) & _)|(Ho & _)]]);
      [|done|by rewrite Ho in Hf].
    injection Hmain as ->. rewrite Ho in Hf.
    destruct i; [|done]. injection Hf as <-. by repeat split.
  - right. split; [done|]. destruct ph; [done| |].
    + (* the attach *)
      destruct Hph as (_ & _ & Hall & _).
      pose proof (proj1 (Forall_forall _ _) Hall f
                    (list_elem_of_lookup_2 _ _ _ Hf)) as Hty.
      rewrite Hty in Hreq. destruct Hreq as [Hp Hl].
      left.
      exists (rattach f), (PAttach (Fid f)),
             (<[Fid f := true]> (fids (px s))).
      repeat split; try done. right. exists (Fid f). repeat split.
      apply (cw_slots _ (oi_conn _ Hi)) in Hp as [Hp _]. by left.
    + (* a request in the loop *)
      cbn [serve]. destruct (Typ f) eqn:Hty; try done.
      * by destruct Hreq.
      * (* a further attach is not supported *)
        destruct Hreq as [Hp Hl].
        left.
        exists (rerror f "not supported"), (PAttach (Fid f)),
               (fids (px s)).
        repeat split; try done; [|by left].
        unfold resp_ok, establishes. cbn. rewrite Hp.
        intros n [[= <-]|[c [=]]]. done.
      * (* a walk to a fid that is not in the table *)
        destruct Hreq as [Hp Hl]. unfold serve_walk, walk_dup.
        rewrite Hl. cbn.
        left. exists (rwalk f), (PWalk (Newfid f) (length (Wname f))),
                (<[Newfid f := true]> (fids (px s))).
        repeat split; try done. right. exists (Newfid f). repeat split.
        apply (cw_slots _ (oi_conn _ Hi)) in Hp as [Hp _]. by left.
      * destruct Hreq as [n Hp].
        left. exists (ropen f), (POpen n), (fids (px s)).
        repeat split; try done. by left.
      * destruct (clunkSeen (px s)); [by right; right| |];
          right; left; by split.
Qed.

Lemma responses_at_read (p : proxyServer) (ph : phase) :
  main p = AtRead ph → responses p = unwritten p.
Proof. intros H. unfold responses, sending. by rewrite H, app_nil_r. Qed.

Lemma is_dup_rversion (f : Fcall) : is_dup (rversion f) = false.
Proof. done. Qed.

(** The client writes a request and the proxy reads it. *)
Lemma open_inv_xmit (s : state) (i : nat) (f : Fcall) (p' : proxyServer) :
  open_inv s →
  Forall (fun r => is_dup r = false) (responses (px s)) →
  outbox (cl s) !! i = Some f →
  proxy.step (Read (Some f)) (px s) = Some p' →
  open_inv {| cl := set_outbox (delete i (outbox (cl s))) (cl s); px := p' |}
  ∧ Forall (fun r => is_dup r = false) (responses p').
Proof.
  intros Hi Hnd Hf H. apply step_inv in H as [_ (ph & Hm & ->)].
  pose proof (oi_reqs _ Hi) as Hreqs.
  pose proof (oi_resps _ Hi) as Hresps.
  pose proof (oi_clunkers _ Hi) as Hcls.
  pose proof (responses_at_read _ _ Hm) as Hr.
  rewrite Hr in Hresps, Hnd.
  pose proof (delete_Permutation _ _ _ Hf) as Hob.
  destruct (xmit_cases s i f ph Hi Hf Hm)
    as [(Hhs & Ho & Hpd & Hcl & Hout & ->)|(Hhs & Hcase)].
  - (* the version request *)
    rewrite Ho in Hf. destruct i; [|done].
    assert (Hr' : responses (set_main (AtSend (rversion f) InAttach) (px s))
                  = [rversion f]).
    { unfold responses, sending. sel. unw. by rewrite Hout. }
    split; [|rewrite Hr'; by apply Forall_singleton].
    split; sel.
    + by destruct (oi_conn _ Hi).
    + apply (oi_held _ Hi).
    + unfold inflight. sel. rewrite Ho, Hr', Hcl. cbn. apply NoDup_singleton.
    + unfold inflight. sel. rewrite Ho, Hr', Hcl. cbn.
      intros t Ht. apply list_elem_of_singleton in Ht. by left.
    + by rewrite Ho.
    + rewrite Hr'. by apply Forall_singleton.
    + by rewrite Hcl.
    + unfold phase_ok. sel. unw. rewrite Hhs, Ho, Hcl, Hout.
      pose proof (oi_phase _ Hi) as Hph. unfold phase_ok in Hph.
      rewrite Hhs in Hph. destruct Hph as (? & ? & _).
      repeat split; try done. right; left. repeat split. by eexists.
  - (* a request of the attached client *)
    set (X := map Tag (delete i (outbox (cl s))) ++ map Tag (unwritten (px s))
              ++ omap clunker_tag (clunkers (px s))).
    assert (Hperm : inflight s ≡ₚ Tag f :: X).
    { unfold inflight, X. rewrite Hr.
      by rewrite (Permutation_map Tag Hob). }
    pose proof (oi_tags _ Hi) as HndX. rewrite Hperm in HndX.
    apply NoDup_cons in HndX as [Hnin HndX].
    assert (HinX : ∀ t, t ∈ X → t ∈ inflight s)
      by (intros t Ht; rewrite Hperm; by right).
    assert (Hreq_in : ∀ f0, f0 ∈ delete i (outbox (cl s)) → Tag f0 ∈ X).
    { intros f0 Hin. unfold X. rewrite elem_of_app, elem_of_map. eauto. }
    assert (Hresp_in : ∀ r0, r0 ∈ unwritten (px s) → Tag r0 ∈ X).
    { intros r0 Hin. unfold X. rewrite !elem_of_app, !elem_of_map. eauto. }
    assert (Hcl_in : ∀ c t, c ∈ clunkers (px s) → clunker_tag c = Some t →
                            t ∈ X).
    { intros c t Hin Hc. unfold X.
      rewrite !elem_of_app, list_elem_of_omap. eauto. }
    assert (Hreq_old : ∀ f0, f0 ∈ delete i (outbox (cl s)) →
                             req_ok (cl s) (px s) f0 ∧ Typ f0 ≠ Tversion).
    { intros f0 Hin. apply list_elem_of_delete_inv in Hin.
      pose proof (proj1 (Forall_forall _ _) Hreqs f0 Hin) as H0.
      split; [done|]. intros E. unfold req_ok in H0. rewrite E in H0.
      destruct H0 as [H0 _]. congruence. }
    destruct Hcase as [(r & sl & fd' & -> & Htag & Hdup & Hp & Hrok & Hfd)
                      |[(Hp & ->)| ->]].
    + (* answered by the main goroutine *)
      assert (Hdead : ∀ t0 sl0 n, t0 ∈ X → pending (cl s) !! t0 = Some sl0 →
                slot_fid sl0 = Some n → live (fids (px s)) n = false →
                live fd' n = false).
      { intros t0 sl0 n Ht0 H0 Hn Hl.
        destruct Hfd as [->|(m & Hsl & -> & _)]; [done|].
        apply live_false_insert; [|done].
        eapply other_fid; [apply (oi_conn _ Hi)|exact H0|exact Hn
                          |exact Hp|exact Hsl|].
        by intros ->. }
      assert (Hr' : responses (set_main (AtSend r InLoop)
                                 (set_fids fd' (px s)))
                    = unwritten (px s) ++ [r]) by done.
      assert (Hperm' : inflight
          {| cl := set_outbox (delete i (outbox (cl s))) (cl s);
             px := set_main (AtSend r InLoop) (set_fids fd' (px s)) |}
          ≡ₚ Tag f :: X).
      { unfold inflight, X. sel. rewrite Hr', map_app. cbn. rewrite Htag.
        rewrite <- !app_assoc. cbn. rewrite !app_assoc.
        symmetry. apply Permutation_middle. }
      split; [|rewrite Hr'; apply Forall_app; split;
                [done|by apply Forall_singleton]].
      split; sel.
      * by destruct (oi_conn _ Hi).
      * intros x Hl. destruct Hfd as [->|(m & _ & -> & Hheld)].
        -- by apply (oi_held _ Hi).
        -- apply live_insert_inv in Hl as [->|Hl]; [done|].
           by apply (oi_held _ Hi).
      * rewrite Hperm'. by apply NoDup_cons.
      * intros t. rewrite Hperm', <- Hperm. apply (oi_pending _ Hi).
      * apply Forall_forall. intros f0 Hin.
        destruct (Hreq_old f0 Hin) as [H0 Hnv].
        eapply req_ok_mono; [| | |exact H0]; sel; try done.
        intros sl0 n. apply Hdead. by apply Hreq_in.
      * rewrite Hr'. apply Forall_app. split; [|by apply Forall_singleton].
        apply Forall_forall. intros r0 Hin.
        pose proof (proj1 (Forall_forall _ _) Hresps r0 Hin) as H0.
        eapply resp_ok_mono; [| |exact H0]; try done.
        intros sl0 n. apply Hdead. by apply Hresp_in.
      * apply Forall_forall. intros c Hin.
        pose proof (proj1 (Forall_forall _ _) Hcls c Hin) as H0.
        eapply clunker_ok_mono; [| |exact H0]; try done.
        intros t0 sl0 n Hc. apply Hdead. by eapply Hcl_in.
      * unfold phase_ok. sel. by rewrite Hhs.
    + (* a clunk goroutine is started *)
      match goal with |- open_inv {| cl := _; px := ?q |} ∧ _ =>
        set (p' := q) end.
      assert (Hr' : responses p' = unwritten (px s)).
      { unfold responses, sending, p'. sel. by rewrite app_nil_r. }
      assert (Hperm' : inflight
          {| cl := set_outbox (delete i (outbox (cl s))) (cl s); px := p' |}
          ≡ₚ Tag f :: X).
      { unfold inflight, X. sel. rewrite Hr'. unfold p'. sel.
        rewrite omap_app. cbn. rewrite !app_assoc.
        by rewrite <- Permutation_cons_append. }
      split; [|by rewrite Hr'].
      split; sel.
      * by destruct (oi_conn _ Hi).
      * apply (oi_held _ Hi).
      * rewrite Hperm'. by apply NoDup_cons.
      * intros t. rewrite Hperm', <- Hperm. apply (oi_pending _ Hi).
      * apply Forall_forall. intros f0 Hin.
        destruct (Hreq_old f0 Hin) as [H0 Hnv].
        eapply req_ok_mono; [| | |exact H0]; sel; done.
      * by rewrite Hr'.
      * unfold p'. sel. apply Forall_app. split; [done|].
        by apply Forall_singleton.
      * unfold phase_ok, p'. sel. by rewrite Hhs.
    + (* the server stops *)
      assert (Hr' : responses (set_main Panicked (px s)) = unwritten (px s)).
      { unfold responses, sending. sel. by rewrite app_nil_r. }
      assert (HX : inflight
          {| cl := set_outbox (delete i (outbox (cl s))) (cl s);
             px := set_main Panicked (px s) |} = X).
      { unfold inflight, X. sel. by rewrite Hr'. }
      split; [|by rewrite Hr'].
      split; sel.
      * by destruct (oi_conn _ Hi).
      * apply (oi_held _ Hi).
      * by rewrite HX.
      * intros t. rewrite HX. intros Ht. by apply (oi_pending _ Hi), HinX.
      * apply Forall_forall. intros f0 Hin.
        destruct (Hreq_old f0 Hin) as [H0 Hnv].
        eapply req_ok_mono; [| | |exact H0]; sel; done.
      * by rewrite Hr'.
      * done.
      * unfold phase_ok. sel. by rewrite Hhs.
Qed.

Lemma sys_inv_init (d : Z) : sys_inv (system.init d).
Proof.
  split; [constructor|]. intros _. split; cbn.
  - apply conn_wf_init.
  - intros n H. unfold live in H. by rewrite lookup_empty in H.
  - constructor.
  - intros t Ht. by apply elem_of_nil in Ht.
  - constructor.
  - constructor.
  - constructor.
  - by unfold phase_ok.
Qed.

Lemma sys_inv_step (l : system.label) (s s' : state) :
  sys_inv s → system.step l s = Some s' → sys_inv s' ∧ clean l.
Proof.
  intros [Hr Ho] H. apply sys_step_inv in H. destruct l.
  - destruct H as (k' & H & ->). split; [|done]. split; [done|].
    intros _. pose proof (do_call_inv _ _ _ H) as [Hc _].
    apply (open_inv_call s c k'); [by apply Ho|done].
  - destruct H as (Hc & f & p' & Hf & H & ->).
    destruct (open_inv_xmit _ _ _ _ (Ho Hc) Hr Hf H) as [Hi' Hr'].
    split; [|done]. by split.
  - destruct H as (Hint & p' & H & ->).
    pose proof (responses_step _ _ _ H) as Hrs.
    assert (Hr' : Forall (fun r => is_dup r = false) (responses p')
                  ∧ clean (Srv l)).
    { destruct l as [[?|]| | | | | | |]; try done; cbn;
        try (rewrite Hrs; by split).
      - split; [by rewrite Hrs|].
        apply step_inv in H as [_ (ph & Hm & _)].
        apply (proj1 (Forall_forall _ _) Hr). unfold responses, sending.
        rewrite Hm, elem_of_app, list_elem_of_singleton. by right.
      - destruct Hrs as [Hrs Hd]. split; [|done]. rewrite Hrs.
        by apply Forall_cons. }
    destruct Hr' as [Hr' Hcl]. split; [|done]. split; [done|].
    intros Hc. apply (open_inv_srv s l p'); [by apply Ho|done|done].
  - destruct H as (Hc & p' & H & ->).
    pose proof (responses_step _ _ _ H) as Hrs. rewrite Hrs in Hr.
    apply Forall_cons in Hr as [Hd Hr].
    split; [|done]. split; [done|]. intros Hc'.
    apply (open_inv_recv s r p'); [by apply Ho|done|done|done].
  - destruct H as (Hc & ->). split; [|done]. by split.
  - destruct H as (Hc & p' & H & ->).
    pose proof (responses_step _ _ _ H) as Hrs. cbn in Hrs.
    split; [|done]. split; [cbn [px]; by rewrite Hrs|]. intros Hc'.
    cbn in Hc'.
    congruence.
  - destruct H as (Hc & p' & H & ->).
    pose proof (responses_step _ _ _ H) as Hrs. rewrite Hrs in Hr.
    apply Forall_cons in Hr as [Hd Hr].
    split; [|done]. split; [done|]. intros Hc'. cbn in Hc'. congruence.
Qed.

Lemma sys_inv_run (ls : list system.label) (s s' : state) :
  sys_inv s → system.run ls s = Some s' → sys_inv s' ∧ Forall clean ls.
Proof.
  revert s. induction ls as [|l ls IH]; intros s Hi H.
  - injection H as <-. by split.
  - simpl in H. destruct (system.step l s) as [s1|] eqn:Hs; [|done].
    destruct (sys_inv_step _ _ _ Hi Hs) as [Hi1 Hl].
    destruct (IH _ Hi1 H) as [Hi' Hls]. split; [done|]. by constructor.
Qed.

Lemma clean_dupFids (ls : list system.label) :
  Forall clean ls → dupFids ls = 0.
Proof.
  unfold dupFids. induction 1 as [|l ls Hl _ IH]; [done|].
  cbn. rewrite IH. destruct l; try done. cbn in Hl. by rewrite Hl.
Qed.

(** C1.  On one connection, in every interleaving of the callers, the
    client and the proxy: a fid number whose retirement was begun (its
    [Tclunk] stamped with tag [t]) is handed out again only after an
    [Rclunk] with tag [t] was delivered to the client; no response the
    proxy sends or the client receives rejects a walk as a duplicate fid.
    In the run of [TestFidRecycle], 20 rounds of open, close in the
    background, re-open, the proxy still lists the fid of the first open
    as live at every re-open, the run goes through with the connection
    up, and the client receives no "duplicate fid". *)
Theorem fid_not_recycled_before_rclunk (d : Z) (ls : list system.label)
    (s : state) :
  system.run ls (system.init d) = Some s →
  (∀ pre mid post t n l,
     ls = pre ++ Call (Close t n) :: mid ++ l :: post →
     allocates n l → Exists (acks t) mid)
  ∧ Forall clean ls
  ∧ dupFids ls = 0
  ∧ rounds = 20
  ∧ forallb still_live (seq 0 rounds) = true
  ∧ (∃ s', system.run TestFidRecycle srv = Some s'
           ∧ closed (cl s') = false)
  ∧ dupFids TestFidRecycle = 0.
Proof.
  intros Hrun.
  destruct (sys_inv_run _ _ _ (sys_inv_init d) Hrun) as [_ Hclean].
  split; [|split; [done|split; [by apply clean_dupFids|]]].
  - intros pre mid post t n l -> Hal. by eapply no_reuse_before_ack.
  - split; [done|]. split; [vm_compute; reflexivity|].
    split; [|vm_compute; reflexivity].
    eexists. split; vm_compute; reflexivity.
Qed.

Lemma fid_not_recycled_before_rclunk_witness :
  ∃ s, system.run reuse (system.init (5 * ms)) = Some s
       ∧ dupFids reuse = 0
       ∧ Exists (acks 1) reuse_mid.
Proof.
  assert (H : ∃ s, system.run reuse (system.init (5 * ms)) = Some s).
  { eexists. vm_compute. reflexivity. }
  destruct H as [s H]. exists s. split; [exact H|].
  destruct (fid_not_recycled_before_rclunk _ _ _ H) as (Hre & _ & Hd & _).
  split; [exact Hd|].
  by apply (Hre reuse_pre reuse_mid [] 1%N 1%N (Call (Walk 2 0 ["file"] 1))).
Defined.
